(** * ContentGen Pro: the library layer of the magic-tricks application

  A shallow embedding of the pure and state-passing parts of
  [src/lib/claude.ts], [src/lib/storage.ts], [src/lib/supabaseStorage.ts],
  [src/contexts/AuthContext.tsx] and of the row-level-security policies of
  the database set-up script, followed by the properties the specification
  states about them.  The handlers of the sign-in form, of the header and
  of the gallery, the storage buckets and their policies are embedded as
  well, with the properties that their code shows.

  Conventions of the embedding:
  - a JavaScript string is the list of its UTF-16 code units ([list N]);
  - a JavaScript [number] that holds an integer (a byte count, a time in
    milliseconds) is a [Z]; the code only adds, subtracts and compares such
    numbers, far below 2^53, where double arithmetic is exact;
  - a value that may be absent ([undefined], the [null] of [getItem]) is an
    [option]; the [null] of JSON data is [JNull];
  - a [try]/[catch] is a match on an explicit result type;
  - [Date.now()] and the answers of the hosted services are arguments. *)

From Stdlib Require Import ZArith NArith Lia Bool Ascii String Decimal DecimalPos DecimalN.
From stdpp Require Import gmap list.
Import ListNotations.

Local Open Scope N_scope.

(** ** JavaScript strings and the number conversions the code relies on *)

Module Js.

Definition jsstring := list N.

(** Code unit of an ASCII character, and the string of a literal. *)
Definition ch (a : ascii) : N := N_of_ascii a.

Fixpoint lit (s : string) : jsstring :=
  match s with
  | EmptyString => []
  | String a r => ch a :: lit r
  end.

(** [!s] on a value that is a string or [null]/[undefined]. *)
Definition falsy_string (s : option jsstring) : bool :=
  match s with
  | None => true
  | Some [] => true
  | Some (_ :: _) => false
  end.

(** *** Decimal digits *)

Definition digit_of (c : N) : option (uint -> uint) :=
  if c =? 48 then Some D0 else if c =? 49 then Some D1
  else if c =? 50 then Some D2 else if c =? 51 then Some D3
  else if c =? 52 then Some D4 else if c =? 53 then Some D5
  else if c =? 54 then Some D6 else if c =? 55 then Some D7
  else if c =? 56 then Some D8 else if c =? 57 then Some D9
  else None.

Definition is_digit (c : N) : bool := (48 <=? c) && (c <=? 57).

(** The longest prefix of decimal digits, and what follows it. *)
Fixpoint take_digits (s : jsstring) : uint * jsstring :=
  match s with
  | [] => (Nil, [])
  | c :: r =>
    match digit_of c with
    | Some k => let '(d, rest) := take_digits r in (k d, rest)
    | None => (Nil, s)
    end
  end.

Fixpoint chars_of_uint (d : uint) : jsstring :=
  match d with
  | Nil => []
  | D0 d => 48 :: chars_of_uint d
  | D1 d => 49 :: chars_of_uint d
  | D2 d => 50 :: chars_of_uint d
  | D3 d => 51 :: chars_of_uint d
  | D4 d => 52 :: chars_of_uint d
  | D5 d => 53 :: chars_of_uint d
  | D6 d => 54 :: chars_of_uint d
  | D7 d => 55 :: chars_of_uint d
  | D8 d => 56 :: chars_of_uint d
  | D9 d => 57 :: chars_of_uint d
  end.

(** [n.toString()] for an integer [n] with |n| < 10^21 (beyond that the
    engine switches to exponent notation; time values and byte counts
    never get there). *)
Definition N_toString (n : N) : jsstring := chars_of_uint (N.to_uint n).

Definition Z_toString (z : Z) : jsstring :=
  match z with
  | Z0 => N_toString 0
  | Zpos p => N_toString (Npos p)
  | Zneg p => ch "-" :: N_toString (Npos p)
  end.

(** *** [parseInt(s, 10)] *)

(** StrWhiteSpaceChar of ECMA-262: white space and line terminators. *)
Definition is_str_whitespace (c : N) : bool :=
  (c =? 9) || (c =? 10) || (c =? 11) || (c =? 12) || (c =? 13) || (c =? 32)
  || (c =? 160) || (c =? 5760) || ((8192 <=? c) && (c <=? 8202))
  || (c =? 8232) || (c =? 8233) || (c =? 8239) || (c =? 8287)
  || (c =? 12288) || (c =? 65279).

Fixpoint trim_start (s : jsstring) : jsstring :=
  match s with
  | c :: r => if is_str_whitespace c then trim_start r else s
  | [] => []
  end.

(** An optional sign: whether it is a minus, and what follows it. *)
Definition take_sign (s : jsstring) : bool * jsstring :=
  match s with
  | c :: r => if c =? ch "-" then (true, r)
              else if c =? ch "+" then (false, r) else (false, s)
  | [] => (false, s)
  end.

(** [None] is NaN.  The sign of a zero is not kept. *)
Definition parseInt10 (s : jsstring) : option Z :=
  let '(neg, body) := take_sign (trim_start s) in
  match take_digits body with
  | (Nil, _) => None
  | (d, _) => let n := Z.of_N (N.of_uint d) in
              Some (if neg then (- n)%Z else n)
  end.

(** *** Small string operations *)

(** [parts.join(sep)] *)
Fixpoint join (sep : jsstring) (parts : list jsstring) : jsstring :=
  match parts with
  | [] => []
  | [p] => p
  | p :: rest => p ++ sep ++ join sep rest
  end.

Fixpoint starts_with (p s : jsstring) : bool :=
  match p, s with
  | [], _ => true
  | a :: p', b :: s' => (a =? b) && starts_with p' s'
  | _ :: _, [] => false
  end.

(** [s.includes(p)] *)
Fixpoint includes (p s : jsstring) : bool :=
  starts_with p s ||
  match s with
  | [] => false
  | _ :: r => includes p r
  end.

(** [s.split(c)[0]]: what precedes the first [c]. *)
Fixpoint before_first (c : N) (s : jsstring) : jsstring :=
  match s with
  | [] => []
  | x :: r => if x =? c then [] else x :: before_first c r
  end.

(** [s.split(c).pop()]: what follows the last [c], the whole of [s] when
    there is none. *)
Fixpoint after_last (c : N) (s : jsstring) : jsstring :=
  match s with
  | [] => []
  | x :: r => if existsb (N.eqb c) r then after_last c r
              else if x =? c then r else s
  end.

(** What follows a printed number must not go on with a digit. *)
Definition no_digit_ahead (rest : jsstring) : Prop :=
  match rest with
  | [] => True
  | c :: _ => is_digit c = false
  end.

(** [s.split(c)] for a separator of one character: the pieces between the
    occurrences of [c], of which there is always at least one. *)
Fixpoint split (c : N) (s : jsstring) : list jsstring :=
  match s with
  | [] => [[]]
  | x :: r =>
    if x =? c then [] :: split c r
    else
      match split c r with
      | p :: ps => (x :: p) :: ps
      | [] => [[x]]
      end
  end.

(** [parts.findIndex(test)], which is -1 when no part passes the test. *)
Fixpoint findIndex {A} (test : A -> bool) (parts : list A) : Z :=
  match parts with
  | [] => (-1)%Z
  | p :: r =>
    if test p then 0%Z
    else let i := findIndex test r in if (i <? 0)%Z then (-1)%Z else (i + 1)%Z
  end.

(** [parts[i]] for a number [i]; [None] is [undefined]. *)
Definition at_index {A} (parts : list A) (i : Z) : option A :=
  if (i <? 0)%Z then None else parts !! Z.to_nat i.

(** [s.trim()]: the white space of [trim] is that of [parseInt]. *)
Definition trim (s : jsstring) : jsstring :=
  rev (trim_start (rev (trim_start s))).

(** [s.charAt(0)]: the first code unit as a string, or the empty string. *)
Definition charAt0 (s : jsstring) : jsstring :=
  match s with
  | [] => []
  | c :: _ => [c]
  end.

(** [s.slice(0, n)]: the first [n] code units. *)
Definition slice0 (n : nat) (s : jsstring) : jsstring := take n s.

End Js.

Import Js.


(** ** JSON values, [JSON.parse] and [JSON.stringify] *)

Module Json.

(** A value that JSON text can denote.  A number is kept as the exact
    decimal [m * 10^e], normalised so that [m] has no trailing zero digit
    (and [e = 0] when [m = 0]); the rounding of the engine to a double is not
    modelled, except where the code can observe it (see [number_is_zero]).
    An object is the list of its own properties, keys distinct, in the
    order in which they were created (the engine lists the keys that are
    array indices first; nothing here reads a property by its position). *)
Unset Elimination Schemes.
Inductive json : Type :=
| JNull
| JBool (b : bool)
| JNumber (m e : Z)
| JString (s : jsstring)
| JArray (vs : list json)
| JObject (o : list (jsstring * json)).
Set Elimination Schemes.

(** *** Reading properties and testing values *)

(** [o[k]] on the own properties of an object; [None] is [undefined]. *)
Fixpoint lookup_prop (k : jsstring) (o : list (jsstring * json)) : option json :=
  match o with
  | [] => None
  | (k', v) :: r => if bool_decide (k = k') then Some v else lookup_prop k r
  end.

(** CreateDataProperty: an existing key keeps its place and takes the new
    value, a new key goes to the end. *)
Fixpoint set_prop (k : jsstring) (v : json) (o : list (jsstring * json))
  : list (jsstring * json) :=
  match o with
  | [] => [(k, v)]
  | (k', v') :: r =>
    if bool_decide (k = k') then (k, v) :: r else (k', v') :: set_prop k v r
  end.

Definition make_object (kvs : list (jsstring * json)) : list (jsstring * json) :=
  fold_left (fun o kv => set_prop (fst kv) (snd kv) o) kvs [].

(** The double nearest to [m * 10^e] is zero: the decimal is zero, or at
    most half the least subnormal, 2^-1075 (a tie rounds to the even 0). *)
Definition number_is_zero (m e : Z) : bool :=
  ((m =? 0) || ((e <? 0) && (Z.abs m * 2 ^ 1075 <=? 10 ^ (- e))))%Z.

(** ToBoolean *)
Definition truthy (v : json) : bool :=
  match v with
  | JNull => false
  | JBool b => b
  | JNumber m e => negb (number_is_zero m e)
  | JString s => negb (falsy_string (Some s))
  | JArray _ => true
  | JObject _ => true
  end.

(** ToBoolean of a value that may be [undefined]. *)
Definition truthy_opt (v : option json) : bool :=
  match v with
  | None => false
  | Some v => truthy v
  end.

Definition is_array (v : option json) : bool :=
  match v with
  | Some (JArray _) => true
  | _ => false
  end.

(** *** The lexical grammar of ECMA-404 *)

Definition DQUOTE : N := 34.
Definition BACKSLASH : N := 92.

Definition is_ws (c : N) : bool :=
  (c =? 9) || (c =? 10) || (c =? 13) || (c =? 32).

Fixpoint skip_ws (s : jsstring) : jsstring :=
  match s with
  | c :: r => if is_ws c then skip_ws r else s
  | [] => []
  end.

Fixpoint strip_prefix (p s : jsstring) : option jsstring :=
  match p, s with
  | [], _ => Some s
  | a :: p', b :: s' => if a =? b then strip_prefix p' s' else None
  | _ :: _, [] => None
  end.

Definition hex_value (c : N) : option N :=
  if (48 <=? c) && (c <=? 57) then Some (c - 48)
  else if (97 <=? c) && (c <=? 102) then Some (c - 87)
  else if (65 <=? c) && (c <=? 70) then Some (c - 55)
  else None.

Definition hex4 (a b c d : N) : option N :=
  match hex_value a, hex_value b, hex_value c, hex_value d with
  | Some x, Some y, Some z, Some w => Some (((x * 16 + y) * 16 + z) * 16 + w)
  | _, _, _, _ => None
  end.

(** The character a single-letter escape stands for. *)
Definition unescape (c : N) : option N :=
  if c =? DQUOTE then Some DQUOTE
  else if c =? BACKSLASH then Some BACKSLASH
  else if c =? ch "/" then Some (ch "/")
  else if c =? ch "b" then Some 8
  else if c =? ch "f" then Some 12
  else if c =? ch "n" then Some 10
  else if c =? ch "r" then Some 13
  else if c =? ch "t" then Some 9
  else None.

(** The characters of a string literal, up to and including its closing
    quote: the decoded string and the text after the literal. *)
Fixpoint parse_chars (s : jsstring) : option (jsstring * jsstring) :=
  match s with
  | [] => None
  | c :: r =>
    if c =? DQUOTE then Some ([], r)
    else if c =? BACKSLASH then
      match r with
      | [] => None
      | x :: r1 =>
        if x =? ch "u" then
          match r1 with
          | h1 :: h2 :: h3 :: h4 :: r2 =>
            match hex4 h1 h2 h3 h4 with
            | Some u =>
              match parse_chars r2 with
              | Some (t, rest) => Some (u :: t, rest)
              | None => None
              end
            | None => None
            end
          | _ => None
          end
        else
          match unescape x with
          | Some u =>
            match parse_chars r1 with
            | Some (t, rest) => Some (u :: t, rest)
            | None => None
            end
          | None => None
          end
      end
    else if c <? 32 then None
    else
      match parse_chars r with
      | Some (t, rest) => Some (c :: t, rest)
      | None => None
      end
  end.

(** *** Numbers *)

Fixpoint strip_zeros (fuel : nat) (m e : Z) : Z * Z :=
  match fuel with
  | O => (m, e)
  | S f => if (m mod 10 =? 0)%Z then strip_zeros f (m / 10)%Z (e + 1)%Z else (m, e)
  end.

(** The mantissa without its trailing zero digits; there are at most
    [log2 |m|] of them, which bounds the loop. *)
Definition normalise (m e : Z) : Z * Z :=
  if (m =? 0)%Z then (0, 0)%Z else strip_zeros (Z.to_nat (Z.log2 (Z.abs m))) m e.

Definition nonempty_digits (s : jsstring) : option (uint * jsstring) :=
  match take_digits s with
  | (Nil, _) => None
  | (d, rest) => Some (d, rest)
  end.

(** number = [-] int [frac] [exp], int = 0 | digit1-9 digit* *)
Definition parse_int_part (s : jsstring) : option (uint * jsstring) :=
  match s with
  | [] => None
  | c :: r => if c =? 48 then Some (D0 Nil, r) else nonempty_digits s
  end.

Definition parse_frac (s : jsstring) : option (uint * jsstring) :=
  match s with
  | c :: r => if c =? ch "." then nonempty_digits r else Some (Nil, s)
  | [] => Some (Nil, s)
  end.

Definition parse_exp (s : jsstring) : option (Z * jsstring) :=
  match s with
  | c :: r =>
    if (c =? ch "e") || (c =? ch "E") then
      let '(neg, r') := take_sign r in
      match nonempty_digits r' with
      | Some (d, rest) =>
        let n := Z.of_N (N.of_uint d) in
        Some (if neg then (- n)%Z else n, rest)
      | None => None
      end
    else Some (0%Z, s)
  | [] => Some (0%Z, s)
  end.

Definition take_minus (s : jsstring) : bool * jsstring :=
  match s with
  | c :: r => if c =? ch "-" then (true, r) else (false, s)
  | [] => (false, s)
  end.

Definition parse_number (s : jsstring) : option (json * jsstring) :=
  let '(neg, s1) := take_minus s in
  match parse_int_part s1 with
  | None => None
  | Some (di, s2) =>
    match parse_frac s2 with
    | None => None
    | Some (df, s3) =>
      match parse_exp s3 with
      | None => None
      | Some (x, s4) =>
        let m := Z.of_N (N.of_uint (Decimal.app di df)) in
        let '(m', e') :=
          normalise (if neg then (- m)%Z else m) (x - Z.of_nat (nb_digits df))%Z in
        Some (JNumber m' e', s4)
      end
    end
  end.

(** *** Values *)

(** Outcome of a parser that is given a recursion budget. *)
Inductive res (A : Type) : Type :=
| Ok (a : A) (rest : jsstring)
| Err
| Fuel.
Arguments Ok {A} a rest.
Arguments Err {A}.
Arguments Fuel {A}.

Definition of_option {A} (o : option (A * jsstring)) : res A :=
  match o with
  | Some (a, rest) => Ok a rest
  | None => Err
  end.

(** [parse_value] reads a value at the head of [s]; [parse_elements] reads
    what follows an opening bracket or a comma of a non-empty array, up to
    the closing bracket; [parse_members] does the same for an object. *)
Fixpoint parse_value (fuel : nat) (s : jsstring) {struct fuel} : res json :=
  match fuel with
  | O => Fuel
  | S f =>
    match s with
    | [] => Err
    | c :: r =>
      if c =? ch "{" then
        match skip_ws r with
        | [] => Err
        | c' :: r' =>
          if c' =? ch "}" then Ok (JObject []) r'
          else
            match parse_members f r with
            | Ok kvs rest => Ok (JObject (make_object kvs)) rest
            | Err => Err
            | Fuel => Fuel
            end
        end
      else if c =? ch "[" then
        match skip_ws r with
        | [] => Err
        | c' :: r' =>
          if c' =? ch "]" then Ok (JArray []) r'
          else
            match parse_elements f r with
            | Ok vs rest => Ok (JArray vs) rest
            | Err => Err
            | Fuel => Fuel
            end
        end
      else if c =? DQUOTE then
        match parse_chars r with
        | Some (t, rest) => Ok (JString t) rest
        | None => Err
        end
      else if c =? ch "t" then
        match strip_prefix (lit "rue") r with
        | Some rest => Ok (JBool true) rest
        | None => Err
        end
      else if c =? ch "f" then
        match strip_prefix (lit "alse") r with
        | Some rest => Ok (JBool false) rest
        | None => Err
        end
      else if c =? ch "n" then
        match strip_prefix (lit "ull") r with
        | Some rest => Ok JNull rest
        | None => Err
        end
      else of_option (parse_number s)
    end
  end

with parse_elements (fuel : nat) (s : jsstring) {struct fuel} : res (list json) :=
  match fuel with
  | O => Fuel
  | S f =>
    match parse_value f (skip_ws s) with
    | Ok v r =>
      match skip_ws r with
      | [] => Err
      | c :: r' =>
        if c =? ch "," then
          match parse_elements f r' with
          | Ok vs rest => Ok (v :: vs) rest
          | Err => Err
          | Fuel => Fuel
          end
        else if c =? ch "]" then Ok [v] r'
        else Err
      end
    | Err => Err
    | Fuel => Fuel
    end
  end

with parse_members (fuel : nat) (s : jsstring) {struct fuel}
  : res (list (jsstring * json)) :=
  match fuel with
  | O => Fuel
  | S f =>
    match skip_ws s with
    | [] => Err
    | c :: r =>
      if c =? DQUOTE then
        match parse_chars r with
        | None => Err
        | Some (k, r1) =>
          match skip_ws r1 with
          | [] => Err
          | c1 :: r2 =>
            if c1 =? ch ":" then
              match parse_value f (skip_ws r2) with
              | Ok v r3 =>
                match skip_ws r3 with
                | [] => Err
                | c3 :: r4 =>
                  if c3 =? ch "," then
                    match parse_members f r4 with
                    | Ok kvs rest => Ok ((k, v) :: kvs) rest
                    | Err => Err
                    | Fuel => Fuel
                    end
                  else if c3 =? ch "}" then Ok [(k, v)] r4
                  else Err
                end
              | Err => Err
              | Fuel => Fuel
              end
            else Err
          end
        end
      else Err
    end
  end.

(** [JSON.parse(text)]: white space, one value, white space, and nothing
    else.  [None] is the SyntaxError the engine throws.  The budget is
    never exhausted (see [parse_value_fuel] below). *)
Definition JSON_parse (text : jsstring) : option json :=
  match parse_value (2 * length text + 2) (skip_ws text) with
  | Ok v rest =>
    match skip_ws rest with
    | [] => Some v
    | _ :: _ => None
    end
  | Err => None
  | Fuel => None
  end.

(** *** [JSON.stringify] *)

Definition hex_digit (n : N) : N := if n <? 10 then 48 + n else 87 + n.

Definition unicode_escape (c : N) : jsstring :=
  [BACKSLASH; ch "u"; hex_digit (c / 4096); hex_digit ((c / 256) mod 16);
   hex_digit ((c / 16) mod 16); hex_digit (c mod 16)].

Definition is_high_surrogate (c : N) : bool := (55296 <=? c) && (c <=? 56319).
Definition is_low_surrogate (c : N) : bool := (56320 <=? c) && (c <=? 57343).

Definition escape_char (c : N) : jsstring :=
  if c =? 8 then [BACKSLASH; ch "b"]
  else if c =? 9 then [BACKSLASH; ch "t"]
  else if c =? 10 then [BACKSLASH; ch "n"]
  else if c =? 12 then [BACKSLASH; ch "f"]
  else if c =? 13 then [BACKSLASH; ch "r"]
  else if c =? DQUOTE then [BACKSLASH; DQUOTE]
  else if c =? BACKSLASH then [BACKSLASH; BACKSLASH]
  else if c <? 32 then unicode_escape c
  else [c].

(** QuoteJSONString walks the code points of the string: a surrogate pair
    is copied, a lone surrogate is escaped. *)
Fixpoint quote_chars (s : jsstring) : jsstring :=
  match s with
  | [] => []
  | c :: r =>
    if is_high_surrogate c then
      match r with
      | d :: r' =>
        if is_low_surrogate d then c :: d :: quote_chars r'
        else unicode_escape c ++ quote_chars r
      | [] => unicode_escape c
      end
    else if is_low_surrogate c then unicode_escape c ++ quote_chars r
    else escape_char c ++ quote_chars r
  end.

Definition quote (s : jsstring) : jsstring :=
  DQUOTE :: quote_chars s ++ [DQUOTE].

(** The engine prints the shortest decimal that reads back as the same
    double; the exact decimal of the embedding is printed as its mantissa,
    followed by its exponent when that is not zero.  [JSON.parse] reads both
    texts as the same number, and the properties below speak of the text of
    a stored value only through what the parser reads from it. *)
Definition print_number (m e : Z) : jsstring :=
  Z_toString m ++ (if (e =? 0)%Z then [] else ch "e" :: Z_toString e).

(** The texts of the elements of an array or of the members of an object,
    separated by commas and followed by the closing bracket. *)
Fixpoint join_elements (texts : list jsstring) (close : N) : jsstring :=
  match texts with
  | [] => [close]
  | t :: rest =>
    t ++ match rest with
         | [] => [close]
         | _ :: _ => ch "," :: join_elements rest close
         end
  end.

Fixpoint print_value (v : json) : jsstring :=
  match v with
  | JNull => lit "null"
  | JBool true => lit "true"
  | JBool false => lit "false"
  | JNumber m e => print_number m e
  | JString s => quote s
  | JArray vs => ch "[" :: join_elements (map print_value vs) (ch "]")
  | JObject o =>
    ch "{" :: join_elements
                (map (fun kv => quote (fst kv) ++ ch ":" :: print_value (snd kv)) o)
                (ch "}")
  end.

(** [JSON.stringify(v)] of a value made of JSON data only: it neither
    throws (no cycle, no BigInt) nor returns [undefined]. *)
Definition JSON_stringify (v : json) : option jsstring := Some (print_value v).

(** *** Induction on values, through the lists they hold *)

Section JsonInduction.

Variable P : json -> Prop.
Hypothesis Hnull : P JNull.
Hypothesis Hbool : forall b, P (JBool b).
Hypothesis Hnumber : forall m e, P (JNumber m e).
Hypothesis Hstring : forall s, P (JString s).
Hypothesis Harray : forall vs, Forall P vs -> P (JArray vs).
Hypothesis Hobject : forall o, Forall (fun kv => P (snd kv)) o -> P (JObject o).

Fixpoint json_ind (v : json) : P v :=
  match v with
  | JNull => Hnull
  | JBool b => Hbool b
  | JNumber m e => Hnumber m e
  | JString s => Hstring s
  | JArray vs =>
    Harray vs
      ((fix all (l : list json) : Forall P l :=
          match l with
          | [] => @List.Forall_nil _ P
          | x :: r => @List.Forall_cons _ P x r (json_ind x) (all r)
          end) vs)
  | JObject o =>
    Hobject o
      ((fix all (l : list (jsstring * json)) : Forall (fun kv => P (snd kv)) l :=
          match l with
          | [] => @List.Forall_nil _ _
          | x :: r =>
            @List.Forall_cons _ (fun kv => P (snd kv)) x r (json_ind (snd x)) (all r)
          end) o)
  end.

End JsonInduction.

(** *** The values of the embedding that stand for a JavaScript value *)

(** Numbers are normalised and the keys of an object are distinct, as in
    every value that [JSON.parse] returns. *)
Definition canonical_number (m e : Z) : bool :=
  (if m =? 0 then e =? 0 else negb (m mod 10 =? 0))%Z.

Fixpoint distinct (keys : list jsstring) : bool :=
  match keys with
  | [] => true
  | k :: r => negb (existsb (fun k' => bool_decide (k = k')) r) && distinct r
  end.

Fixpoint wf_json (v : json) : bool :=
  match v with
  | JNumber m e => canonical_number m e
  | JArray vs => forallb wf_json vs
  | JObject o => distinct (map fst o) && forallb (fun kv => wf_json (snd kv)) o
  | _ => true
  end.

(** *** Predicates on the text around a value *)

(** What may follow the text of a number without being taken for a part
    of it. *)
Definition ends_number (rest : jsstring) : Prop :=
  match rest with
  | [] => True
  | c :: _ => is_digit c = false /\ c <> ch "." /\ c <> ch "e" /\ c <> ch "E"
  end.

(** What follows a value inside an array or an object, or at the end. *)
Definition closes (rest : jsstring) : Prop :=
  match rest with
  | [] => True
  | c :: _ => c = ch "," \/ c = ch "]" \/ c = ch "}"
  end.

(** The first character of a printed value. *)
Definition opens_value (c : N) : Prop :=
  is_ws c = false /\ c <> ch "]" /\ c <> ch "}".

(** The text of a member of an object. *)
Definition member_text (kv : jsstring * json) : jsstring :=
  quote (fst kv) ++ ch ":" :: print_value (snd kv).

(** With enough budget the parser returns the value and leaves the rest. *)
Definition reads_back (v : json) : Prop :=
  forall rest, closes rest ->
  exists f0, forall f, (f0 <= f)%nat -> parse_value f (print_value v ++ rest) = Ok v rest.

(** JSON text written with ['] where the text has a double quote. *)
Definition json_lit (s : string) : jsstring :=
  map (fun c => if c =? ch "'" then DQUOTE else c) (lit s).

End Json.

Import Json.

(** ** Exceptions *)

Module Exn.

(** What a [catch] clause can observe of the value it receives: whether it
    is an [Error] instance, and then its [message]. *)
Inductive thrown : Type :=
| ErrorObject (message : jsstring)
| OtherValue.

Inductive outcome (A : Type) : Type :=
| Returns (a : A)
| Throws (e : thrown).
Arguments Returns {A} a.
Arguments Throws {A} e.

#[export] Instance outcome_ret : MRet outcome := fun A a => Returns a.

#[export] Instance outcome_bind : MBind outcome := fun A B k c =>
  match c with
  | Returns a => k a
  | Throws e => Throws e
  end.

Definition try_catch {A} (body : outcome A) (handler : thrown -> outcome A)
  : outcome A :=
  match body with
  | Returns a => Returns a
  | Throws e => handler e
  end.

(** [error instanceof Error ? error.message : fallback] *)
Definition message_or (e : thrown) (fallback : jsstring) : jsstring :=
  match e with
  | ErrorObject m => m
  | OtherValue => fallback
  end.

End Exn.

Import Exn.

(** ** src/lib/claude.ts *)

Module Claude.

(** The fields are typed [string] and [string[]] in the interface, but the
    parser fills them with whatever the reply holds, so the embedding keeps
    them as values. *)
Record GeneratedTrick : Type := {
  title : json;
  description : json;
  instructions : json;
  difficulty : json;
  items : json
}.

Record TrickGenerationRequest : Type := {
  req_items : list jsstring;
  req_difficulty : option jsstring;
  req_additionalContext : option jsstring
}.

Record TrickGenerationResponse : Type := {
  success : bool;
  trick : option GeneratedTrick;
  error : option jsstring
}.

Definition strings (l : list jsstring) : json := JArray (map JString l).

(** *** [content.match(/\{[\s\S]*\}/)]

    The class [[\s\S]] accepts every code unit, so the leftmost match
    starts at the first opening brace that has a closing brace after it,
    which can only be the first opening brace; the star is greedy, so the
    match ends at the last closing brace. *)

Fixpoint from_first (c : N) (s : jsstring) : option jsstring :=
  match s with
  | [] => None
  | x :: r => if x =? c then Some s else from_first c r
  end.

Fixpoint up_to_last (c : N) (s : jsstring) : option jsstring :=
  match s with
  | [] => None
  | x :: r =>
    match up_to_last c r with
    | Some p => Some (x :: p)
    | None => if x =? c then Some [x] else None
    end
  end.

Definition match_braces (content : jsstring) : option jsstring :=
  match from_first (ch "{") content with
  | Some (b :: r) =>
    match up_to_last (ch "}") r with
    | Some body => Some (b :: body)
    | None => None
    end
  | _ => None
  end.

(** *** parseGeneratedTrick *)

(** [parsed.k]; the properties read here exist on no prototype. *)
Definition prop (parsed : json) (k : jsstring) : option json :=
  match parsed with
  | JObject o => lookup_prop k o
  | _ => None
  end.

(** [v || d] *)
Definition or_else (v : option json) (d : json) : json :=
  match v with
  | Some x => if truthy x then x else d
  | None => d
  end.

(** [l.includes(v)] for a list of strings: SameValueZero equates a string
    with equal strings only. *)
Definition includes_string (l : list jsstring) (v : option json) : bool :=
  match v with
  | Some (JString s) => existsb (fun d => bool_decide (d = s)) l
  | _ => false
  end.

Definition difficulties : list jsstring := [lit "Easy"; lit "Medium"; lit "Hard"].

Definition fallback_trick (requestedItems : list jsstring) : GeneratedTrick :=
  {| title := JString (lit "AI Generated Magic Trick");
     description := JString (lit "A magical trick created using artificial intelligence!");
     instructions := strings [lit "Gather your items"; lit "Follow the magical steps";
                              lit "Practice the routine"; lit "Amaze your audience!"];
     difficulty := JString (lit "Easy");
     items := strings requestedItems |}.

Definition cleaned_trick (parsed : json) (requestedItems : list jsstring)
  : GeneratedTrick :=
  {| title := or_else (prop parsed (lit "title")) (JString (lit "Generated Magic Trick"));
     description := or_else (prop parsed (lit "description"))
                      (JString (lit "A magical trick created just for you!"));
     instructions :=
       match prop parsed (lit "instructions") with
       | Some (JArray vs) => JArray vs
       | _ => strings [lit "Follow the magic!"]
       end;
     difficulty :=
       match prop parsed (lit "difficulty") with
       | Some d => if includes_string difficulties (Some d) then d
                   else JString (lit "Easy")
       | None => JString (lit "Easy")
       end;
     items :=
       match prop parsed (lit "items") with
       | Some (JArray vs) => JArray vs
       | _ => strings requestedItems
       end |}.

(** The [try] block throws when there is no match, when [JSON.parse]
    rejects the match, and when a property is read off [null]; the [catch]
    block answers all three with the fallback trick. *)
Definition parseGeneratedTrick (content : jsstring) (requestedItems : list jsstring)
  : GeneratedTrick :=
  match match_braces content with
  | None => fallback_trick requestedItems
  | Some jsonMatch =>
    match JSON_parse jsonMatch with
    | None => fallback_trick requestedItems
    | Some JNull => fallback_trick requestedItems
    | Some parsed => cleaned_trick parsed requestedItems
    end
  end.

(** *** generateMagicTrick *)

(** A block of [msg.content]; [text] is absent on blocks that are not text. *)
Record ContentBlock : Type := { text : option jsstring }.

(** What the SDK does for this call: building the client, and the awaited
    [messages.create].  The request reaches the service through the prompt
    only, so the answer is taken as given. *)
Record Anthropic : Type := {
  new_client : outcome unit;
  messages_create : outcome (list ContentBlock)
}.

(** [msg.content[0]?.text] *)
Definition first_text (content : list ContentBlock) : option jsstring :=
  match content with
  | [] => None
  | b :: _ => text b
  end.

Definition generateMagicTrick (CLAUDE_API_KEY : option jsstring)
    (sdk : Anthropic) (request : TrickGenerationRequest)
  : outcome TrickGenerationResponse :=
  if falsy_string CLAUDE_API_KEY then
    Returns {| success := false; trick := None;
               error := Some (lit "Claude API key not configured. Please add VITE_CLAUDE_API_KEY to your environment variables.") |}
  else
    try_catch
      (_ ← new_client sdk;
       msg ← messages_create sdk;
       match first_text msg with
       | Some (c :: cs) =>
         let content := c :: cs in
         let trick := parseGeneratedTrick content (req_items request) in
         Returns {| success := true; trick := Some trick; error := None |}
       | _ => Throws (ErrorObject (lit "No content received from Claude API"))
       end)
      (fun e =>
         Returns {| success := false; trick := None;
                    error := Some (message_or e (lit "Failed to generate magic trick")) |}).

(** [!!CLAUDE_API_KEY] *)
Definition isClaudeConfigured (CLAUDE_API_KEY : option jsstring) : bool :=
  let not_key := falsy_string CLAUDE_API_KEY in
  negb not_key.

(** *** The prompt *)

Definition getDifficultyDescription (difficulty : jsstring) : jsstring :=
  if bool_decide (difficulty = lit "Easy") then
    lit "Beginner-friendly, simple to learn and perform, requires minimal practice"
  else if bool_decide (difficulty = lit "Medium") then
    lit "Intermediate level, requires some practice and skill, more impressive effects"
  else if bool_decide (difficulty = lit "Hard") then
    lit "Advanced level, requires significant practice and skill, very impressive effects"
  else lit "Beginner-friendly, simple to learn and perform".

(** The template literal, piece by piece; the texts are written with [']
    where the template has a double quote. *)
Definition createTrickGenerationPrompt (request : TrickGenerationRequest) : jsstring :=
  let items := req_items request in
  let difficulty := default (lit "Easy") (req_difficulty request) in
  let additionalContext := default [] (req_additionalContext request) in
  let itemsList := join (lit ", ") items in
  let difficultyDescription := getDifficultyDescription difficulty in
  lit "Create a magic trick using these items: " ++ itemsList ++
  lit "

Requirements:
- Difficulty level: " ++ difficultyDescription ++
  lit "
- Use only the provided items (you can suggest additional common household items if needed)
- Make it safe and family-friendly
- Provide clear, step-by-step instructions
- Include a catchy title and engaging description

" ++
  (if falsy_string (Some additionalContext) then []
   else lit "Additional context: " ++ additionalContext) ++
  lit "

Please format your response as JSON with the following structure:
" ++
  json_lit "{
  'title': 'Trick Title',
  'description': 'Brief description of what the trick does',
  'instructions': ['Step 1', 'Step 2', 'Step 3', 'Step 4'],
  'difficulty': '" ++ difficulty ++
  json_lit "',
  'items': ['item1', 'item2', 'item3']
}" ++
  lit "

Make sure the JSON is valid and the instructions are clear and easy to follow.".

End Claude.

(** ** src/lib/supabaseStorage.ts *)

Module SupabaseStorage.

(** What the code reads of a browser [File]. *)
Record File : Type := {
  file_name : jsstring;
  file_type : jsstring;
  file_size : Z
}.

Record UploadResult : Type := {
  success : bool;
  url : option jsstring;
  error : option jsstring;
  path : option jsstring
}.

Record UploadOptions : Type := {
  opt_bucket : jsstring;
  opt_path : jsstring;
  opt_file : File;
  opt_userId : jsstring
}.

(** The arguments of one [supabase.storage.from(bucket).upload(path, file)]. *)
Record UploadCall : Type := {
  call_bucket : jsstring;
  call_path : jsstring;
  call_file : File
}.

(** The [{ data, error }] pair the client resolves to. *)
Inductive UploadAnswer : Type :=
| Stored
| Refused (message : jsstring).

(** The hosted object store, as far as this file uses it. *)
Record StorageClient : Type := {
  upload : UploadCall -> outcome UploadAnswer;
  getPublicUrl : jsstring -> jsstring -> jsstring
}.

(** The result comes with the list of upload requests that were issued. *)
Definition uploadFile (supabase : StorageClient) (o : UploadOptions)
  : list UploadCall * UploadResult :=
  let fullPath := opt_userId o ++ ch "/" :: opt_path o in
  let call := {| call_bucket := opt_bucket o; call_path := fullPath;
                 call_file := opt_file o |} in
  ([call],
   match upload supabase call with
   | Returns (Refused message) =>
     {| success := false; url := None; error := Some message; path := None |}
   | Returns Stored =>
     {| success := true;
        url := Some (getPublicUrl supabase (opt_bucket o) fullPath);
        error := None;
        path := Some fullPath |}
   | Throws e =>
     {| success := false; url := None;
        error := Some (message_or e (lit "Unknown error")); path := None |}
   end).

(** [file.name.split('.').pop() || dflt] *)
Definition extension (file : File) (dflt : jsstring) : jsstring :=
  match after_last (ch ".") (file_name file) with
  | [] => dflt
  | x => x
  end.

Definition profile_filename (now : Z) (file : File) : jsstring :=
  lit "profile_" ++ Z_toString now ++ ch "." :: extension file (lit "jpg").

Definition uploadProfilePicture (supabase : StorageClient) (now : Z)
    (file : File) (userId : jsstring) : list UploadCall * UploadResult :=
  uploadFile supabase
    {| opt_bucket := lit "profile_pictures"; opt_path := profile_filename now file;
       opt_file := file; opt_userId := userId |}.

Definition video_filename (now : Z) (file : File) (customName : option jsstring)
  : jsstring :=
  let fileExtension := extension file (lit "mp4") in
  if falsy_string customName then
    lit "video_" ++ Z_toString now ++ ch "." :: fileExtension
  else
    default [] customName ++ ch "_" :: Z_toString now ++ ch "." :: fileExtension.

Definition uploadUserVideo (supabase : StorageClient) (now : Z)
    (file : File) (userId : jsstring) (customName : option jsstring)
  : list UploadCall * UploadResult :=
  uploadFile supabase
    {| opt_bucket := lit "user_videos"; opt_path := video_filename now file customName;
       opt_file := file; opt_userId := userId |}.

(** *** Validation *)

Record Validation : Type := {
  valid : bool;
  verror : option jsstring
}.

(** [allowedTypes.includes(t)] *)
Definition includes_type (allowedTypes : list jsstring) (t : jsstring) : bool :=
  existsb (fun a => bool_decide (a = t)) allowedTypes.

(** [Math.round(a / b)] for integers [a] and [b > 0]: the quotient plus one
    half, rounded down. *)
Definition round_div (a b : Z) : Z := ((2 * a + b) / (2 * b))%Z.

Definition validateFile (file : File) (allowedTypes : list jsstring)
    (maxSizeInBytes : Z) : Validation :=
  if negb (includes_type allowedTypes (file_type file)) then
    {| valid := false;
       verror := Some (lit "File type not allowed. Allowed types: "
                       ++ join (lit ", ") allowedTypes) |}
  else if (file_size file >? maxSizeInBytes)%Z then
    let maxSizeMB := round_div maxSizeInBytes (1024 * 1024) in
    {| valid := false;
       verror := Some (lit "File too large. Maximum size: "
                       ++ Z_toString maxSizeMB ++ lit "MB") |}
  else {| valid := true; verror := None |}.

Definition profile_picture_types : list jsstring :=
  [lit "image/jpeg"; lit "image/png"; lit "image/gif"; lit "image/webp"].

Definition validateProfilePicture (file : File) : Validation :=
  let allowedTypes := profile_picture_types in
  let maxSize := (5 * 1024 * 1024)%Z in
  validateFile file allowedTypes maxSize.

Definition user_video_types : list jsstring :=
  [lit "video/mp4"; lit "video/webm"; lit "video/quicktime"; lit "video/x-msvideo"].

Definition validateUserVideo (file : File) : Validation :=
  let allowedTypes := user_video_types in
  let maxSize := (50 * 1024 * 1024)%Z in
  validateFile file allowedTypes maxSize.

(** The first segment of a storage path, as [storage.foldername(name)[1]]
    of the bucket policies reads it. *)
Definition first_segment (p : jsstring) : jsstring := before_first (ch "/") p.

(** *** Deletion *)

(** The arguments of one [supabase.storage.from(bucket).remove(paths)]. *)
Record RemoveCall : Type := {
  remove_bucket : jsstring;
  remove_paths : list jsstring
}.

(** The [{ error }] the client resolves to. *)
Inductive RemoveAnswer : Type :=
| Removed
| NotRemoved (message : jsstring).

Record DeleteResult : Type := {
  deleted : bool;
  delete_error : option jsstring
}.

(** [remove] is the hosted object store; the result comes with the list of
    removal requests that were issued. *)
Definition deleteFile (remove : RemoveCall -> outcome RemoveAnswer)
    (bucket path : jsstring) : list RemoveCall * DeleteResult :=
  let call := {| remove_bucket := bucket; remove_paths := [path] |} in
  ([call],
   match remove call with
   | Returns (NotRemoved message) =>
     {| deleted := false; delete_error := Some message |}
   | Returns Removed => {| deleted := true; delete_error := None |}
   | Throws e =>
     {| deleted := false; delete_error := Some (message_or e (lit "Unknown error")) |}
   end).

Definition deleteProfilePicture (remove : RemoveCall -> outcome RemoveAnswer)
    (userId filename : jsstring) : list RemoveCall * DeleteResult :=
  let fullPath := userId ++ ch "/" :: filename in
  deleteFile remove (lit "profile_pictures") fullPath.

Definition deleteUserVideo (remove : RemoveCall -> outcome RemoveAnswer)
    (userId filename : jsstring) : list RemoveCall * DeleteResult :=
  let fullPath := userId ++ ch "/" :: filename in
  deleteFile remove (lit "user_videos") fullPath.

(** *** Reading a storage URL *)

(** [new URL(url).pathname]: the URL parser of the browser, which throws
    on a text that is not a URL. *)
Definition UrlParser : Type := jsstring -> outcome jsstring.

(** [None] is the [null] of the [catch] block. *)
Definition extractFilenameFromUrl (URL_pathname : UrlParser) (url : jsstring)
  : option jsstring :=
  match URL_pathname url with
  | Returns pathname =>
    let pathParts := split (ch "/") pathname in
    at_index pathParts (Z.of_nat (List.length pathParts) - 1)
  | Throws _ => None
  end.

(** [pathParts[userIdIndex] || null] *)
Definition extractUserIdFromUrl (URL_pathname : UrlParser) (url : jsstring)
  : option jsstring :=
  match URL_pathname url with
  | Returns pathname =>
    let pathParts := split (ch "/") pathname in
    let userIdIndex :=
      (findIndex (fun part => bool_decide (part = lit "public")) pathParts + 2)%Z in
    match at_index pathParts userIdIndex with
    | Some (c :: r) => Some (c :: r)
    | _ => None
    end
  | Throws _ => None
  end.

End SupabaseStorage.

(** ** src/lib/storage.ts *)

Module Storage.

Definition USER : jsstring := lit "contentgen_user".
Definition USER_PROFILE : jsstring := lit "contentgen_user_profile".
Definition SESSION : jsstring := lit "contentgen_session".
Definition LAST_SYNC : jsstring := lit "contentgen_last_sync".

(** [localStorage]: a finite map from keys to strings.  The quota of the
    browser is not modelled: [setItem] always stores. *)
Abbreviation localStorage := (gmap (list N) (list N)).

Definition getItem (k : jsstring) (ls : localStorage) : option jsstring := ls !! k.
Definition setItem (k v : jsstring) (ls : localStorage) : localStorage := <[k := v]> ls.
Definition removeItem (k : jsstring) (ls : localStorage) : localStorage := delete k ls.

(** [now] is what [Date.now()] returns; [None] is the NaN that [parseInt]
    gives for a text without digits, and every comparison with it fails. *)
Definition isExpired (now : Z) (timestamp : option Z) : bool :=
  let twentyFourHours := (24 * 60 * 60 * 1000)%Z in
  match timestamp with
  | Some t => (now - t >? twentyFourHours)%Z
  | None => false
  end.

(** The stored values are JSON data, and [null] is [JNull]. *)
Definition safeJsonParse (data : option jsstring) (fallback : json) : json :=
  match data with
  | Some (c :: d) =>
    match JSON_parse (c :: d) with
    | Some v => v
    | None => fallback
    end
  | _ => fallback
  end.

Definition safeJsonStringify (data : json) : option jsstring := JSON_stringify data.

(** *** Clear functions *)

Definition clearUser (ls : localStorage) : localStorage :=
  removeItem LAST_SYNC (removeItem USER ls).

Definition clearUserProfile (ls : localStorage) : localStorage :=
  removeItem USER_PROFILE ls.

Definition clearSession (ls : localStorage) : localStorage :=
  removeItem SESSION ls.

Definition clearAll (ls : localStorage) : localStorage :=
  fold_left (fun s key => removeItem key s) [USER; USER_PROFILE; SESSION; LAST_SYNC] ls.

(** *** User *)

Definition saveUser (now : Z) (user : json) (ls : localStorage) : localStorage :=
  if truthy user then
    match safeJsonStringify user with
    | Some (c :: d) => setItem LAST_SYNC (Z_toString now) (setItem USER (c :: d) ls)
    | _ => ls
    end
  else removeItem LAST_SYNC (removeItem USER ls).

Definition getUser (now : Z) (ls : localStorage) : json * localStorage :=
  let userData := getItem USER ls in
  let lastSync := getItem LAST_SYNC ls in
  if falsy_string userData || falsy_string lastSync then (JNull, ls)
  else
    let lastSyncTime := parseInt10 (default [] lastSync) in
    if isExpired now lastSyncTime then (JNull, clearUser ls)
    else (safeJsonParse userData JNull, ls).

(** *** User profile *)

Definition saveUserProfile (profile : json) (ls : localStorage) : localStorage :=
  if truthy profile then
    match safeJsonStringify profile with
    | Some (c :: d) => setItem USER_PROFILE (c :: d) ls
    | _ => ls
    end
  else removeItem USER_PROFILE ls.

Definition getUserProfile (now : Z) (ls : localStorage) : json * localStorage :=
  let profileData := getItem USER_PROFILE ls in
  let lastSync := getItem LAST_SYNC ls in
  if falsy_string profileData || falsy_string lastSync then (JNull, ls)
  else
    let lastSyncTime := parseInt10 (default [] lastSync) in
    if isExpired now lastSyncTime then (JNull, clearUserProfile ls)
    else (safeJsonParse profileData JNull, ls).

(** *** Session *)

Definition saveSession (now : Z) (session : json) (ls : localStorage) : localStorage :=
  match safeJsonStringify session with
  | Some (c :: d) => setItem LAST_SYNC (Z_toString now) (setItem SESSION (c :: d) ls)
  | _ => ls
  end.

Definition getSession (now : Z) (ls : localStorage) : json * localStorage :=
  let sessionData := getItem SESSION ls in
  let lastSync := getItem LAST_SYNC ls in
  if falsy_string sessionData || falsy_string lastSync then (JNull, ls)
  else
    let lastSyncTime := parseInt10 (default [] lastSync) in
    if isExpired now lastSyncTime then (JNull, clearSession ls)
    else (safeJsonParse sessionData JNull, ls).

(** *** Validity of the stored state *)

(** [Date.now()] is read twice, by [getUser] and by the final test. *)
Definition hasValidStoredAuth (now1 now2 : Z) (ls : localStorage)
  : bool * localStorage :=
  let '(user, ls1) := getUser now1 ls in
  let lastSync := getItem LAST_SYNC ls1 in
  if negb (truthy user) || falsy_string lastSync then (false, ls1)
  else
    let lastSyncTime := parseInt10 (default [] lastSync) in
    (negb (isExpired now2 lastSyncTime), ls1).

Definition refreshStoredData (now : Z) (ls : localStorage) : localStorage :=
  setItem LAST_SYNC (Z_toString now) ls.

(** The three readers are one function of the key and of the clear function
    (see [getUser_read] and the two lemmas after it). *)
Definition read_entry (key : jsstring) (clear : localStorage -> localStorage)
    (now : Z) (ls : localStorage) : json * localStorage :=
  let data := getItem key ls in
  let lastSync := getItem LAST_SYNC ls in
  if falsy_string data || falsy_string lastSync then (JNull, ls)
  else
    let lastSyncTime := parseInt10 (default [] lastSync) in
    if isExpired now lastSyncTime then (JNull, clear ls)
    else (safeJsonParse data JNull, ls).

(** *** Complete auth state *)

(** [lastSync] is a [number]; [None] is NaN. *)
Record StoredAuthState : Type := {
  stored_user : json;
  stored_userProfile : json;
  stored_lastSync : option Z
}.



(** The clock is read by [getUser] and then by [getUserProfile]. *)
Definition getAuthState (now1 now2 : Z) (ls : localStorage)
  : StoredAuthState * localStorage :=
  let '(user, ls1) := getUser now1 ls in
  let '(userProfile, ls2) := getUserProfile now2 ls1 in
  let lastSync := getItem LAST_SYNC ls2 in
  ({| stored_user := user;
      stored_userProfile := userProfile;
      stored_lastSync := if falsy_string lastSync then Some 0%Z
                         else parseInt10 (default [] lastSync) |},
   ls2).

End Storage.

(** ** src/contexts/AuthContext.tsx: creation of the profile row *)

Module AuthContext.

Import Storage.

(** What [createUserProfile] reads of the authenticated user:
    [user_metadata?.name], [user_metadata?.bio] and [email]. *)
Record AuthUser : Type := {
  metadata_name : option json;
  metadata_bio : option json;
  email : option jsstring
}.

(** [{ data: { user }, error }] of [supabase.auth.getUser()] *)
Inductive AuthAnswer : Type :=
| AuthError
| NoUser
| Authenticated (authUser : AuthUser).

(** [{ data, error }] of the insert; [code] and [message] are the fields of
    the error. *)
Inductive InsertAnswer : Type :=
| InsertError (code message : jsstring)
| Inserted (data : json).

(** What the hosted services and the clock answer during the invocation
    that runs with a given [retryCount]. *)
Record Attempt : Type := {
  auth_getUser : outcome AuthAnswer;
  users_insert : outcome InsertAnswer;
  created_at : jsstring;
  updated_at : jsstring
}.

(** The React state slot and the browser storage. *)
Record State : Type := {
  userProfile : json;
  storage : localStorage
}.

Inductive Event : Type :=
| Invoked (retryCount : nat)
| InsertSent (row : json)
| TimeoutSet (delay : Z)
| Rejected.

(** [authUser.email?.split('@')[0]]; an absent email gives [undefined], which
    is as falsy as the empty text. *)
Definition email_local_part (authUser : AuthUser) : jsstring :=
  match email authUser with
  | Some e => before_first (ch "@") e
  | None => []
  end.

(** [authUser.user_metadata?.name || authUser.email?.split('@')[0] || 'User'] *)
Definition profile_name (authUser : AuthUser) : json :=
  if truthy_opt (metadata_name authUser) then default JNull (metadata_name authUser)
  else
    match email_local_part authUser with
    | [] => JString (lit "User")
    | c :: r => JString (c :: r)
    end.

(** [authUser.email || ''] *)
Definition profile_email (authUser : AuthUser) : json :=
  JString (default [] (email authUser)).

(** [authUser.user_metadata?.bio || ''] *)
Definition profile_bio (authUser : AuthUser) : json :=
  if truthy_opt (metadata_bio authUser) then default JNull (metadata_bio authUser)
  else JString [].

Definition new_row (userId : jsstring) (authUser : AuthUser) : json :=
  JObject [(lit "id", JString userId);
           (lit "name", profile_name authUser);
           (lit "email", profile_email authUser);
           (lit "profile", JString []);
           (lit "bio", profile_bio authUser)].

Definition tempProfile (userId : jsstring) (authUser : AuthUser)
    (created updated : jsstring) : json :=
  JObject [(lit "id", JString userId);
           (lit "name", profile_name authUser);
           (lit "email", profile_email authUser);
           (lit "profile", JString []);
           (lit "bio", profile_bio authUser);
           (lit "created_at", JString created);
           (lit "updated_at", JString updated)].

(** [setUserProfile(p); saveUserProfile(p)] *)
Definition install (p : json) (st : State) : State :=
  {| userProfile := p; storage := saveUserProfile p (storage st) |}.

Definition is_permission_error (code message : jsstring) : bool :=
  bool_decide (code = lit "42501") || includes (lit "permission") message.

(** One invocation and the invocations it schedules, in the order in which
    they run.  [authUser] is declared inside the [try] block, so the
    [catch] block, which reads it, stops with a ReferenceError before it
    installs anything: the invocation is rejected. *)
Fixpoint createUserProfile_run (fuel : nat) (env : nat -> Attempt)
    (userId : jsstring) (retryCount : nat) (st : State)
  : option (list Event * State) :=
  match fuel with
  | O => None
  | S f =>
    let a := env retryCount in
    match auth_getUser a with
    | Throws _ => Some ([Invoked retryCount; Rejected], st)
    | Returns AuthError => Some ([Invoked retryCount], st)
    | Returns NoUser => Some ([Invoked retryCount], st)
    | Returns (Authenticated authUser) =>
      let row := new_row userId authUser in
      match users_insert a with
      | Throws _ => Some ([Invoked retryCount; InsertSent row; Rejected], st)
      | Returns (InsertError code message) =>
        if is_permission_error code message && (retryCount <? 2)%nat then
          match createUserProfile_run f env userId (retryCount + 1) st with
          | Some (events, st') =>
            Some (Invoked retryCount :: InsertSent row :: TimeoutSet 2000 :: events, st')
          | None => None
          end
        else
          Some ([Invoked retryCount; InsertSent row],
                install (tempProfile userId authUser (created_at a) (updated_at a)) st)
      | Returns (Inserted data) =>
        Some ([Invoked retryCount; InsertSent row], install data st)
      end
    end
  end.

(** Three levels of recursion are all that [retryCount < 2] allows. *)
Definition createUserProfile (env : nat -> Attempt) (userId : jsstring)
    (retryCount : nat) (st : State) : option (list Event * State) :=
  createUserProfile_run 3 env userId retryCount st.


(** *** fetchUserProfile *)

(** [{ data, error }] of the select of one row; [code] is what the code
    reads of the error. *)
Inductive SelectAnswer : Type :=
| SelectError (code : jsstring)
| Selected (data : json).

(** The awaited [createUserProfile] runs inside the [try] block, whose
    [catch] block logs what is thrown. *)
Definition fetchUserProfile (users_select : outcome SelectAnswer)
    (env : nat -> Attempt) (userId : jsstring) (st : State)
  : option (list Event * State) :=
  match users_select with
  | Returns (SelectError code) =>
    if bool_decide (code = lit "PGRST116") then createUserProfile env userId 0 st
    else Some ([], st)
  | Returns (Selected data) => Some ([], install data st)
  | Throws _ => Some ([], st)
  end.

(** *** updateProfile *)








(** *** signOut *)

Definition signOut (auth_signOut : outcome unit) (ls : localStorage)
  : outcome localStorage :=
  _ ← auth_signOut; Returns (clearAll ls).

(** *** The initialisation of the provider *)

(** The state slots of the provider, with the browser storage. *)
Record Provider : Type := {
  user : json;
  cache : State;
  loading : bool;
  error : option jsstring
}.




Definition set_error (message : jsstring) (p : Provider) : Provider :=
  {| user := user p; cache := cache p; loading := loading p; error := Some message |}.






End AuthContext.

(** ** Row-level security of the database set-up script *)

Module Rls.

Inductive Command : Type := SELECT | INSERT | UPDATE | DELETE.

(** A policy of one table: the command it is for, its USING expression and
    its WITH CHECK expression, each a test on the caller's [auth.uid()]
    ([None] for a caller that is not signed in) and a row. *)
Record Policy (Row : Type) : Type := {
  policy_name : string;
  command : Command;
  using_expr : option (option jsstring -> Row -> bool);
  check_expr : option (option jsstring -> Row -> bool)
}.
Arguments policy_name {Row} p.
Arguments command {Row} p.
Arguments using_expr {Row} p.
Arguments check_expr {Row} p.

(** [auth.uid() = column]: a comparison with NULL is not true. *)
Definition uid_is (uid : option jsstring) (column : jsstring) : bool :=
  match uid with
  | Some u => bool_decide (u = column)
  | None => false
  end.

Definition command_eqb (a b : Command) : bool :=
  match a, b with
  | SELECT, SELECT | INSERT, INSERT | UPDATE, UPDATE | DELETE, DELETE => true
  | _, _ => false
  end.

(** *** What PostgreSQL does with the permissive policies of a table on
    which row-level security is enabled, for the roles that are subject to
    it (anon and authenticated): a row passes when one policy of the command
    accepts it, and no row passes when there is none. *)

Section Semantics.
Context {Row : Type}.
Variable policies : list (Policy Row).

Definition for_command (c : Command) : list (Policy Row) :=
    List.filter (fun p => command_eqb (command p) c) policies.

  (** The existing row can be read, changed or removed. *)
Definition passes_using (c : Command) (uid : option jsstring) (r : Row) : bool :=
    existsb (fun p => match using_expr p with
                      | Some test => test uid r
                      | None => true
                      end) (for_command c).

  (** The new row can be written; an UPDATE policy without WITH CHECK
      applies its USING expression to the new row as well. *)
Definition passes_check (c : Command) (uid : option jsstring) (r : Row) : bool :=
    existsb (fun p => match check_expr p, using_expr p with
                      | Some test, _ => test uid r
                      | None, Some test => test uid r
                      | None, None => true
                      end) (for_command c).

Definition can_select (uid : option jsstring) (r : Row) : bool :=
    passes_using SELECT uid r.

Definition can_insert (uid : option jsstring) (r : Row) : bool :=
    passes_check INSERT uid r.

Definition can_update (uid : option jsstring) (old new : Row) : bool :=
    passes_using UPDATE uid old && passes_check UPDATE uid new.

Definition can_delete (uid : option jsstring) (r : Row) : bool :=
    passes_using DELETE uid r.
End Semantics.

(** *** The two tables *)

Record UserRow : Type := {
  id : jsstring;
  name : jsstring;
  profile : jsstring;
  email : jsstring;
  bio : jsstring
}.

Record MagicTrickRow : Type := {
  trick_id : jsstring;
  user_id : jsstring;
  title : jsstring;
  description : jsstring;
  instructions : json;
  difficulty : jsstring;
  overall_rating : Z
}.

Definition users_policies : list (Policy UserRow) :=
  [ {| policy_name := "Public profiles are viewable by everyone.";
       command := SELECT;
       using_expr := Some (fun _ _ => true);
       check_expr := None |};
    {| policy_name := "Users can insert their own profile.";
       command := INSERT;
       using_expr := None;
       check_expr := Some (fun uid r => uid_is uid (id r)) |};
    {| policy_name := "Users can update own profile.";
       command := UPDATE;
       using_expr := Some (fun uid r => uid_is uid (id r));
       check_expr := None |} ].

Definition magic_tricks_policies : list (Policy MagicTrickRow) :=
  [ {| policy_name := "Magic tricks are viewable by everyone.";
       command := SELECT;
       using_expr := Some (fun _ _ => true);
       check_expr := None |};
    {| policy_name := "Users can insert their own magic tricks.";
       command := INSERT;
       using_expr := None;
       check_expr := Some (fun uid r => uid_is uid (user_id r)) |};
    {| policy_name := "Users can update their own magic tricks.";
       command := UPDATE;
       using_expr := Some (fun uid r => uid_is uid (user_id r));
       check_expr := None |};
    {| policy_name := "Users can delete their own magic tricks.";
       command := DELETE;
       using_expr := Some (fun uid r => uid_is uid (user_id r));
       check_expr := None |} ].

(** *** The storage buckets and the policies of [storage.objects] *)

(** A row of [storage.buckets], as the script inserts it. *)
Record Bucket : Type := {
  bucket_name : jsstring;
  public : bool;
  file_size_limit : Z;
  allowed_mime_types : list jsstring
}.

Definition profile_pictures_bucket : Bucket :=
  {| bucket_name := lit "profile_pictures";
     public := true;
     file_size_limit := 5242880;
     allowed_mime_types :=
       [lit "image/jpeg"; lit "image/png"; lit "image/gif"; lit "image/webp"] |}.

Definition user_videos_bucket : Bucket :=
  {| bucket_name := lit "user_videos";
     public := true;
     file_size_limit := 52428800;
     allowed_mime_types :=
       [lit "video/mp4"; lit "video/webm"; lit "video/quicktime"; lit "video/x-msvideo"] |}.

(** What the policies read of a row of [storage.objects]. *)
Record ObjectRow : Type := {
  bucket_id : jsstring;
  object_name : jsstring
}.

(** [storage.foldername(name)]: the segments of the path, without the
    last one. *)
Definition foldername (name : jsstring) : list jsstring :=
  removelast (split (ch "/") name).

(** [bucket_id = bucket AND auth.uid()::text = (storage.foldername(name))[1]];
    the first element of an array without elements is NULL, and the
    comparison with it is not true. *)
Definition in_own_folder (bucket : jsstring) (uid : option jsstring) (r : ObjectRow)
  : bool :=
  bool_decide (bucket_id r = bucket) &&
  match foldername (object_name r) with
  | folder :: _ => uid_is uid folder
  | [] => false
  end.

Definition storage_objects_policies : list (Policy ObjectRow) :=
  [ {| policy_name := "Profile pictures are publicly accessible";
       command := SELECT;
       using_expr := Some (fun _ r => bool_decide (bucket_id r = lit "profile_pictures"));
       check_expr := None |};
    {| policy_name := "Users can upload their own profile pictures";
       command := INSERT;
       using_expr := None;
       check_expr := Some (in_own_folder (lit "profile_pictures")) |};
    {| policy_name := "Users can update their own profile pictures";
       command := UPDATE;
       using_expr := Some (in_own_folder (lit "profile_pictures"));
       check_expr := None |};
    {| policy_name := "Users can delete their own profile pictures";
       command := DELETE;
       using_expr := Some (in_own_folder (lit "profile_pictures"));
       check_expr := None |};
    {| policy_name := "User videos are publicly accessible";
       command := SELECT;
       using_expr := Some (fun _ r => bool_decide (bucket_id r = lit "user_videos"));
       check_expr := None |};
    {| policy_name := "Users can upload their own videos";
       command := INSERT;
       using_expr := None;
       check_expr := Some (in_own_folder (lit "user_videos")) |};
    {| policy_name := "Users can update their own videos";
       command := UPDATE;
       using_expr := Some (in_own_folder (lit "user_videos"));
       check_expr := None |};
    {| policy_name := "Users can delete their own videos";
       command := DELETE;
       using_expr := Some (in_own_folder (lit "user_videos"));
       check_expr := None |} ].

End Rls.

(** ** The sign-in form of AuthPage.tsx *)

Module AuthPage.

(** The state slots of the form that [handleSubmit] reads or writes. *)
Record Form : Type := {
  isLogin : bool;
  email : jsstring;
  password : jsstring;
  name : jsstring;
  bio : jsstring;
  loading : bool;
  error : jsstring
}.

(** The calls into the auth context, with their arguments. *)
Inductive AuthCall : Type :=
| SignIn (email password : jsstring)
| SignUp (email password name bio : jsstring)
| RedirectAfterLogin.

Definition set_error (message : jsstring) (f : Form) : Form :=
  {| isLogin := isLogin f; email := email f; password := password f; name := name f;
     bio := bio f; loading := loading f; error := message |}.

Definition set_loading (b : bool) (f : Form) : Form :=
  {| isLogin := isLogin f; email := email f; password := password f; name := name f;
     bio := bio f; loading := b; error := error f |}.

(** [signIn] and [signUp] resolve to [{ error }]: [None] is null, [Some m]
    an error with the message [m].  The [finally] block runs on every way
    out of the [try] block, the early [return] included. *)
Definition handleSubmit
    (signIn : jsstring -> jsstring -> outcome (option jsstring))
    (signUp : jsstring -> jsstring -> jsstring -> jsstring -> outcome (option jsstring))
    (f : Form) : list AuthCall * Form :=
  let f1 := set_error [] (set_loading true f) in
  let '(calls, f2) :=
    if isLogin f then
      match signIn (email f) (password f) with
      | Returns (Some message) => ([SignIn (email f) (password f)], set_error message f1)
      | Returns None => ([SignIn (email f) (password f); RedirectAfterLogin], f1)
      | Throws _ =>
        ([SignIn (email f) (password f)], set_error (lit "An unexpected error occurred") f1)
      end
    else if falsy_string (Some (trim (name f))) then
      ([], set_error (lit "Name is required") f1)
    else
      let call := SignUp (email f) (password f) (trim (name f)) (trim (bio f)) in
      match signUp (email f) (password f) (trim (name f)) (trim (bio f)) with
      | Returns (Some message) => ([call], set_error message f1)
      | Returns None => ([call], set_error (lit "Check your email for verification link!") f1)
      | Throws _ => ([call], set_error (lit "An unexpected error occurred") f1)
      end in
  (calls, set_loading false f2).

(** [resetForm] and [toggleMode] *)
Definition resetForm (f : Form) : Form :=
  {| isLogin := isLogin f; email := []; password := []; name := []; bio := [];
     loading := loading f; error := [] |}.

Definition toggleMode (f : Form) : Form :=
  let f' := {| isLogin := negb (isLogin f); email := email f; password := password f;
               name := name f; bio := bio f; loading := loading f; error := error f |} in
  resetForm f'.

End AuthPage.

(** ** The initials of Header.tsx *)

Module Header.

(** [toUpperCase] on a code unit of the ASCII range; outside of it the
    mapping is that of the Unicode tables, which are a parameter of
    [getInitials]. *)
Definition ascii_upper (c : N) : N :=
  if (97 <=? c) && (c <=? 122) then c - 32 else c.

(** [name.split(' ').map(word => word.charAt(0)).join('').toUpperCase().slice(0, 2)] *)
Definition getInitials (toUpperCase : jsstring -> jsstring) (name : jsstring) : jsstring :=
  slice0 2 (toUpperCase (join [] (map charAt0 (split (ch " ") name)))).

End Header.

(** ** The uploads and deletions of GalleryPage.tsx *)

Module GalleryPage.

Import SupabaseStorage.

Inductive MediaType : Type := image | video.

(** The text of a media type, as ['image' | 'video'] holds it. *)
Definition type_name (t : MediaType) : jsstring :=
  match t with
  | image => lit "image"
  | video => lit "video"
  end.

Record MediaItem : Type := {
  item_id : jsstring;
  item_url : jsstring;
  item_filename : jsstring;
  item_type : MediaType;
  uploadedAt : jsstring;
  item_size : Z
}.

Inductive UploadStatus : Type := idle | uploading | success_status | error_status.

(** The state slots of the page; [upload_error] is [errors.upload], absent
    when the record of errors has no such key. *)
Record Gallery : Type := {
  mediaItems : list MediaItem;
  isUploading : bool;
  uploadStatus : UploadStatus;
  other_errors : list (jsstring * jsstring);
  upload_error : option jsstring;
  selectedMedia : option MediaItem;
  showUploadModal : bool;
  uploadType : option MediaType
}.

Inductive GalleryEvent : Type :=
| Uploaded (call : UploadCall)
| RemoveSent (call : RemoveCall)
| TimeoutSet (delay : Z).

Definition set_upload_error (message : jsstring) (g : Gallery) : Gallery :=
  {| mediaItems := mediaItems g; isUploading := isUploading g;
     uploadStatus := uploadStatus g; other_errors := other_errors g;
     upload_error := Some message; selectedMedia := selectedMedia g;
     showUploadModal := showUploadModal g; uploadType := uploadType g |}.

Definition set_uploading (b : bool) (status : UploadStatus) (g : Gallery) : Gallery :=
  {| mediaItems := mediaItems g; isUploading := b;
     uploadStatus := status; other_errors := other_errors g;
     upload_error := upload_error g; selectedMedia := selectedMedia g;
     showUploadModal := showUploadModal g; uploadType := uploadType g |}.

(** [v || d] for a text that may be absent. *)
Definition text_or (v : option jsstring) (d : jsstring) : jsstring :=
  if falsy_string v then d else default [] v.

(** [file] is [event.target.files?.[0]] and [userId] the id of the signed-in
    user, absent when nobody is signed in.  [now_upload] is the clock of
    [uploadUserVideo], [now_item] the clock that names the new item and
    [iso] the text of [new Date().toISOString()]. *)
Definition handleFileUpload (supabase : StorageClient) (now_upload now_item : Z)
    (iso : jsstring) (file : option File) (userId : option jsstring) (g : Gallery)
  : list GalleryEvent * Gallery :=
  match file, userId, uploadType g with
  | Some file, Some userId, Some type =>
    let validation :=
      match type with
      | image => validateProfilePicture file
      | video => validateUserVideo file
      end in
    if negb (valid validation) then
      ([], set_upload_error (text_or (verror validation) (lit "Invalid file")) g)
    else
      let g1 := set_uploading true uploading (set_upload_error [] g) in
      let '(calls, result) :=
        uploadUserVideo supabase now_upload file userId (Some (type_name type)) in
      if SupabaseStorage.success result && negb (falsy_string (url result)) then
        let newMediaItem :=
          {| item_id := Z_toString now_item;
             item_url := default [] (url result);
             item_filename := file_name file;
             item_type := type;
             uploadedAt := iso;
             item_size := file_size file |} in
        (map Uploaded calls ++ [TimeoutSet 2000],
         {| mediaItems := newMediaItem :: mediaItems g1;
            isUploading := false;
            uploadStatus := success_status;
            other_errors := other_errors g1;
            upload_error := upload_error g1;
            selectedMedia := selectedMedia g1;
            showUploadModal := false;
            uploadType := None |})
      else
        (map Uploaded calls,
         set_uploading false error_status
           (set_upload_error (text_or (SupabaseStorage.error result) (lit "Upload failed")) g1))
  | _, _, _ => ([], g)
  end.

Definition same_id (a b : MediaItem) : bool := bool_decide (item_id a = item_id b).

(** [remove] is the hosted object store. *)
Definition handleDeleteMedia (remove : RemoveCall -> outcome RemoveAnswer)
    (userId : option jsstring) (mediaItem : MediaItem) (g : Gallery)
  : list GalleryEvent * Gallery :=
  match userId with
  | None => ([], g)
  | Some userId =>
    let '(calls, result) := deleteUserVideo remove userId (item_filename mediaItem) in
    if deleted result then
      (map RemoveSent calls,
       {| mediaItems := List.filter (fun item => negb (same_id item mediaItem)) (mediaItems g);
          isUploading := isUploading g;
          uploadStatus := uploadStatus g;
          other_errors := other_errors g;
          upload_error := upload_error g;
          selectedMedia :=
            match selectedMedia g with
            | Some selected => if same_id selected mediaItem then None else Some selected
            | None => None
            end;
          showUploadModal := showUploadModal g;
          uploadType := uploadType g |})
    else (map RemoveSent calls, g)
  end.

End GalleryPage.

(** * Properties *)

(** Membership of a character in a given text, settled by evaluation. *)
Ltac absent :=
  let H := fresh "H" in
  intros H; vm_compute in H;
  repeat (destruct H as [H | H]; [discriminate H |]); exact H.

(** ** Decimal texts *)

Section Digits.

Lemma digit_of_is_digit c : is_digit c = false -> digit_of c = None.
Proof.
  unfold is_digit, digit_of. intros H.
  repeat match goal with
         | |- context [?a =? ?b] => destruct (N.eqb_spec a b); [subst; discriminate |]
         end.
  reflexivity.
Qed.


Lemma take_digits_stop rest : no_digit_ahead rest -> take_digits rest = (Nil, rest).
Proof.
  destruct rest as [|c r]; simpl; [reflexivity |].
  intros H. now rewrite (digit_of_is_digit _ H).
Qed.

Lemma take_digits_chars d rest :
  no_digit_ahead rest -> take_digits (chars_of_uint d ++ rest) = (d, rest).
Proof.
  intros Hrest. induction d; simpl; rewrite ?IHd; try reflexivity.
  now apply take_digits_stop.
Qed.

Lemma N_to_uint_nonnil n : N.to_uint n <> Nil.
Proof.
  destruct n; simpl; [discriminate |]. apply DecimalPos.Unsigned.to_uint_nonnil.
Qed.

Lemma chars_of_uint_head d :
  d <> Nil -> exists c r, chars_of_uint d = c :: r /\ is_digit c = true.
Proof. destruct d; [congruence | ..]; intros _; simpl; eauto. Qed.

Lemma nonempty_digits_toString n rest :
  no_digit_ahead rest ->
  Json.nonempty_digits (N_toString n ++ rest) = Some (N.to_uint n, rest).
Proof.
  intros H. unfold Json.nonempty_digits, N_toString.
  rewrite take_digits_chars by assumption.
  pose proof (N_to_uint_nonnil n). destruct (N.to_uint n); congruence.
Qed.

Lemma is_digit_not_space c : is_digit c = true -> is_str_whitespace c = false.
Proof.
  unfold is_digit, is_str_whitespace. intros H.
  apply andb_true_iff in H as [H1 H2].
  apply N.leb_le in H1. apply N.leb_le in H2.
  repeat match goal with
         | |- context [?a =? ?b] => destruct (N.eqb_spec a b); [lia |]
         | |- context [?a <=? ?b] => destruct (N.leb_spec a b); [try lia |]
         end; reflexivity.
Qed.

Lemma parseInt10_digits d :
  d <> Nil -> parseInt10 (chars_of_uint d) = Some (Z.of_N (N.of_uint d)).
Proof.
  intros Hd. destruct (chars_of_uint_head d Hd) as (c & r & E & Hc).
  unfold parseInt10, take_sign. rewrite E. simpl trim_start.
  rewrite (is_digit_not_space _ Hc).
  assert ((c =? ch "-") = false /\ (c =? ch "+") = false) as [-> ->].
  { unfold is_digit in Hc. apply andb_true_iff in Hc as [H1 H2].
    apply N.leb_le in H1. apply N.leb_le in H2.
    split; apply N.eqb_neq; vm_compute ch; lia. }
  rewrite <- E, <- (app_nil_r (chars_of_uint d)), take_digits_chars by exact I.
  destruct d; congruence.
Qed.

(** [parseInt] reads back what [toString] printed. *)
Lemma parseInt10_toString z : parseInt10 (Z_toString z) = Some z.
Proof.
  destruct z as [|p|p]; unfold Z_toString, N_toString.
  - reflexivity.
  - rewrite parseInt10_digits by apply N_to_uint_nonnil.
    now rewrite DecimalN.Unsigned.of_to.
  - unfold parseInt10, take_sign. simpl trim_start.
    change (is_str_whitespace (ch "-")) with false. cbv iota.
    rewrite N.eqb_refl.
    rewrite <- (app_nil_r (chars_of_uint _)), take_digits_chars by exact I.
    pose proof (DecimalPos.Unsigned.to_uint_nonnil p) as Hn.
    pose proof (DecimalPos.Unsigned.of_to p) as Hr.
    unfold N.of_uint.
    destruct (Pos.to_uint p); try congruence; now rewrite Hr.
Qed.


End Digits.

(** ** JSON values *)



(** *** String literals *)

Section Strings.

Lemma hex_value_digit n : n < 16 -> hex_value (hex_digit n) = Some n.
Proof.
  intros H. unfold hex_digit, hex_value.
  destruct (N.ltb_spec n 10).
  - replace ((48 <=? 48 + n) && (48 + n <=? 57)) with true.
    + f_equal. lia.
    + symmetry. apply andb_true_iff. split; apply N.leb_le; lia.
  - replace ((48 <=? 87 + n) && (87 + n <=? 57)) with false.
    + replace ((97 <=? 87 + n) && (87 + n <=? 102)) with true.
      * f_equal. lia.
      * symmetry. apply andb_true_iff. split; apply N.leb_le; lia.
    + symmetry. apply andb_false_iff. right. apply N.leb_gt. lia.
Qed.

Lemma parse_unicode_escape c t :
  c < 65536 ->
  parse_chars (unicode_escape c ++ t) =
  match parse_chars t with
  | Some (s, rest) => Some (c :: s, rest)
  | None => None
  end.
Proof.
  intros Hc. unfold unicode_escape.
  cbn [app parse_chars]. change (BACKSLASH =? DQUOTE) with false.
  change (BACKSLASH =? BACKSLASH) with true. change (ch "u" =? ch "u") with true.
  cbv iota. unfold hex4.
  assert (c / 4096 < 16) by (apply N.Div0.div_lt_upper_bound; lia).
  assert ((c / 256) mod 16 < 16) by (apply N.mod_lt; lia).
  assert ((c / 16) mod 16 < 16) by (apply N.mod_lt; lia).
  assert (c mod 16 < 16) by (apply N.mod_lt; lia).
  rewrite !hex_value_digit by assumption.
  replace (((c / 4096 * 16 + (c / 256) mod 16) * 16 + (c / 16) mod 16) * 16 + c mod 16)
    with c; [reflexivity |].
  pose proof (N.div_mod c 16 ltac:(lia)).
  pose proof (N.div_mod (c / 16) 16 ltac:(lia)).
  pose proof (N.div_mod (c / 16 / 16) 16 ltac:(lia)).
  rewrite !N.Div0.div_div in *.
  change (16 * 16) with 256 in *. change (256 * 16) with 4096 in *.
  assert ((c / 4096) mod 16 = c / 4096) by (apply N.mod_small; assumption).
  lia.
Qed.

Lemma parse_raw_char c t :
  c <> DQUOTE -> c <> BACKSLASH -> 32 <= c ->
  parse_chars (c :: t) =
  match parse_chars t with
  | Some (s, rest) => Some (c :: s, rest)
  | None => None
  end.
Proof.
  intros H1 H2 H3. cbn [parse_chars].
  destruct (N.eqb_spec c DQUOTE); [congruence |].
  destruct (N.eqb_spec c BACKSLASH); [congruence |].
  destruct (N.ltb_spec c 32); [lia | reflexivity].
Qed.

Lemma parse_escape_char c t :
  c < 55296 \/ 57343 < c ->
  parse_chars (escape_char c ++ t) =
  match parse_chars t with
  | Some (s, rest) => Some (c :: s, rest)
  | None => None
  end.
Proof.
  intros Hc. unfold escape_char.
  repeat match goal with
         | |- context [if ?a =? ?b then _ else _] =>
           destruct (N.eqb_spec a b); [subst; reflexivity |]
         end.
  destruct (N.ltb_spec c 32).
  - apply parse_unicode_escape. lia.
  - apply parse_raw_char; assumption.
Qed.

Lemma surrogate_bounds c :
  (is_high_surrogate c = true <-> 55296 <= c <= 56319) /\
  (is_low_surrogate c = true <-> 56320 <= c <= 57343).
Proof.
  unfold is_high_surrogate, is_low_surrogate.
  rewrite !andb_true_iff, !N.leb_le. tauto.
Qed.

Lemma parse_quote_chars_bounded n : forall s rest,
  (List.length s <= n)%nat ->
  parse_chars (quote_chars s ++ DQUOTE :: rest) = Some (s, rest).
Proof.
  induction n as [|n IH]; intros s rest Hlen.
  - destruct s; [reflexivity | simpl in Hlen; lia].
  - destruct s as [|c r]; [reflexivity |].
    simpl in Hlen. cbn [quote_chars].
    destruct (is_high_surrogate c) eqn:Hh.
    + apply surrogate_bounds in Hh.
      destruct r as [|d r'].
      * rewrite parse_unicode_escape by lia. reflexivity.
      * destruct (is_low_surrogate d) eqn:Hl.
        -- apply surrogate_bounds in Hl. cbn [app].
           rewrite parse_raw_char by (unfold DQUOTE, BACKSLASH; lia).
           rewrite parse_raw_char by (unfold DQUOTE, BACKSLASH; lia).
           rewrite IH by (simpl in Hlen; lia). reflexivity.
        -- rewrite <- app_assoc, parse_unicode_escape by lia.
           rewrite IH by lia. reflexivity.
    + destruct (is_low_surrogate c) eqn:Hl.
      * apply surrogate_bounds in Hl.
        rewrite <- app_assoc, parse_unicode_escape by lia.
        rewrite IH by lia. reflexivity.
      * rewrite <- app_assoc, parse_escape_char.
        -- rewrite IH by lia. reflexivity.
        -- destruct (surrogate_bounds c) as [S1 S2].
           destruct (N.lt_ge_cases c 55296); [lia |].
           destruct (N.le_gt_cases c 57343); [| lia].
           destruct (N.le_gt_cases c 56319).
           ++ rewrite (proj2 S1) in Hh by lia. discriminate.
           ++ rewrite (proj2 S2) in Hl by lia. discriminate.
Qed.

(** A quoted string reads back as the string. *)
Lemma parse_quote s rest :
  parse_chars (quote_chars s ++ DQUOTE :: rest) = Some (s, rest).
Proof. now apply (parse_quote_chars_bounded (List.length s)). Qed.

End Strings.

(** *** Numbers *)

Section Numbers.

Lemma nzhead_not_D0 u u' : nzhead u <> D0 u'.
Proof. induction u; simpl; try discriminate. assumption. Qed.

Lemma to_uint_head p :
  exists c r, chars_of_uint (Pos.to_uint p) = c :: r /\ is_digit c = true /\ c <> 48.
Proof.
  pose proof (DecimalPos.Unsigned.to_of (Pos.to_uint p)) as Hn.
  rewrite DecimalPos.Unsigned.of_to in Hn. simpl in Hn.
  pose proof (DecimalPos.Unsigned.to_uint_nonzero p) as Hz.
  pose proof (DecimalPos.Unsigned.to_uint_nonnil p) as Hnil.
  destruct (Pos.to_uint p) as [|u|u|u|u|u|u|u|u|u|u] eqn:E;
    try congruence;
    try (simpl; eexists _, _; split; [reflexivity | split; [reflexivity | discriminate]]).
  exfalso. rewrite DecimalFacts.unorm_D0 in Hn. unfold unorm in Hn.
  destruct (nzhead u) eqn:Eu; try discriminate Hn.
  - injection Hn as Hu. subst u. now apply Hz.
  - now apply (nzhead_not_D0 u u0).
Qed.


Lemma ends_number_no_digit rest : ends_number rest -> no_digit_ahead rest.
Proof. destruct rest; simpl; tauto. Qed.

Lemma parse_int_part_toString n rest :
  no_digit_ahead rest ->
  parse_int_part (N_toString n ++ rest) = Some (N.to_uint n, rest).
Proof.
  intros Hrest. destruct n as [|p].
  - reflexivity.
  - unfold N_toString. simpl N.to_uint.
    destruct (to_uint_head p) as (c & r & E & Hc & Hz).
    unfold parse_int_part. rewrite E. cbn [app].
    destruct (N.eqb_spec c 48); [congruence |].
    change (c :: r ++ rest) with ((c :: r) ++ rest). rewrite <- E.
    apply (nonempty_digits_toString (Npos p)). assumption.
Qed.

Lemma parse_frac_none rest :
  match rest with [] => True | c :: _ => c <> ch "." end ->
  parse_frac rest = Some (Nil, rest).
Proof.
  destruct rest as [|c r]; [reflexivity |]. intros H. unfold parse_frac.
  destruct (N.eqb_spec c (ch ".")); [congruence | reflexivity].
Qed.

Lemma parse_exp_none rest : ends_number rest -> parse_exp rest = Some (0%Z, rest).
Proof.
  destruct rest as [|c r]; [reflexivity |]. intros (_ & _ & He & HE).
  unfold parse_exp.
  destruct (N.eqb_spec c (ch "e")); [congruence |].
  destruct (N.eqb_spec c (ch "E")); [congruence | reflexivity].
Qed.

Lemma digit_not_sign c :
  is_digit c = true -> (c =? ch "-") = false /\ (c =? ch "+") = false.
Proof.
  unfold is_digit. intros Hc. apply andb_true_iff in Hc as [H1 H2].
  apply N.leb_le in H1. apply N.leb_le in H2.
  split; apply N.eqb_neq; vm_compute ch; lia.
Qed.

Lemma parse_exp_unsigned n rest :
  no_digit_ahead rest ->
  parse_exp (ch "e" :: N_toString n ++ rest) = Some (Z.of_N n, rest).
Proof.
  intros Hrest. unfold parse_exp, take_sign. rewrite N.eqb_refl. cbn [orb].
  destruct (chars_of_uint_head _ (N_to_uint_nonnil n)) as (c & r & E & Hc).
  fold (N_toString n) in E. rewrite E. cbn [app].
  destruct (digit_not_sign c Hc) as [-> ->].
  change (c :: r ++ rest) with ((c :: r) ++ rest). rewrite <- E.
  rewrite nonempty_digits_toString by assumption.
  now rewrite DecimalN.Unsigned.of_to.
Qed.

Lemma parse_exp_toString e rest :
  no_digit_ahead rest ->
  parse_exp (ch "e" :: Z_toString e ++ rest) = Some (e, rest).
Proof.
  intros Hrest. destruct e as [|p|p]; unfold Z_toString.
  - now apply (parse_exp_unsigned 0).
  - now apply (parse_exp_unsigned (Npos p)).
  - unfold parse_exp, take_sign. rewrite N.eqb_refl. cbn [orb app]. rewrite N.eqb_refl.
    rewrite nonempty_digits_toString by assumption.
    now rewrite DecimalN.Unsigned.of_to.
Qed.

Lemma normalise_canonical m e :
  canonical_number m e = true -> normalise m e = (m, e).
Proof.
  unfold canonical_number, normalise.
  destruct (Z.eqb_spec m 0).
  - intros H. apply Z.eqb_eq in H. now subst.
  - intros H. apply negb_true_iff in H.
    destruct (Z.to_nat _); simpl; [reflexivity |]. now rewrite H.
Qed.

Lemma parse_number_digits (neg : bool) n e rest :
  ends_number rest ->
  let m := (if neg then - Z.of_N n else Z.of_N n)%Z in
  canonical_number m e = true ->
  parse_number ((if neg then [ch "-"] else []) ++ N_toString n
                ++ (if (e =? 0)%Z then [] else ch "e" :: Z_toString e) ++ rest)
  = Some (JNumber m e, rest).
Proof.
  intros Hrest m Hc.
  set (tail := (if (e =? 0)%Z then [] else ch "e" :: Z_toString e) ++ rest).
  assert (Htail : no_digit_ahead tail /\
                  match tail with [] => True | c :: _ => c <> ch "." end).
  { unfold tail. destruct (e =? 0)%Z.
    - simpl. split; [now apply ends_number_no_digit |].
      destruct rest; simpl in *; tauto.
    - simpl. split; [reflexivity | discriminate]. }
  assert (Hexp : parse_exp tail = Some (e, rest)).
  { unfold tail. destruct (Z.eqb_spec e 0) as [-> |].
    - now apply parse_exp_none.
    - apply parse_exp_toString. now apply ends_number_no_digit. }
  assert (Hhead : match N_toString n ++ tail with
                  | c :: _ => (c =? ch "-") = false
                  | [] => True
                  end).
  { unfold N_toString.
    destruct (chars_of_uint_head _ (N_to_uint_nonnil n)) as (c & r & E & Hd).
    rewrite E. cbn [app]. unfold is_digit in Hd.
    apply andb_true_iff in Hd as [H1 H2].
    apply N.leb_le in H1. apply N.leb_le in H2.
    apply N.eqb_neq; vm_compute ch; lia. }
  assert (Hsplit :
    take_minus ((if neg then [ch "-"] else []) ++ N_toString n ++ tail)
    = (neg, N_toString n ++ tail)).
  { unfold take_minus. destruct neg; cbn [app].
    - now rewrite N.eqb_refl.
    - destruct (N_toString n ++ tail); [reflexivity | now rewrite Hhead]. }
  unfold parse_number. rewrite Hsplit.
  rewrite parse_int_part_toString by apply Htail.
  rewrite parse_frac_none by apply Htail.
  rewrite Hexp.
  rewrite DecimalFacts.app_nil_r, DecimalN.Unsigned.of_to.
  cbn [nb_digits]. rewrite Z.sub_0_r.
  fold m. now rewrite normalise_canonical.
Qed.

(** A printed number reads back as the number. *)
Lemma parse_number_print m e rest :
  canonical_number m e = true -> ends_number rest ->
  parse_number (print_number m e ++ rest) = Some (JNumber m e, rest).
Proof.
  intros Hc Hrest. unfold print_number. rewrite <- app_assoc.
  destruct m as [|p|p]; unfold Z_toString.
  - now apply (parse_number_digits false 0 e rest).
  - now apply (parse_number_digits false (Npos p) e rest).
  - now apply (parse_number_digits true (Npos p) e rest).
Qed.

End Numbers.

(** *** The recursion budget of the value parser *)

Section Budget.

Lemma skip_ws_length s : (List.length (skip_ws s) <= List.length s)%nat.
Proof.
  induction s as [|c r IH]; simpl; [lia |].
  destruct (is_ws c); simpl; lia.
Qed.

Lemma strip_prefix_length p : forall s r,
  strip_prefix p s = Some r -> (List.length r <= List.length s)%nat.
Proof.
  induction p as [|a p IH]; intros [|b s] r H; simpl in *;
    try discriminate; try (injection H as <-; simpl; lia).
  destruct (a =? b); [| discriminate]. apply IH in H. lia.
Qed.

Lemma parse_chars_length_bounded n : forall s t r,
  (List.length s <= n)%nat ->
  parse_chars s = Some (t, r) -> (List.length r < List.length s)%nat.
Proof.
  induction n as [|n IH]; intros s t r Hn H.
  - destruct s; [discriminate | simpl in Hn; lia].
  - destruct s as [|c s]; [discriminate |]. cbn [parse_chars] in H.
    simpl in Hn.
    repeat match type of H with
           | context [match ?x with _ => _ end] =>
             lazymatch x with
             | parse_chars ?y =>
               let E := fresh "E" in
               destruct x as [[? ?]|] eqn:E; [apply IH in E; [| simpl in *; lia] |]
             | _ => destruct x eqn:?
             end; try discriminate
           end;
      injection H as <- <-; simpl in *; lia.
Qed.

Lemma parse_chars_length s t r :
  parse_chars s = Some (t, r) -> (List.length r < List.length s)%nat.
Proof. now apply (parse_chars_length_bounded (List.length s)). Qed.

Lemma take_digits_length s : forall d r,
  take_digits s = (d, r) -> (List.length r <= List.length s)%nat.
Proof.
  induction s as [|c s IH]; intros d r H; simpl in H.
  - injection H as <- <-. simpl. lia.
  - destruct (digit_of c).
    + destruct (take_digits s) as [d' r'] eqn:E. injection H as <- <-.
      specialize (IH _ _ eq_refl). simpl. lia.
    + injection H as <- <-. lia.
Qed.

Lemma nonempty_digits_length s d r :
  nonempty_digits s = Some (d, r) -> (List.length r <= List.length s)%nat.
Proof.
  unfold nonempty_digits. destruct (take_digits s) as [d' r'] eqn:E.
  apply take_digits_length in E.
  destruct d'; intros H; try discriminate; injection H as <- <-; lia.
Qed.

Lemma take_minus_length s b r :
  take_minus s = (b, r) -> (List.length r <= List.length s)%nat.
Proof.
  unfold take_minus. destruct s as [|c s]; [| destruct (c =? ch "-")];
    intros H; injection H as <- <-; simpl; lia.
Qed.

Lemma parse_int_part_length s d r :
  parse_int_part s = Some (d, r) -> (List.length r <= List.length s)%nat.
Proof.
  unfold parse_int_part. destruct s as [|c s]; [discriminate |].
  destruct (c =? 48).
  - intros H. injection H as <- <-. simpl. lia.
  - apply nonempty_digits_length.
Qed.

Lemma parse_frac_length s d r :
  parse_frac s = Some (d, r) -> (List.length r <= List.length s)%nat.
Proof.
  unfold parse_frac. destruct s as [|c s].
  - intros H. injection H as <- <-. lia.
  - destruct (c =? ch ".").
    + intros H. apply nonempty_digits_length in H. simpl. lia.
    + intros H. injection H as <- <-. lia.
Qed.

Lemma parse_exp_length s x r :
  parse_exp s = Some (x, r) -> (List.length r <= List.length s)%nat.
Proof.
  unfold parse_exp. destruct s as [|c s].
  - intros H. injection H as <- <-. lia.
  - destruct ((c =? ch "e") || (c =? ch "E")).
    + destruct (take_sign s) as [b r'] eqn:E.
      assert (Hs : (List.length r' <= List.length s)%nat).
      { unfold take_sign in E.
        destruct s as [|y s']; [| destruct (y =? ch "-"); [| destruct (y =? ch "+")]];
          injection E as <- <-; simpl; lia. }
      destruct (nonempty_digits r') as [[d rest]|] eqn:Ed; [| discriminate].
      apply nonempty_digits_length in Ed.
      intros H'. injection H' as <- <-. simpl. lia.
    + intros H. injection H as <- <-. lia.
Qed.

Lemma parse_number_length s v r :
  parse_number s = Some (v, r) -> (List.length r <= List.length s)%nat.
Proof.
  unfold parse_number.
  destruct (take_minus s) as [neg s1] eqn:E1. apply take_minus_length in E1.
  destruct (parse_int_part s1) as [[di s2]|] eqn:E2; [| discriminate].
  apply parse_int_part_length in E2.
  destruct (parse_frac s2) as [[df s3]|] eqn:E3; [| discriminate].
  apply parse_frac_length in E3.
  destruct (parse_exp s3) as [[x s4]|] eqn:E4; [| discriminate].
  apply parse_exp_length in E4.
  destruct (normalise _ _). intros H. injection H as <- <-. lia.
Qed.

(** Case analysis on the matches of a hypothesis, outermost test first. *)
Ltac split_match H :=
  match type of H with
  | context [match ?x with _ => _ end] =>
    lazymatch x with
    | context [match _ with _ => _ end] => fail
    | _ => destruct x eqn:?
    end
  end.

Ltac length_facts :=
  repeat match goal with
         | H : skip_ws ?a = _ |- _ =>
           let L := fresh "L" in
           pose proof (skip_ws_length a) as L; rewrite H in L; clear H
         | H : parse_chars _ = Some _ |- _ => apply parse_chars_length in H
         | H : strip_prefix _ _ = Some _ |- _ => apply strip_prefix_length in H
         | H : parse_number _ = Some _ |- _ => apply parse_number_length in H
         end;
  repeat match goal with
         | H : context [List.length (skip_ws ?a)] |- _ =>
           lazymatch goal with
           | K : (List.length (skip_ws a) <= List.length a)%nat |- _ => fail
           | _ => pose proof (skip_ws_length a)
           end
         end.

Lemma parse_lengths f :
  (forall s v r, parse_value f s = Ok v r -> (List.length r <= List.length s)%nat) /\
  (forall s vs r, parse_elements f s = Ok vs r -> (List.length r <= List.length s)%nat) /\
  (forall s kvs r, parse_members f s = Ok kvs r -> (List.length r <= List.length s)%nat).
Proof.
  induction f as [|f (IHv & IHe & IHm)]; [repeat split; intros; discriminate |].
  repeat split; intros s ? r H;
    cbn [parse_value parse_elements parse_members] in H; unfold of_option in H;
    repeat (split_match H; try discriminate);
    injection H as <- <-;
    repeat match goal with
           | E : parse_value f _ = Ok _ _ |- _ => apply IHv in E
           | E : parse_elements f _ = Ok _ _ |- _ => apply IHe in E
           | E : parse_members f _ = Ok _ _ |- _ => apply IHm in E
           end;
    length_facts; subst; cbn [List.length] in *; lia.
Qed.

(** With two units of budget for each character, none of the three
    parsers runs out. *)
Lemma parse_budget f :
  (forall s, (2 * List.length s + 1 <= f)%nat -> parse_value f s <> Fuel) /\
  (forall s, (2 * List.length s + 2 <= f)%nat -> parse_elements f s <> Fuel) /\
  (forall s, (2 * List.length s + 2 <= f)%nat -> parse_members f s <> Fuel).
Proof.
  induction f as [|f (IHv & IHe & IHm)]; [repeat split; intros; lia |].
  repeat split; intros s Hf H;
    cbn [parse_value parse_elements parse_members] in H; unfold of_option in H;
    repeat (split_match H; try discriminate);
    repeat match goal with
           | E : parse_value f _ = Ok _ _ |- _ => apply (proj1 (parse_lengths f)) in E
           | E : parse_value f ?a = Fuel |- _ => apply IHv in E; [assumption |]
           | E : parse_elements f ?a = Fuel |- _ => apply IHe in E; [assumption |]
           | E : parse_members f ?a = Fuel |- _ => apply IHm in E; [assumption |]
           end;
    length_facts; subst; cbn [List.length] in *;
    try match goal with |- context [skip_ws ?a] => pose proof (skip_ws_length a) end;
    lia.
Qed.

Lemma parse_value_fuel s f :
  (2 * List.length s + 1 <= f)%nat -> parse_value f s <> Fuel.
Proof. apply parse_budget. Qed.

(** An answer that is not a lack of budget stays the same with more. *)
Lemma parse_more_fuel f :
  (forall s f', (f <= f')%nat -> parse_value f s <> Fuel ->
                parse_value f' s = parse_value f s) /\
  (forall s f', (f <= f')%nat -> parse_elements f s <> Fuel ->
                parse_elements f' s = parse_elements f s) /\
  (forall s f', (f <= f')%nat -> parse_members f s <> Fuel ->
                parse_members f' s = parse_members f s).
Proof.
  induction f as [|f (IHv & IHe & IHm)];
    [repeat split; intros s f' _ H; now destruct H |].
  repeat split; intros s [|f'] Hle H; try lia;
    assert (Hle' : (f <= f')%nat) by lia;
    cbn [parse_value parse_elements parse_members] in *;
    repeat match goal with
           | |- context [parse_value f ?a] =>
             let E := fresh "E" in
             destruct (parse_value f a) eqn:E;
               [| | congruence];
               rewrite (IHv a f' Hle') by (rewrite E; discriminate); rewrite E
           | |- context [parse_elements f ?a] =>
             let E := fresh "E" in
             destruct (parse_elements f a) eqn:E;
               [| | congruence];
               rewrite (IHe a f' Hle') by (rewrite E; discriminate); rewrite E
           | |- context [parse_members f ?a] =>
             let E := fresh "E" in
             destruct (parse_members f a) eqn:E;
               [| | congruence];
               rewrite (IHm a f' Hle') by (rewrite E; discriminate); rewrite E
           | |- context [match ?x with _ => _ end] =>
             lazymatch x with
             | context [match _ with _ => _ end] => fail
             | context [parse_value] => fail
             | context [parse_elements] => fail
             | context [parse_members] => fail
             | _ => destruct x eqn:?
             end
           end; try reflexivity; try congruence.
Qed.

End Budget.

(** *** [JSON.parse] reads back what [JSON.stringify] printed *)

Section RoundTrip.


Lemma closes_ends_number rest : closes rest -> ends_number rest.
Proof.
  destruct rest as [|c r]; simpl; [tauto |].
  intros [-> | [-> | ->]]; repeat split; discriminate.
Qed.

Lemma skip_ws_head c r : is_ws c = false -> skip_ws (c :: r) = c :: r.
Proof. intros H. simpl. now rewrite H. Qed.

Lemma Z_toString_head z :
  exists c r, Z_toString z = c :: r /\ (is_digit c = true \/ c = ch "-").
Proof.
  destruct z as [|p|p]; unfold Z_toString; try (eexists _, _; split; [reflexivity | tauto]);
    match goal with
    | |- context [N_toString ?n] =>
      destruct (chars_of_uint_head _ (N_to_uint_nonnil n)) as (c & r & E & Hc);
        exists c, r; split; [exact E | tauto]
    end.
Qed.


Lemma print_value_head v : exists c r, print_value v = c :: r /\ opens_value c.
Proof.
  destruct v as [|[|]|m e|s|vs|o]; cbn [print_value];
    try (eexists _, _; split; [reflexivity | repeat split; discriminate]).
  unfold print_number.
  destruct (Z_toString_head m) as (c & r & -> & Hc).
  eexists _, _. split; [reflexivity |].
  destruct Hc as [Hc | ->]; [| repeat split; discriminate].
  unfold is_digit in Hc. apply andb_true_iff in Hc as [H1 H2].
  apply N.leb_le in H1. apply N.leb_le in H2.
  unfold opens_value, is_ws.
  repeat split; try (vm_compute ch; lia).
  repeat match goal with
         | |- context [?a =? ?b] => destruct (N.eqb_spec a b); [lia |]
         end.
  reflexivity.
Qed.


Lemma set_prop_fresh k v o :
  existsb (fun k' => bool_decide (k = k')) (map fst o) = false ->
  set_prop k v o = o ++ [(k, v)].
Proof.
  induction o as [|[k0 v0] o IH]; simpl; [reflexivity |].
  intros H. apply orb_false_iff in H as [H1 H2].
  rewrite H1. now rewrite IH.
Qed.

Lemma make_object_distinct_from acc o :
  distinct (map fst (acc ++ o)) = true ->
  fold_left (fun o kv => set_prop (fst kv) (snd kv) o) o acc = acc ++ o.
Proof.
  revert acc. induction o as [|[k v] o IH]; intros acc H; simpl.
  - now rewrite app_nil_r.
  - rewrite set_prop_fresh.
    + rewrite IH; rewrite <- app_assoc; [reflexivity | assumption].
    + clear IH. induction acc as [|[k0 v0] acc IHa]; [reflexivity |].
      simpl in H |- *. apply andb_true_iff in H as [H1 H2].
      rewrite (IHa H2), orb_false_r.
      apply negb_true_iff in H1. rewrite map_app, existsb_app in H1.
      apply orb_false_iff in H1 as [_ H1]. simpl in H1.
      apply orb_false_iff in H1 as [H1 _].
      apply bool_decide_eq_false in H1. now apply bool_decide_eq_false_2.
Qed.

Lemma make_object_distinct o :
  distinct (map fst o) = true -> make_object o = o.
Proof. apply (make_object_distinct_from []). Qed.

Lemma skip_ws_print v tail :
  skip_ws (print_value v ++ tail) = print_value v ++ tail.
Proof.
  destruct (print_value_head v) as (c & r & -> & Hc & _).
  now apply skip_ws_head.
Qed.

Lemma join_elements_cons t ts close rest :
  join_elements (t :: ts) close ++ rest =
  t ++ match ts with
       | [] => close :: rest
       | _ :: _ => ch "," :: join_elements ts close ++ rest
       end.
Proof. destruct ts; simpl; rewrite <- app_assoc; reflexivity. Qed.


Lemma member_text_app k v tail :
  member_text (k, v) ++ tail =
  DQUOTE :: quote_chars k ++ DQUOTE :: ch ":" :: print_value v ++ tail.
Proof.
  unfold member_text, quote. simpl. now rewrite <- !app_assoc.
Qed.


Lemma elements_read_back vs :
  vs <> [] -> Forall reads_back vs ->
  forall rest, exists f0, forall f, (f0 <= f)%nat ->
    parse_elements f (join_elements (map print_value vs) (ch "]") ++ rest) = Ok vs rest.
Proof.
  induction vs as [|v vs IH]; [congruence |]. intros _ Hall rest.
  apply Forall_cons in Hall as [Hv Hvs].
  cbn [map]. rewrite join_elements_cons.
  destruct vs as [|v' vs'].
  - destruct (Hv (ch "]" :: rest)) as [f0 Hf]; [simpl; tauto |].
    exists (S f0). intros [|f] Hle; [lia |].
    cbn [parse_elements map]. rewrite skip_ws_print, Hf by lia.
    reflexivity.
  - destruct (IH ltac:(discriminate) Hvs rest) as [f1 Hf1].
    destruct (Hv (ch "," :: join_elements (map print_value (v' :: vs')) (ch "]") ++ rest))
      as [f0 Hf0]; [simpl; tauto |].
    exists (S (Nat.max f0 f1)). intros [|f] Hle; [lia |].
    cbn [parse_elements]. cbn [map] in *.
    rewrite skip_ws_print, Hf0 by lia.
    rewrite skip_ws_head by reflexivity. rewrite N.eqb_refl.
    now rewrite Hf1 by lia.
Qed.

Lemma members_read_back o :
  o <> [] -> Forall (fun kv => reads_back (snd kv)) o ->
  forall rest, exists f0, forall f, (f0 <= f)%nat ->
    parse_members f (join_elements (map member_text o) (ch "}") ++ rest) = Ok o rest.
Proof.
  induction o as [|[k v] o IH]; [congruence |]. intros _ Hall rest.
  apply Forall_cons in Hall as [Hv Ho]. simpl in Hv.
  cbn [map]. rewrite join_elements_cons, member_text_app.
  destruct o as [|kv' o'].
  - destruct (Hv (ch "}" :: rest)) as [f0 Hf]; [simpl; tauto |].
    exists (S f0). intros [|f] Hle; [lia |].
    cbn [parse_members]. rewrite skip_ws_head by reflexivity.
    rewrite N.eqb_refl, parse_quote.
    rewrite skip_ws_head by reflexivity. rewrite N.eqb_refl.
    rewrite skip_ws_print, Hf by lia.
    reflexivity.
  - destruct (IH ltac:(discriminate) Ho rest) as [f1 Hf1].
    destruct (Hv (ch "," :: join_elements (map member_text (kv' :: o')) (ch "}") ++ rest))
      as [f0 Hf0]; [simpl; tauto |].
    exists (S (Nat.max f0 f1)). intros [|f] Hle; [lia |].
    cbn [parse_members]. rewrite skip_ws_head by reflexivity.
    rewrite N.eqb_refl, parse_quote.
    rewrite skip_ws_head by reflexivity. rewrite N.eqb_refl.
    rewrite skip_ws_print, Hf0 by lia.
    rewrite skip_ws_head by reflexivity. rewrite N.eqb_refl.
    now rewrite Hf1 by lia.
Qed.

Lemma wf_json_reads_back v : wf_json v = true -> reads_back v.
Proof.
  induction v as [|b|m e|s|vs IH|o IH] using json_ind; intros Hwf rest Hrest.
  - exists 1%nat. intros [|f] Hle; [lia | reflexivity].
  - exists 1%nat. intros [|f] Hle; [lia | destruct b; reflexivity].
  - exists 1%nat. intros [|f] Hle; [lia |].
    cbn [parse_value print_value].
    pose proof (parse_number_print m e rest Hwf (closes_ends_number _ Hrest)) as Hn.
    unfold print_number in *.
    destruct (Z_toString_head m) as (c & r & E & Hc). rewrite E in *.
    cbn [app] in *. rewrite Hn.
    assert (Hcs : c = 45 \/ (48 <= c <= 57)).
    { destruct Hc as [Hc | ->]; [right | now left].
      unfold is_digit in Hc. apply andb_true_iff in Hc as [H1 H2].
      apply N.leb_le in H1. apply N.leb_le in H2. lia. }
    repeat match goal with
           | |- context [c =? ?b] =>
             let e := fresh "e" in
             destruct (N.eqb_spec c b) as [e|]; [exfalso; vm_compute in e; lia |]
           end.
    reflexivity.
  - exists 1%nat. intros [|f] Hle; [lia |].
    cbn [parse_value print_value]. unfold quote. cbn [app].
    change (DQUOTE =? ch "{") with false. change (DQUOTE =? ch "[") with false.
    rewrite N.eqb_refl. cbv iota.
    rewrite <- app_assoc. cbn [app]. now rewrite parse_quote.
  - cbn [wf_json] in Hwf. cbn [print_value].
    destruct vs as [|v vs'].
    + exists 1%nat. intros [|f] Hle; [lia | reflexivity].
    + assert (Hall : Forall reads_back (v :: vs')).
      { rewrite forallb_forall in Hwf. rewrite List.Forall_forall in IH.
        apply List.Forall_forall. intros x Hx. apply IH; auto. }
      destruct (elements_read_back (v :: vs') ltac:(discriminate) Hall rest) as [f0 Hf].
      exists (S f0). intros [|f] Hle; [lia |].
      cbn [parse_value app]. change (ch "[" =? ch "{") with false.
      rewrite N.eqb_refl. cbv iota.
      rewrite Hf by lia.
      cbn [map]. rewrite join_elements_cons.
      destruct (print_value_head v) as (c & r & E & _ & Hc & _).
      rewrite skip_ws_print, E. cbn [app].
      destruct (N.eqb_spec c (ch "]")); [congruence | reflexivity].
  - cbn [wf_json] in Hwf. apply andb_true_iff in Hwf as [Hkeys Hwf].
    cbn [print_value]. fold member_text.
    change (map (fun kv => quote (fst kv) ++ ch ":" :: print_value (snd kv)) o)
      with (map member_text o).
    destruct o as [|[k v] o'].
    + exists 1%nat. intros [|f] Hle; [lia | reflexivity].
    + assert (Hall : Forall (fun kv => reads_back (snd kv)) ((k, v) :: o')).
      { rewrite forallb_forall in Hwf. rewrite List.Forall_forall in IH.
        apply List.Forall_forall. intros x Hx. apply IH; auto. }
      destruct (members_read_back ((k, v) :: o') ltac:(discriminate) Hall rest) as [f0 Hf].
      exists (S f0). intros [|f] Hle; [lia |].
      cbn [parse_value app]. rewrite N.eqb_refl. cbv iota.
      rewrite Hf by lia. rewrite make_object_distinct by assumption.
      cbn [map]. rewrite join_elements_cons, member_text_app.
      rewrite skip_ws_head by reflexivity. reflexivity.
Qed.

(** [JSON.parse(JSON.stringify(v))] is [v]. *)
Lemma JSON_parse_stringify v :
  wf_json v = true -> JSON_parse (print_value v) = Some v.
Proof.
  intros Hwf. destruct (wf_json_reads_back v Hwf [] I) as [f0 Hf].
  rewrite app_nil_r in Hf.
  pose proof (skip_ws_print v []) as Hws. rewrite app_nil_r in Hws.
  unfold JSON_parse. rewrite Hws.
  set (budget := (2 * List.length (print_value v) + 2)%nat).
  assert (Hb : parse_value budget (print_value v) <> Fuel)
    by (apply parse_value_fuel; lia).
  rewrite <- (proj1 (parse_more_fuel budget) _ (Nat.max f0 budget)) by (assumption || lia).
  rewrite Hf by lia. reflexivity.
Qed.

Lemma JSON_parse_budget text :
  parse_value (2 * List.length text + 2) (skip_ws text) <> Fuel.
Proof.
  apply parse_value_fuel. pose proof (skip_ws_length text). lia.
Qed.

(** A text that starts with an opening brace denotes an object or nothing. *)
Lemma JSON_parse_object r v :
  JSON_parse (ch "{" :: r) = Some v -> exists o, v = JObject o.
Proof.
  unfold JSON_parse. rewrite skip_ws_head by reflexivity.
  cbn [parse_value Nat.add Nat.mul List.length]. rewrite N.eqb_refl.
  destruct (skip_ws r) as [|c' r']; [discriminate |].
  destruct (c' =? ch "}").
  - destruct (skip_ws r'); [| discriminate]. intros H. injection H as <-. eauto.
  - destruct (parse_members _ r) as [kvs rest| |]; try discriminate.
    destruct (skip_ws rest); [| discriminate]. intros H. injection H as <-. eauto.
Qed.

End RoundTrip.

(** *** What [JSON.parse] returns is well formed *)

Section ParserOutput.

Lemma strip_zeros_canonical fuel : forall m e,
  m <> 0%Z -> (Z.abs m < 2 ^ (Z.of_nat fuel + 1))%Z ->
  canonical_number (fst (strip_zeros fuel m e)) (snd (strip_zeros fuel m e)) = true.
Proof.
  assert (Hkeep : forall m e, m <> 0%Z -> (m mod 10 =? 0)%Z = false ->
                              canonical_number m e = true).
  { intros m e Hm Hd. unfold canonical_number.
    destruct (Z.eqb_spec m 0); [contradiction | now rewrite Hd]. }
  induction fuel as [|fuel IH]; intros m e Hm Hb; cbn [strip_zeros].
  - cbn [fst snd]. apply Hkeep; [assumption |].
    change (2 ^ (Z.of_nat 0 + 1))%Z with 2%Z in Hb.
    assert (m = 1 \/ m = -1)%Z as [-> | ->] by lia; reflexivity.
  - destruct (Z.eqb_spec (m mod 10) 0) as [Hd | Hd].
    + pose proof (Z.div_mod m 10 ltac:(lia)) as Hdm.
      apply IH; [lia |].
      replace (Z.of_nat (S fuel) + 1)%Z with (Z.succ (Z.of_nat fuel + 1)) in Hb by lia.
      rewrite Z.pow_succ_r in Hb by lia. lia.
    + cbn [fst snd]. apply Hkeep; [assumption |]. now apply Z.eqb_neq.
Qed.

Lemma normalise_canonical_result m e :
  canonical_number (fst (normalise m e)) (snd (normalise m e)) = true.
Proof.
  unfold normalise. destruct (Z.eqb_spec m 0) as [-> | Hm]; [reflexivity |].
  apply strip_zeros_canonical; [assumption |].
  rewrite Z2Nat.id by apply Z.log2_nonneg.
  apply Z.log2_spec. lia.
Qed.

Lemma parse_number_wf s v r : parse_number s = Some (v, r) -> wf_json v = true.
Proof.
  unfold parse_number.
  destruct (take_minus s) as [neg s1].
  destruct (parse_int_part s1) as [[di s2]|]; [| discriminate].
  destruct (parse_frac s2) as [[df s3]|]; [| discriminate].
  destruct (parse_exp s3) as [[x s4]|]; [| discriminate].
  match goal with
  | |- context [normalise ?m ?e] =>
    pose proof (normalise_canonical_result m e) as Hc; destruct (normalise m e)
  end.
  intros H. injection H as <- <-. exact Hc.
Qed.

Lemma distinct_NoDup keys : distinct keys = true <-> List.NoDup keys.
Proof.
  induction keys as [|k r IH]; cbn [distinct].
  - split; [constructor | reflexivity].
  - rewrite andb_true_iff, negb_true_iff, IH. split.
    + intros [Hk Hr]. constructor; [| assumption].
      intros Hin. apply not_true_iff_false in Hk. apply Hk.
      apply existsb_exists. exists k. split; [assumption | now apply bool_decide_eq_true].
    + intros H. inversion H as [|? ? Hk Hr]; subst. split; [| assumption].
      apply not_true_iff_false. intros He. apply Hk.
      apply existsb_exists in He as (k' & Hin & E).
      apply bool_decide_eq_true in E. now subst.
Qed.

Lemma set_prop_keys k v o k' :
  In k' (map fst (set_prop k v o)) <-> k' = k \/ In k' (map fst o).
Proof.
  induction o as [|[k0 v0] o IH]; cbn [set_prop map fst In].
  - intuition.
  - destruct (bool_decide_reflect (k = k0)) as [-> | Hne]; cbn [map fst In].
    + intuition.
    + rewrite IH. intuition.
Qed.

Lemma set_prop_NoDup k v o :
  List.NoDup (map fst o) -> List.NoDup (map fst (set_prop k v o)).
Proof.
  induction o as [|[k0 v0] o IH]; cbn [set_prop map fst]; intros H.
  - constructor; [intros [] | constructor].
  - inversion H as [|? ? Hk Ho]; subst.
    destruct (bool_decide_reflect (k = k0)) as [-> | Hne]; cbn [map fst].
    + now constructor.
    + constructor; [| now apply IH].
      rewrite set_prop_keys. intros [E | Hin]; [congruence | contradiction].
Qed.

Lemma set_prop_values (P : json -> bool) k v o :
  P v = true -> forallb (fun kv => P (snd kv)) o = true ->
  forallb (fun kv => P (snd kv)) (set_prop k v o) = true.
Proof.
  intros Hv. induction o as [|[k0 v0] o IH]; cbn [set_prop forallb snd].
  - now rewrite Hv.
  - intros H. apply andb_true_iff in H as [H0 Ho].
    destruct (bool_decide (k = k0)); cbn [forallb snd].
    + now rewrite Hv, Ho.
    + now rewrite H0, IH.
Qed.

Lemma make_object_wf kvs :
  forallb (fun kv => wf_json (snd kv)) kvs = true ->
  wf_json (JObject (make_object kvs)) = true.
Proof.
  intros Hkvs. cbn [wf_json]. unfold make_object.
  assert (Hacc : distinct (map fst (@nil (jsstring * json))) = true /\
                 forallb (fun kv => wf_json (snd kv)) (@nil (jsstring * json)) = true)
    by (split; reflexivity).
  revert Hacc. generalize (@nil (jsstring * json)) as acc.
  induction kvs as [|[k v] kvs IH]; intros acc [Hd Hw]; cbn [fold_left fst snd].
  - now rewrite Hd, Hw.
  - cbn [forallb snd] in Hkvs. apply andb_true_iff in Hkvs as [Hv Hkvs].
    apply IH; [assumption |]. split.
    + apply distinct_NoDup, set_prop_NoDup. now apply distinct_NoDup.
    + now apply set_prop_values.
Qed.

Lemma parse_wf f :
  (forall s v r, parse_value f s = Ok v r -> wf_json v = true) /\
  (forall s vs r, parse_elements f s = Ok vs r -> forallb wf_json vs = true) /\
  (forall s kvs r, parse_members f s = Ok kvs r ->
                   forallb (fun kv => wf_json (snd kv)) kvs = true).
Proof.
  induction f as [|f (IHv & IHe & IHm)]; [repeat split; intros; discriminate |].
  repeat split; intros s ? r H;
    cbn [parse_value parse_elements parse_members] in H; unfold of_option in H;
    repeat match type of H with
           | context [match ?x with _ => _ end] =>
             lazymatch x with
             | context [match _ with _ => _ end] => fail
             | _ => destruct x eqn:?
             end; try discriminate
           end;
    injection H as <- <-;
    repeat match goal with
           | E : parse_value f _ = Ok _ _ |- _ => apply IHv in E
           | E : parse_elements f _ = Ok _ _ |- _ => apply IHe in E
           | E : parse_members f _ = Ok _ _ |- _ => apply IHm in E
           | E : parse_number _ = Some _ |- _ => apply parse_number_wf in E
           end;
    try reflexivity; try assumption;
    try (now apply make_object_wf);
    cbn [forallb snd]; apply andb_true_iff; split; assumption || reflexivity.
Qed.

(** Every value that [JSON.parse] returns has normalised numbers and
    distinct keys. *)
Lemma JSON_parse_wf text v : JSON_parse text = Some v -> wf_json v = true.
Proof.
  unfold JSON_parse.
  destruct (parse_value _ _) as [v' rest| |] eqn:E; try discriminate.
  destruct (skip_ws rest); [| discriminate].
  intros H. injection H as <-. eapply parse_wf; eassumption.
Qed.

End ParserOutput.

(** ** The reply parser of claude.ts *)

Section ReplyParser.

Import Claude.

Lemma from_first_skip c pre s :
  ~ In c pre -> from_first c (pre ++ c :: s) = Some (c :: s).
Proof.
  induction pre as [|x pre IH]; intros Hpre; simpl.
  - now rewrite N.eqb_refl.
  - destruct (N.eqb_spec x c) as [-> | _].
    + exfalso. apply Hpre. now left.
    + apply IH. intros Hin. apply Hpre. now right.
Qed.

Lemma from_first_none c s : ~ In c s -> from_first c s = None.
Proof.
  induction s as [|x s IH]; intros Hs; simpl; [reflexivity |].
  destruct (N.eqb_spec x c) as [-> | _].
  - exfalso. apply Hs. now left.
  - apply IH. intros Hin. apply Hs. now right.
Qed.

Lemma up_to_last_none c s : ~ In c s -> up_to_last c s = None.
Proof.
  induction s as [|x s IH]; intros Hs; simpl; [reflexivity |].
  rewrite IH by (intros Hin; apply Hs; now right).
  destruct (N.eqb_spec x c) as [-> | _]; [| reflexivity].
  exfalso. apply Hs. now left.
Qed.

Lemma up_to_last_stop c mid post :
  ~ In c post -> up_to_last c (mid ++ c :: post) = Some (mid ++ [c]).
Proof.
  intros Hpost. induction mid as [|x mid IH]; simpl.
  - now rewrite up_to_last_none, N.eqb_refl.
  - now rewrite IH.
Qed.

(** The match is the span from the first opening brace to the last closing
    brace. *)
Lemma match_braces_span pre mid post :
  ~ In (ch "{") pre -> ~ In (ch "}") post ->
  match_braces (pre ++ (ch "{" :: mid ++ [ch "}"]) ++ post)
  = Some (ch "{" :: mid ++ [ch "}"]).
Proof.
  intros Hpre Hpost. unfold match_braces.
  cbn [app]. rewrite from_first_skip by assumption.
  rewrite <- app_assoc. cbn [app].
  now rewrite up_to_last_stop.
Qed.

Lemma match_braces_head content span :
  match_braces content = Some span -> exists r, span = ch "{" :: r.
Proof.
  unfold match_braces.
  assert (Hhead : forall s t, from_first (ch "{") s = Some t -> exists r, t = ch "{" :: r).
  { induction s as [|x s IH]; intros t H; cbn [from_first] in H; [discriminate |].
    destruct (N.eqb_spec x (ch "{")) as [-> | _]; [| now apply IH].
    injection H as <-. eauto. }
  destruct (from_first (ch "{") content) as [[|b r]|] eqn:E; try discriminate.
  destruct (Hhead _ _ E) as [r' Hr]. injection Hr as -> ->.
  destruct (up_to_last (ch "}") r'); [| discriminate].
  intros H. injection H as <-. eauto.
Qed.

Lemma match_braces_no_open content :
  ~ In (ch "{") content -> match_braces content = None.
Proof. intros H. unfold match_braces. now rewrite from_first_none. Qed.

Lemma match_braces_no_close content :
  ~ In (ch "}") content -> match_braces content = None.
Proof.
  intros H. unfold match_braces.
  assert (Hsuffix : forall s t, from_first (ch "{") s = Some t ->
                                forall x, In x t -> In x s).
  { induction s as [|y s IH]; intros t Ht x Hx; cbn [from_first] in Ht; [discriminate |].
    destruct (y =? ch "{"); [injection Ht as <-; assumption |].
    right. eapply IH; eassumption. }
  destruct (from_first (ch "{") content) as [[|b r]|] eqn:E; try reflexivity.
  rewrite up_to_last_none; [reflexivity |].
  intros Hin. apply H. apply (Hsuffix _ _ E). now right.
Qed.

Lemma match_braces_no_close_after pre rest :
  ~ In (ch "{") pre -> ~ In (ch "}") rest ->
  match_braces (pre ++ ch "{" :: rest) = None.
Proof.
  intros Hpre Hrest. unfold match_braces.
  rewrite from_first_skip by assumption. now rewrite up_to_last_none.
Qed.

(** What the parser returns is settled by the span and by what
    [JSON.parse] makes of it. *)
Lemma parseGeneratedTrick_cases content requestedItems :
  (match_braces content = None /\
   parseGeneratedTrick content requestedItems = fallback_trick requestedItems) \/
  (exists span, match_braces content = Some span /\ JSON_parse span = None /\
   parseGeneratedTrick content requestedItems = fallback_trick requestedItems) \/
  (exists span o, match_braces content = Some span /\ JSON_parse span = Some (JObject o) /\
   parseGeneratedTrick content requestedItems = cleaned_trick (JObject o) requestedItems).
Proof.
  unfold parseGeneratedTrick.
  destruct (match_braces content) as [span|] eqn:Em; [| now left].
  right. destruct (JSON_parse span) as [v|] eqn:Ep; [right | left; eauto].
  destruct (match_braces_head _ _ Em) as [r ->].
  destruct (JSON_parse_object _ _ Ep) as [o ->]. eauto.
Qed.

Lemma includes_string_In l v :
  includes_string l v = true <-> exists s, v = Some (JString s) /\ In s l.
Proof.
  unfold includes_string. split.
  - destruct v as [[| | |s| |]|]; try discriminate.
    intros H. apply existsb_exists in H as (d & Hd & E).
    apply bool_decide_eq_true in E. subst. eauto.
  - intros (s & -> & Hs). apply existsb_exists. exists s. split; [assumption |].
    now apply bool_decide_eq_true.
Qed.

Lemma truthy_string s : truthy (JString s) = true <-> s <> [].
Proof. destruct s; simpl; split; congruence. Qed.

(** C1 (as amended).  The parser looks at the span from the first opening
    brace to the last closing brace of the reply.  A reply without an
    opening brace, or without a closing brace after the first opening one,
    and a reply whose span [JSON.parse] rejects, give the hardcoded fallback
    trick.  When the reply is prose without an opening brace, then a JSON
    object, then prose without a closing brace, the trick is built from the
    object field by field: an object with a non-empty string title and
    description, an array of instructions, one of the three difficulties and
    an array of items is returned as it is; an instructions or items field
    that is not an array,
    and a difficulty that is not one of the three, are each replaced by the
    default of that field alone (the step "Follow the magic!", "Easy", the
    requested items), and a title or description that is missing or an empty
    string by "Generated Magic Trick" and "A magical trick created just for
    you!" -- never by the fallback trick as a whole. *)
Theorem parseGeneratedTrick_extracts_or_falls_back :
  (forall content requestedItems,
      ~ In (ch "{") content \/ ~ In (ch "}") content \/
      (exists pre rest, content = pre ++ ch "{" :: rest /\
                        ~ In (ch "{") pre /\ ~ In (ch "}") rest) ->
      parseGeneratedTrick content requestedItems = fallback_trick requestedItems) /\
  (forall pre mid post requestedItems,
      ~ In (ch "{") pre -> ~ In (ch "}") post ->
      let body := ch "{" :: mid ++ [ch "}"] in
      let t := parseGeneratedTrick (pre ++ body ++ post) requestedItems in
      (JSON_parse body = None -> t = fallback_trick requestedItems) /\
      (forall o, JSON_parse body = Some (JObject o) ->
         (forall ttl desc steps level its,
             lookup_prop (lit "title") o = Some (JString ttl) -> ttl <> [] ->
             lookup_prop (lit "description") o = Some (JString desc) -> desc <> [] ->
             lookup_prop (lit "instructions") o = Some (JArray steps) ->
             lookup_prop (lit "difficulty") o = Some (JString level) ->
             In level [lit "Easy"; lit "Medium"; lit "Hard"] ->
             lookup_prop (lit "items") o = Some (JArray its) ->
             t = {| title := JString ttl; description := JString desc;
                    instructions := JArray steps; difficulty := JString level;
                    items := JArray its |}) /\
         (forall ttl, lookup_prop (lit "title") o = Some (JString ttl) -> ttl <> [] ->
                      title t = JString ttl) /\
         (lookup_prop (lit "title") o = None \/
          lookup_prop (lit "title") o = Some (JString []) ->
          title t = JString (lit "Generated Magic Trick")) /\
         (forall desc, lookup_prop (lit "description") o = Some (JString desc) -> desc <> [] ->
                       description t = JString desc) /\
         (lookup_prop (lit "description") o = None \/
          lookup_prop (lit "description") o = Some (JString []) ->
          description t = JString (lit "A magical trick created just for you!")) /\
         (forall steps, lookup_prop (lit "instructions") o = Some (JArray steps) ->
                        instructions t = JArray steps) /\
         (is_array (lookup_prop (lit "instructions") o) = false ->
          instructions t = strings [lit "Follow the magic!"]) /\
         (forall level, lookup_prop (lit "difficulty") o = Some (JString level) ->
                        In level [lit "Easy"; lit "Medium"; lit "Hard"] ->
                        difficulty t = JString level) /\
         (includes_string difficulties (lookup_prop (lit "difficulty") o) = false ->
          difficulty t = JString (lit "Easy")) /\
         (forall its, lookup_prop (lit "items") o = Some (JArray its) ->
                      items t = JArray its) /\
         (is_array (lookup_prop (lit "items") o) = false ->
          items t = strings requestedItems))).
Proof.
  split.
  - intros content requestedItems H. unfold parseGeneratedTrick.
    destruct H as [H | [H | (pre & rest & -> & Hpre & Hrest)]];
      [rewrite match_braces_no_open by assumption
      | rewrite match_braces_no_close by assumption
      | rewrite match_braces_no_close_after by assumption]; reflexivity.
  - intros pre mid post requestedItems Hpre Hpost body t.
    assert (Ht : t = match JSON_parse body with
                     | None => fallback_trick requestedItems
                     | Some JNull => fallback_trick requestedItems
                     | Some parsed => cleaned_trick parsed requestedItems
                     end).
    { unfold t, parseGeneratedTrick, body. now rewrite match_braces_span. }
    split; [intros E; now rewrite Ht, E |].
    intros o E. rewrite E in Ht.
    assert (Hfield : forall level, In level [lit "Easy"; lit "Medium"; lit "Hard"] ->
                                   includes_string difficulties (Some (JString level)) = true).
    { intros level Hl. apply includes_string_In. eauto. }
    repeat split; rewrite Ht; unfold cleaned_trick;
      cbn [prop title description instructions difficulty items].
    + intros ttl desc steps level its -> Httl -> Hdesc -> -> Hlevel ->.
      cbn [or_else]. rewrite (Hfield _ Hlevel).
      rewrite (proj2 (truthy_string ttl) Httl), (proj2 (truthy_string desc) Hdesc).
      reflexivity.
    + intros ttl -> Httl. cbn [or_else]. now rewrite (proj2 (truthy_string ttl) Httl).
    + intros [-> | ->]; reflexivity.
    + intros desc -> Hdesc. cbn [or_else]. now rewrite (proj2 (truthy_string desc) Hdesc).
    + intros [-> | ->]; reflexivity.
    + now intros steps ->.
    + destruct (lookup_prop (lit "instructions") o) as [[]|]; simpl; congruence.
    + intros level -> Hlevel. now rewrite (Hfield _ Hlevel).
    + destruct (lookup_prop (lit "difficulty") o) as [d|]; [| reflexivity].
      now intros ->.
    + now intros its ->.
    + destruct (lookup_prop (lit "items") o) as [[]|]; simpl; congruence.
Qed.

Lemma parseGeneratedTrick_extracts_witness :
  parseGeneratedTrick
    (json_lit "Sure! {'title': 'Coin Vanish', 'description': 'A coin disappears.', 'instructions': ['Show the coin', 'Close your hand'], 'difficulty': 'Medium', 'items': ['Coins']} Have fun.")
    [lit "Coins"; lit "Cups"]
  = {| title := JString (lit "Coin Vanish");
       description := JString (lit "A coin disappears.");
       instructions := strings [lit "Show the coin"; lit "Close your hand"];
       difficulty := JString (lit "Medium");
       items := strings [lit "Coins"] |}.
Proof.
  pose proof parseGeneratedTrick_extracts_or_falls_back as [_ H].
  specialize (H (lit "Sure! ")
                (json_lit "'title': 'Coin Vanish', 'description': 'A coin disappears.', 'instructions': ['Show the coin', 'Close your hand'], 'difficulty': 'Medium', 'items': ['Coins']")
                (lit " Have fun.") [lit "Coins"; lit "Cups"]
                ltac:(absent) ltac:(absent)).
  destruct H as [_ H].
  refine (proj1 (H _ _) _ _ _ _ _ _ _ _ _ _ _ _ _);
    try (vm_compute; reflexivity); try discriminate.
  vm_compute. tauto.
Defined.

(** C1 fails as stated: a field of the wrong type does not bring the
    fallback trick.  Here the instructions are a string; the parser keeps the
    title of the reply and replaces the instructions alone. *)
Lemma parseGeneratedTrick_wrong_type_is_not_fallback :
  let content :=
    json_lit "Here is your trick: {'title': 'Coin Vanish', 'description': 'A coin disappears.', 'instructions': 'Hide the coin', 'difficulty': 'Easy', 'items': ['Coins']} Enjoy!" in
  let t := parseGeneratedTrick content [lit "Coins"] in
  t <> fallback_trick [lit "Coins"] /\
  title t = JString (lit "Coin Vanish") /\
  instructions t = strings [lit "Follow the magic!"].
Proof.
  vm_compute. repeat split; try reflexivity. discriminate.
Qed.

(** Braces in the prose widen the span, and a well-formed object in the
    reply is then not extracted. *)
Lemma parseGeneratedTrick_braces_in_prose :
  parseGeneratedTrick (json_lit "Use {curly} braces: {'title': 'Coin Vanish'}") []
  = fallback_trick [].
Proof. vm_compute. reflexivity. Qed.

(** A title that is not a string is kept as it is. *)
Lemma parseGeneratedTrick_number_title :
  title (parseGeneratedTrick (json_lit "{'title': 5}") []) = JNumber 5 0.
Proof. vm_compute. reflexivity. Qed.

(** C9 (as amended).  Whatever the reply, the difficulty of the trick is one
    of Easy, Medium and Hard, its title and description are truthy (so
    neither undefined nor null nor an empty string), and its instructions
    and items are arrays, which may be empty.  The items are the requested
    items whenever the reply has no object to read or the object has no
    array under "items". *)
Theorem parseGeneratedTrick_fields content requestedItems :
  let t := parseGeneratedTrick content requestedItems in
  In (difficulty t) [JString (lit "Easy"); JString (lit "Medium"); JString (lit "Hard")] /\
  truthy (title t) = true /\
  truthy (description t) = true /\
  (exists steps, instructions t = JArray steps) /\
  (exists its, items t = JArray its) /\
  (match_braces content = None -> items t = strings requestedItems) /\
  (forall span, match_braces content = Some span -> JSON_parse span = None ->
                items t = strings requestedItems) /\
  (forall span o, match_braces content = Some span ->
                  JSON_parse span = Some (JObject o) ->
                  is_array (lookup_prop (lit "items") o) = false ->
                  items t = strings requestedItems).
Proof.
  intros t.
  assert (Hor : forall v d, truthy d = true -> truthy (or_else v d) = true).
  { intros [v|] d Hd; simpl; [destruct (truthy v) eqn:E |]; assumption. }
  destruct (parseGeneratedTrick_cases content requestedItems)
    as [[Em Ht] | [(span & Em & Ep & Ht) | (span & o & Em & Ep & Ht)]];
    fold t in Ht; rewrite Ht.
  - repeat split; try (simpl; tauto); try (eexists; reflexivity); congruence.
  - repeat split; try (simpl; tauto); try (eexists; reflexivity); congruence.
  - unfold cleaned_trick. cbn [prop title description instructions difficulty items].
    repeat split.
    + destruct (lookup_prop (lit "difficulty") o) as [d|]; [| simpl; tauto].
      destruct (includes_string difficulties (Some d)) eqn:E; [| simpl; tauto].
      apply includes_string_In in E as (s & Hs & Hin). injection Hs as ->.
      simpl in Hin. simpl. intuition (subst; auto).
    + now apply Hor.
    + now apply Hor.
    + destruct (lookup_prop (lit "instructions") o) as [[]|]; eexists; reflexivity.
    + destruct (lookup_prop (lit "items") o) as [[]|]; eexists; reflexivity.
    + congruence.
    + congruence.
    + intros span' o' Em' Ep'. rewrite Em in Em'. injection Em' as <-.
      rewrite Ep in Ep'. injection Ep' as <-.
      destruct (lookup_prop (lit "items") o) as [[]|]; simpl; congruence.
Qed.

(** C9 fails as stated: an empty array in the reply is kept, so the
    instructions and the items of the trick can be empty without being
    replaced by a default. *)
Lemma parseGeneratedTrick_empty_arrays :
  let t := parseGeneratedTrick (json_lit "{'instructions': [], 'items': []}") [lit "Coins"] in
  instructions t = JArray [] /\ items t = JArray [].
Proof. vm_compute. split; reflexivity. Qed.

End ReplyParser.

(** ** generateMagicTrick *)

Section Generation.

Import Claude.

(** C4 (as amended).  [generateMagicTrick] always returns a response and
    never throws.  Without an API key, and when the reply has no content, the
    response has [success = false] and a fixed, non-empty error message.
    When building the client or the remote call throws, the response has
    [success = false] and carries the message of the thrown [Error], or the
    text "Failed to generate magic trick" when what was thrown is not an
    [Error].  A response with [success = true] holds a trick, and every
    response with [success = false] holds an error message. *)
Theorem generateMagicTrick_never_throws key sdk request :
  exists response,
    generateMagicTrick key sdk request = Returns response /\
    (success response = true -> exists t, trick response = Some t) /\
    (success response = false -> exists message, error response = Some message) /\
    (falsy_string key = true ->
     success response = false /\
     exists message, error response = Some message /\ message <> []) /\
    (falsy_string key = false ->
     (forall content, new_client sdk = Returns tt ->
                      messages_create sdk = Returns content ->
                      falsy_string (first_text content) = true ->
                      success response = false /\
                      error response = Some (lit "No content received from Claude API")) /\
     (forall e, new_client sdk = Throws e \/
                (new_client sdk = Returns tt /\ messages_create sdk = Throws e) ->
                success response = false /\
                error response = Some (message_or e (lit "Failed to generate magic trick")) /\
                (e <> ErrorObject [] ->
                 message_or e (lit "Failed to generate magic trick") <> []))).
Proof.
  assert (Hmsg : forall e, e <> ErrorObject [] ->
                           message_or e (lit "Failed to generate magic trick") <> []).
  { intros [m|] He; simpl; [congruence | discriminate]. }
  unfold generateMagicTrick.
  destruct (falsy_string key) eqn:Ek;
    [| destruct (new_client sdk) as [[]|e0] eqn:En;
       [destruct (messages_create sdk) as [content|e1] eqn:Em;
        [destruct (first_text content) as [[|c cs]|] eqn:Ec |] |]];
    (eexists; split; [cbn; rewrite ?Ec; reflexivity |]);
    cbn [success trick error]; repeat split; intros;
    repeat match goal with
           | H : _ \/ _ |- _ => destruct H
           | H : _ /\ _ |- _ => destruct H
           | H : Returns _ = Returns _ |- _ => injection H as H; try subst
           | H : Throws _ = Throws _ |- _ => injection H as H; try subst
           end;
    try discriminate; try congruence; eauto;
    try match goal with
        | H : falsy_string (first_text ?c) = true, E : first_text ?c = _ |- _ =>
          rewrite E in H; discriminate H
        end.
Qed.

(** C4 fails as stated: the message of a thrown [Error] is passed on as it
    is, so a rejection with an empty message gives an empty error message. *)
Lemma generateMagicTrick_empty_message :
  generateMagicTrick (Some (lit "sk-key"))
    {| new_client := Returns tt; messages_create := Throws (ErrorObject []) |}
    {| req_items := [lit "Coins"]; req_difficulty := None; req_additionalContext := None |}
  = Returns {| success := false; trick := None; error := Some [] |}.
Proof. reflexivity. Qed.

End Generation.

(** ** File validation and upload paths of supabaseStorage.ts *)

Section Files.

Import SupabaseStorage.

Lemma includes_type_In allowedTypes t :
  includes_type allowedTypes t = true <-> In t allowedTypes.
Proof.
  unfold includes_type. rewrite existsb_exists. split.
  - intros (a & Ha & E). apply bool_decide_eq_true in E. now subst.
  - intros H. exists t. split; [assumption | now apply bool_decide_eq_true].
Qed.

(** C2.  [validateFile] answers invalid, with an error message, exactly when
    the type of the file is not in the allow-list or its size exceeds the
    limit, and valid otherwise; [validateProfilePicture] and
    [validateUserVideo] are [validateFile] with the declared lists and the
    limits of 5 and 50 times 1024 * 1024 bytes. *)
Theorem validateFile_accepts_exactly_the_declared_files :
  forall (file : File) (allowedTypes : list jsstring) (maxSizeInBytes : Z),
    let v := validateFile file allowedTypes maxSizeInBytes in
    (valid v = false <->
     (~ In (file_type file) allowedTypes \/ (file_size file > maxSizeInBytes)%Z)) /\
    (valid v = false -> exists message, verror v = Some message /\ message <> []) /\
    (In (file_type file) allowedTypes -> (file_size file <= maxSizeInBytes)%Z ->
     v = {| valid := true; verror := None |}) /\
    validateProfilePicture file =
      validateFile file
        [lit "image/jpeg"; lit "image/png"; lit "image/gif"; lit "image/webp"]
        (5 * 1024 * 1024) /\
    validateUserVideo file =
      validateFile file
        [lit "video/mp4"; lit "video/webm"; lit "video/quicktime"; lit "video/x-msvideo"]
        (50 * 1024 * 1024).
Proof.
  intros file allowedTypes maxSizeInBytes v. subst v. unfold validateFile.
  destruct (includes_type allowedTypes (file_type file)) eqn:Et; cbn [negb].
  - apply includes_type_In in Et.
    destruct (Z.gtb_spec (file_size file) maxSizeInBytes) as [Hs | Hs]; cbn [valid verror].
    + split; [| split; [| split; [| split]]]; try reflexivity.
      * split; [intros _; right; lia | reflexivity].
      * intros _. eexists. split; [reflexivity | discriminate].
      * intros _ Hle. lia.
    + split; [| split; [| split; [| split]]]; try reflexivity.
      * split; [discriminate | intros [H | H]; [contradiction | lia]].
      * discriminate.
  - assert (Hn : ~ In (file_type file) allowedTypes).
    { intros H. apply includes_type_In in H. congruence. }
    cbn [valid verror]. split; [| split; [| split; [| split]]]; try reflexivity.
    + split; [intros _; now left | reflexivity].
    + intros _. eexists. split; [reflexivity | discriminate].
    + contradiction.
Qed.

(** A slash-free text is the first segment of what it starts. *)
Lemma first_segment_prefix userId rest :
  ~ In (ch "/") userId -> first_segment (userId ++ ch "/" :: rest) = userId.
Proof.
  unfold first_segment. induction userId as [|c u IH]; intros H; cbn [app before_first].
  - now rewrite N.eqb_refl.
  - destruct (N.eqb_spec c (ch "/")) as [-> | _].
    + exfalso. apply H. now left.
    + f_equal. apply IH. intros Hin. apply H. now right.
Qed.

(** C6.  Every upload issues exactly one request, to the path made of the
    user id, a slash and the file name, and a successful upload returns that
    path; a profile picture is named profile_<time>.<ext> and a video
    video_<time>.<ext> or <name>_<time>.<ext>.  The user id is the first
    segment of the path for every user id without a slash; the ids of the
    authentication service, the only ones that the callers pass, are UUIDs
    and hold none. *)
Theorem upload_path_is_namespaced :
  forall (supabase : StorageClient),
    (forall o,
        let fullPath := opt_userId o ++ ch "/" :: opt_path o in
        fst (uploadFile supabase o) =
          [{| call_bucket := opt_bucket o; call_path := fullPath; call_file := opt_file o |}] /\
        (success (snd (uploadFile supabase o)) = true ->
         path (snd (uploadFile supabase o)) = Some fullPath) /\
        (~ In (ch "/") (opt_userId o) -> first_segment fullPath = opt_userId o)) /\
    (forall now file userId,
        uploadProfilePicture supabase now file userId =
        uploadFile supabase
          {| opt_bucket := lit "profile_pictures";
             opt_path := lit "profile_" ++ Z_toString now ++ ch "." :: extension file (lit "jpg");
             opt_file := file; opt_userId := userId |}) /\
    (forall now file userId customName,
        uploadUserVideo supabase now file userId customName =
        uploadFile supabase
          {| opt_bucket := lit "user_videos";
             opt_path := (if falsy_string customName then lit "video"
                          else default [] customName)
                         ++ ch "_" :: Z_toString now ++ ch "." :: extension file (lit "mp4");
             opt_file := file; opt_userId := userId |}).
Proof.
  intros supabase. split; [| split].
  - intros o fullPath. split; [reflexivity | split].
    + unfold uploadFile. cbn [snd]. fold fullPath.
      destruct (upload supabase _) as [[|m]|e]; cbn [success path]; congruence.
    + intros H. now apply first_segment_prefix.
  - reflexivity.
  - intros now file userId customName. unfold uploadUserVideo, video_filename.
    destruct (falsy_string customName); reflexivity.
Qed.

Lemma upload_path_is_namespaced_witness :
  let supabase := {| upload := fun _ => Returns Stored;
                     getPublicUrl := fun bucket p => bucket ++ ch "/" :: p |} in
  let file := {| file_name := lit "me.final.png"; file_type := lit "image/png";
                 file_size := 1024 |} in
  let userId := lit "0b9c6a1e-7d2f-4c55-9f0a-3f1f5a8f2d11" in
  let result := uploadProfilePicture supabase 1700000000000 file userId in
  path (snd result) = Some (userId ++ lit "/profile_1700000000000.png") /\
  first_segment (userId ++ lit "/profile_1700000000000.png") = userId.
Proof.
  intros supabase file userId result.
  pose proof (upload_path_is_namespaced supabase) as (Hfile & Hpicture & _).
  unfold result. rewrite Hpicture.
  match goal with
  | |- context [uploadFile supabase ?o] => destruct (Hfile o) as (_ & Hpath & Hseg)
  end.
  split.
  - apply Hpath. reflexivity.
  - apply Hseg. absent.
Defined.

End Files.

(** ** The session cache of storage.ts *)

Section SessionCache.

Import Storage.

Lemma keys_distinct :
  USER <> USER_PROFILE /\ USER <> SESSION /\ USER <> LAST_SYNC /\
  USER_PROFILE <> SESSION /\ USER_PROFILE <> LAST_SYNC /\ SESSION <> LAST_SYNC.
Proof. repeat split; intros H; vm_compute in H; discriminate H. Qed.

Lemma isExpired_spec now ts :
  isExpired now (Some ts) = true <-> (now - ts > 24 * 60 * 60 * 1000)%Z.
Proof.
  unfold isExpired. destruct (Z.gtb_spec (now - ts) (24 * 60 * 60 * 1000)); split;
    intros; try reflexivity; try discriminate; lia.
Qed.

Lemma isExpired_fresh now ts :
  (now - ts <= 24 * 60 * 60 * 1000)%Z -> isExpired now (Some ts) = false.
Proof.
  intros H. destruct (isExpired now (Some ts)) eqn:E; [| reflexivity].
  apply isExpired_spec in E. lia.
Qed.

Lemma parseInt10_nonempty s ts : parseInt10 s = Some ts -> falsy_string (Some s) = false.
Proof. destruct s; [discriminate | reflexivity]. Qed.

Lemma safeJsonParse_falsy data fallback :
  falsy_string data = true -> safeJsonParse data fallback = fallback.
Proof. destruct data as [[|]|]; simpl; congruence. Qed.

Lemma read_entry_expired key clear now ts ls lastSync :
  getItem LAST_SYNC ls = Some lastSync -> parseInt10 lastSync = Some ts ->
  (now - ts > 24 * 60 * 60 * 1000)%Z ->
  read_entry key clear now ls
  = (JNull, if falsy_string (getItem key ls) then ls else clear ls).
Proof.
  intros Hl Hp Hold. apply isExpired_spec in Hold.
  unfold read_entry. cbv zeta. rewrite Hl. cbn [default from_option id].
  rewrite (parseInt10_nonempty _ _ Hp), Hp, orb_false_r, Hold.
  destruct (falsy_string (getItem key ls)); reflexivity.
Qed.

Lemma read_entry_fresh key clear now ts ls lastSync :
  getItem LAST_SYNC ls = Some lastSync -> parseInt10 lastSync = Some ts ->
  (now - ts <= 24 * 60 * 60 * 1000)%Z ->
  read_entry key clear now ls = (safeJsonParse (getItem key ls) JNull, ls).
Proof.
  intros Hl Hp Hnew. apply isExpired_fresh in Hnew.
  unfold read_entry. cbv zeta. rewrite Hl. cbn [default from_option id].
  rewrite (parseInt10_nonempty _ _ Hp), Hp, orb_false_r, Hnew.
  destruct (falsy_string (getItem key ls)) eqn:E; [| reflexivity].
  now rewrite (safeJsonParse_falsy _ _ E).
Qed.

Lemma getUser_read : getUser = read_entry USER clearUser.
Proof. reflexivity. Qed.

Lemma getUserProfile_read : getUserProfile = read_entry USER_PROFILE clearUserProfile.
Proof. reflexivity. Qed.

Lemma getSession_read : getSession = read_entry SESSION clearSession.
Proof. reflexivity. Qed.

Lemma hasValidStoredAuth_null now1 now2 ls ls1 :
  getUser now1 ls = (JNull, ls1) -> hasValidStoredAuth now1 now2 ls = (false, ls1).
Proof. intros H. unfold hasValidStoredAuth. now rewrite H. Qed.

Lemma hasValidStoredAuth_fresh now1 now2 ts ls lastSync :
  getItem LAST_SYNC ls = Some lastSync -> parseInt10 lastSync = Some ts ->
  (now1 - ts <= 24 * 60 * 60 * 1000)%Z ->
  hasValidStoredAuth now1 now2 ls
  = (truthy (safeJsonParse (getItem USER ls) JNull) && negb (isExpired now2 (Some ts)), ls).
Proof.
  intros Hl Hp Hnew. unfold hasValidStoredAuth.
  rewrite getUser_read, (read_entry_fresh _ _ _ _ _ _ Hl Hp Hnew), Hl.
  cbn [default from_option id].
  rewrite (parseInt10_nonempty _ _ Hp), Hp, orb_false_r.
  destruct (truthy _); reflexivity.
Qed.

(** C3.  With the time of the last synchronisation stored, the cache counts
    as expired exactly when more than 24 * 60 * 60 * 1000 milliseconds have
    passed since then.  When it is expired, [getUser] and [getSession] return
    null and [hasValidStoredAuth] returns false; up to and including the
    boundary, [getUser] and [getSession] return what is stored and
    [hasValidStoredAuth] tells whether a user is stored. *)
Theorem session_cache_staleness :
  forall (now ts : Z) (ls : localStorage) (lastSync : jsstring),
    getItem LAST_SYNC ls = Some lastSync -> parseInt10 lastSync = Some ts ->
    (isExpired now (parseInt10 lastSync) = true <-> (now - ts > 24 * 60 * 60 * 1000)%Z) /\
    ((now - ts > 24 * 60 * 60 * 1000)%Z ->
     fst (getUser now ls) = JNull /\
     fst (getSession now ls) = JNull /\
     forall now', fst (hasValidStoredAuth now now' ls) = false) /\
    ((now - ts <= 24 * 60 * 60 * 1000)%Z ->
     fst (getUser now ls) = safeJsonParse (getItem USER ls) JNull /\
     fst (getSession now ls) = safeJsonParse (getItem SESSION ls) JNull /\
     (forall now', (now' - ts <= 24 * 60 * 60 * 1000)%Z ->
                   fst (hasValidStoredAuth now now' ls)
                   = truthy (safeJsonParse (getItem USER ls) JNull)) /\
     (forall now', (now' - ts > 24 * 60 * 60 * 1000)%Z ->
                   fst (hasValidStoredAuth now now' ls) = false)).
Proof.
  intros now ts ls lastSync Hl Hp.
  split; [rewrite Hp; apply isExpired_spec |]. split.
  - intros Hold.
    pose proof (read_entry_expired USER clearUser _ _ _ _ Hl Hp Hold) as Hu.
    pose proof (read_entry_expired SESSION clearSession _ _ _ _ Hl Hp Hold) as Hs.
    rewrite <- getUser_read in Hu. rewrite <- getSession_read in Hs.
    rewrite Hu, Hs. repeat split.
    intros now'. now rewrite (hasValidStoredAuth_null _ _ _ _ Hu).
  - intros Hnew.
    rewrite getUser_read, getSession_read.
    rewrite (read_entry_fresh USER _ _ _ _ _ Hl Hp Hnew).
    rewrite (read_entry_fresh SESSION _ _ _ _ _ Hl Hp Hnew).
    repeat split; intros now' Hnow';
      rewrite (hasValidStoredAuth_fresh _ _ _ _ _ Hl Hp Hnew); cbn [fst].
    + now rewrite (isExpired_fresh _ _ Hnow'), andb_true_r.
    + apply isExpired_spec in Hnow'. now rewrite Hnow', andb_false_r.
Qed.

Lemma session_cache_staleness_witness :
  let user := JObject [(lit "id", JString (lit "u1"));
                       (lit "email", JString (lit "joe@example.org"))] in
  let ls := saveUser 1000 user ∅ in
  fst (getUser 86401000 ls) = user /\ fst (getUser 86401001 ls) = JNull.
Proof.
  intros user ls.
  assert (Hl : getItem LAST_SYNC ls = Some (lit "1000")) by (vm_compute; reflexivity).
  assert (Hp : parseInt10 (lit "1000") = Some 1000%Z) by reflexivity.
  destruct (session_cache_staleness 86401000 1000 ls (lit "1000") Hl Hp) as (_ & _ & Hfresh).
  destruct (session_cache_staleness 86401001 1000 ls (lit "1000") Hl Hp) as (_ & Hold & _).
  destruct (Hfresh ltac:(lia)) as (-> & _). destruct (Hold ltac:(lia)) as (-> & _).
  split; [vm_compute |]; reflexivity.
Defined.

Lemma getUser_absent now ls :
  falsy_string (getItem USER ls) = true -> getUser now ls = (JNull, ls).
Proof. intros H. unfold getUser. cbv zeta. now rewrite H. Qed.



(** C10.  Reading an entry whose last synchronisation is more than 24 hours
    old returns null and cleans the store: [getUser] removes the user and
    the time of the last synchronisation, [getUserProfile] removes the
    profile, [getSession] removes the session, every other key keeps its
    value, and [hasValidStoredAuth] returns false from then on. *)
Theorem expired_read_cleans_the_store :
  forall (now ts : Z) (ls : localStorage) (lastSync : jsstring),
    getItem LAST_SYNC ls = Some lastSync -> parseInt10 lastSync = Some ts ->
    (now - ts > 24 * 60 * 60 * 1000)%Z ->
    (falsy_string (getItem USER ls) = false ->
     fst (getUser now ls) = JNull /\
     getItem USER (snd (getUser now ls)) = None /\
     getItem LAST_SYNC (snd (getUser now ls)) = None /\
     (forall k, k <> USER -> k <> LAST_SYNC ->
                getItem k (snd (getUser now ls)) = getItem k ls) /\
     (forall now1 now2, fst (hasValidStoredAuth now1 now2 (snd (getUser now ls))) = false)) /\
    (falsy_string (getItem USER_PROFILE ls) = false ->
     fst (getUserProfile now ls) = JNull /\
     getItem USER_PROFILE (snd (getUserProfile now ls)) = None /\
     (forall k, k <> USER_PROFILE ->
                getItem k (snd (getUserProfile now ls)) = getItem k ls) /\
     (forall now1 now2, (now <= now1)%Z ->
        fst (hasValidStoredAuth now1 now2 (snd (getUserProfile now ls))) = false)) /\
    (falsy_string (getItem SESSION ls) = false ->
     fst (getSession now ls) = JNull /\
     getItem SESSION (snd (getSession now ls)) = None /\
     (forall k, k <> SESSION ->
                getItem k (snd (getSession now ls)) = getItem k ls) /\
     (forall now1 now2, (now <= now1)%Z ->
        fst (hasValidStoredAuth now1 now2 (snd (getSession now ls))) = false)).
Proof.
  intros now ts ls lastSync Hl Hp Hold.
  destruct keys_distinct as (Hup & Hus & Hul & Hps & Hpl & Hsl).
  assert (Hlater : forall key now1 now2,
             key <> USER -> key <> LAST_SYNC -> (now <= now1)%Z ->
             fst (hasValidStoredAuth now1 now2 (removeItem key ls)) = false).
  { intros key now1 now2 Hk1 Hk2 Hnow.
    assert (Hl' : getItem LAST_SYNC (removeItem key ls) = Some lastSync).
    { unfold getItem, removeItem. now rewrite lookup_delete_ne. }
    pose proof (read_entry_expired USER clearUser now1 ts _ _ Hl' Hp ltac:(lia)) as Hu.
    rewrite <- getUser_read in Hu.
    now rewrite (hasValidStoredAuth_null _ _ _ _ Hu). }
  split; [| split]; intros Hdata.
  - rewrite getUser_read, (read_entry_expired USER _ _ _ _ _ Hl Hp Hold), Hdata.
    cbn [fst snd]. unfold clearUser, getItem, removeItem.
    split; [reflexivity |]. split; [| split; [| split]].
    + rewrite lookup_delete_ne by congruence. apply lookup_delete_eq.
    + apply lookup_delete_eq.
    + intros k Hk1 Hk2. now rewrite !lookup_delete_ne by congruence.
    + intros now1 now2. rewrite (hasValidStoredAuth_null now1 now2 _ (delete LAST_SYNC (delete USER ls))); [reflexivity |].
      apply getUser_absent. unfold getItem.
      rewrite lookup_delete_ne by congruence. now rewrite lookup_delete_eq.
  - rewrite getUserProfile_read,
      (read_entry_expired USER_PROFILE _ _ _ _ _ Hl Hp Hold), Hdata.
    cbn [fst snd]. unfold clearUserProfile.
    split; [reflexivity |]. split; [| split].
    + apply lookup_delete_eq.
    + intros k Hk. unfold getItem, removeItem. now rewrite lookup_delete_ne.
    + intros now1 now2 Hnow. apply Hlater; congruence.
  - rewrite getSession_read,
      (read_entry_expired SESSION _ _ _ _ _ Hl Hp Hold), Hdata.
    cbn [fst snd]. unfold clearSession.
    split; [reflexivity |]. split; [| split].
    + apply lookup_delete_eq.
    + intros k Hk. unfold getItem, removeItem. now rewrite lookup_delete_ne.
    + intros now1 now2 Hnow. apply Hlater; congruence.
Qed.

Lemma expired_read_cleans_the_store_witness :
  let user := JObject [(lit "id", JString (lit "u1"))] in
  let ls := saveUserProfile user (saveUser 1000 user ∅) in
  getItem USER (snd (getUser 86401001 ls)) = None /\
  getItem LAST_SYNC (snd (getUser 86401001 ls)) = None /\
  getItem USER_PROFILE (snd (getUser 86401001 ls)) = getItem USER_PROFILE ls /\
  fst (hasValidStoredAuth 86401002 86401003 (snd (getUserProfile 86401001 ls))) = false.
Proof.
  intros user ls.
  assert (Hl : getItem LAST_SYNC ls = Some (lit "1000")) by (vm_compute; reflexivity).
  assert (Hp : parseInt10 (lit "1000") = Some 1000%Z) by reflexivity.
  destruct (expired_read_cleans_the_store 86401001 1000 ls (lit "1000") Hl Hp ltac:(lia))
    as (Huser & Hprofile & _).
  destruct (Huser ltac:(vm_compute; reflexivity)) as (_ & Hu & Hs & Hframe & _).
  destruct (Hprofile ltac:(vm_compute; reflexivity)) as (_ & _ & _ & Hvalid).
  split; [exact Hu | split; [exact Hs | split]].
  - apply Hframe; intros H; vm_compute in H; discriminate H.
  - apply Hvalid. lia.
Defined.

End SessionCache.

(** ** Creation of the profile row in AuthContext.tsx *)

Section ProfileCreation.

Import Storage AuthContext.



(** The recursion stops by itself: three levels are enough from any count. *)
Lemma createUserProfile_returns env userId retryCount st :
  exists events st', createUserProfile env userId retryCount st = Some (events, st').
Proof.
  unfold createUserProfile. cbn [createUserProfile_run].
  repeat match goal with
         | |- context [match auth_getUser ?a with _ => _ end] =>
           destruct (auth_getUser a) as [[| |?]|?]
         | |- context [match users_insert ?a with _ => _ end] =>
           destruct (users_insert a) as [[? ?|?]|?]
         | |- context [if ?b && ?c then _ else _] => destruct (b && c) eqn:?
         end; eauto.
  (* a third retry would need a count below 2 after two increments *)
  exfalso.
  repeat match goal with
         | H : _ && _ = true |- _ => apply andb_true_iff in H as [_ H]
         | H : (_ <? _)%nat = true |- _ => apply Nat.ltb_lt in H
         end.
  lia.
Qed.




(** When a call throws, the [catch] block does not get as far as installing
    the temporary profile it was written for. *)
Lemma createUserProfile_rejected_when_insert_throws env userId st authUser e :
  auth_getUser (env 0%nat) = Returns (Authenticated authUser) ->
  users_insert (env 0%nat) = Throws e ->
  createUserProfile env userId 0 st
  = Some ([Invoked 0; InsertSent (new_row userId authUser); Rejected], st).
Proof.
  intros Ha Hi. unfold createUserProfile. cbn [createUserProfile_run].
  now rewrite Ha, Hi.
Qed.

End ProfileCreation.

(** ** Row-level security *)

Section Policies.

Import Rls.

Lemma uid_is_other caller owner : caller <> owner -> uid_is (Some caller) owner = false.
Proof. intros H. now apply bool_decide_eq_false_2. Qed.

Lemma uid_is_self owner : uid_is (Some owner) owner = true.
Proof. now apply bool_decide_eq_true_2. Qed.

(** C8.  Under the policies of the set-up script, a signed-in identity that
    is not the owner of a profile row or of a trick row can neither insert
    such a row, nor update it, nor delete it, and every caller, signed in or
    not, can read every row of both tables. *)
Theorem rls_restricts_writes_to_the_owner :
  forall (caller owner : jsstring),
    caller <> owner ->
    (forall r : UserRow, id r = owner ->
        can_insert users_policies (Some caller) r = false /\
        (forall new, can_update users_policies (Some caller) r new = false) /\
        can_delete users_policies (Some caller) r = false) /\
    (forall r : MagicTrickRow, user_id r = owner ->
        can_insert magic_tricks_policies (Some caller) r = false /\
        (forall new, can_update magic_tricks_policies (Some caller) r new = false) /\
        can_delete magic_tricks_policies (Some caller) r = false) /\
    (forall uid (r : UserRow), can_select users_policies uid r = true) /\
    (forall uid (r : MagicTrickRow), can_select magic_tricks_policies uid r = true).
Proof.
  intros caller owner Hne.
  pose proof (uid_is_other _ _ Hne) as Hno.
  split; [| split; [| split]].
  - intros r <-. unfold can_insert, can_update, can_delete, passes_check, passes_using.
    cbn -[uid_is]. rewrite Hno. repeat split; reflexivity.
  - intros r <-. unfold can_insert, can_update, can_delete, passes_check, passes_using.
    cbn -[uid_is]. rewrite Hno. repeat split; reflexivity.
  - reflexivity.
  - reflexivity.
Qed.

Lemma rls_restricts_writes_to_the_owner_witness :
  let row := {| id := lit "owner-1"; name := lit "Ann"; profile := []; email := lit "ann@example.org";
                bio := [] |} in
  let trick := {| trick_id := lit "t1"; user_id := lit "owner-1"; title := lit "Coin Vanish";
                  description := lit "A coin disappears."; instructions := JArray [];
                  difficulty := lit "Easy"; overall_rating := 0 |} in
  can_delete magic_tricks_policies (Some (lit "intruder-2")) trick = false /\
  can_update users_policies (Some (lit "intruder-2")) row row = false /\
  can_select magic_tricks_policies None trick = true.
Proof.
  intros row trick.
  assert (Hne : lit "intruder-2" <> lit "owner-1") by discriminate.
  destruct (rls_restricts_writes_to_the_owner _ _ Hne) as (Hu & Ht & _ & Hs).
  destruct (Hu row eq_refl) as (_ & Hupdate & _).
  destruct (Ht trick eq_refl) as (_ & _ & Hdelete).
  split; [exact Hdelete | split; [apply Hupdate | apply Hs]].
Defined.

(** The owner is let through: the policies are not a plain refusal. *)
Lemma rls_allows_the_owner (owner : jsstring) :
  (forall r : UserRow, id r = owner ->
      can_insert users_policies (Some owner) r = true /\
      can_update users_policies (Some owner) r r = true) /\
  (forall r : MagicTrickRow, user_id r = owner ->
      can_insert magic_tricks_policies (Some owner) r = true /\
      can_update magic_tricks_policies (Some owner) r r = true /\
      can_delete magic_tricks_policies (Some owner) r = true).
Proof.
  split; intros r <-;
    unfold can_insert, can_update, can_delete, passes_check, passes_using;
    cbn -[uid_is]; rewrite !uid_is_self; repeat split; reflexivity.
Qed.

(** Nobody can delete a profile row: the users table has no policy for it. *)
Lemma rls_no_profile_delete uid (r : UserRow) : can_delete users_policies uid r = false.
Proof. reflexivity. Qed.

End Policies.

(** ** The stored auth state of storage.ts *)

(** Lookups in a store that was built with [setItem] and [removeItem]. *)
Ltac store_lookup :=
  unfold Storage.getItem, Storage.setItem, Storage.removeItem;
  repeat first
    [ rewrite lookup_insert_eq
    | rewrite lookup_delete_eq
    | rewrite lookup_insert_ne by (first [congruence | apply not_eq_sym; congruence])
    | rewrite lookup_delete_ne by (first [congruence | apply not_eq_sym; congruence]) ].

Section AuthStateCache.

Import Storage.

Lemma print_value_nonempty v : exists c d, print_value v = c :: d.
Proof. destruct (print_value_head v) as (c & r & H & _). eauto. Qed.


Lemma read_entry_no_sync key clear now ls :
  falsy_string (getItem LAST_SYNC ls) = true -> read_entry key clear now ls = (JNull, ls).
Proof. intros H. unfold read_entry. cbv zeta. now rewrite H, orb_true_r. Qed.

Lemma read_entry_no_data key clear now ls :
  falsy_string (getItem key ls) = true -> read_entry key clear now ls = (JNull, ls).
Proof. intros H. unfold read_entry. cbv zeta. now rewrite H. Qed.

Lemma read_entry_unreadable key clear now ls lastSync :
  getItem LAST_SYNC ls = Some lastSync -> lastSync <> [] -> parseInt10 lastSync = None ->
  read_entry key clear now ls = (safeJsonParse (getItem key ls) JNull, ls).
Proof.
  intros Hl Hne Hp. unfold read_entry. cbv zeta. rewrite Hl.
  cbn [default from_option id]. rewrite Hp.
  destruct lastSync as [|c r]; [congruence |]. cbn [falsy_string isExpired].
  rewrite orb_false_r.
  destruct (falsy_string (getItem key ls)) eqn:E; [| reflexivity].
  now rewrite (safeJsonParse_falsy _ _ E).
Qed.










Lemma saveUser_frame now user ls k :
  k <> USER -> k <> LAST_SYNC -> getItem k (saveUser now user ls) = getItem k ls.
Proof.
  intros H1 H2. unfold saveUser, safeJsonStringify, JSON_stringify.
  destruct (print_value_nonempty user) as (c & d & ->).
  destruct (truthy user); now store_lookup.
Qed.


Lemma saveUser_removed now user ls :
  truthy user = false ->
  getItem USER (saveUser now user ls) = None /\
  getItem LAST_SYNC (saveUser now user ls) = None.
Proof.
  intros Ht. destruct keys_distinct as (_ & _ & Hul & _).
  unfold saveUser. rewrite Ht. split; now store_lookup.
Qed.

Lemma saveUserProfile_frame profile ls k :
  k <> USER_PROFILE -> getItem k (saveUserProfile profile ls) = getItem k ls.
Proof.
  intros H. unfold saveUserProfile, safeJsonStringify, JSON_stringify.
  destruct (print_value_nonempty profile) as (c & d & ->).
  destruct (truthy profile); now store_lookup.
Qed.






(** X5.  Reading the auth state more than 24 hours after the last
    synchronisation returns no user, no profile and the time 0. The read of
    the user removes the user and the stored time, so the read of the profile
    that follows finds no stored time and leaves the stored profile where it
    is. When no user is stored, it is the profile that is removed, and the old
    time is kept and returned. *)
Theorem getAuthState_expired :
  forall (now1 now2 ts : Z) (ls : localStorage) (lastSync : jsstring),
    getItem LAST_SYNC ls = Some lastSync -> parseInt10 lastSync = Some ts ->
    (now1 - ts > 24 * 60 * 60 * 1000)%Z ->
    (now2 - ts > 24 * 60 * 60 * 1000)%Z ->
    (falsy_string (getItem USER ls) = false ->
     fst (getAuthState now1 now2 ls)
     = {| stored_user := JNull; stored_userProfile := JNull; stored_lastSync := Some 0%Z |} /\
     getItem USER (snd (getAuthState now1 now2 ls)) = None /\
     getItem LAST_SYNC (snd (getAuthState now1 now2 ls)) = None /\
     getItem USER_PROFILE (snd (getAuthState now1 now2 ls)) = getItem USER_PROFILE ls) /\
    (falsy_string (getItem USER ls) = true ->
     falsy_string (getItem USER_PROFILE ls) = false ->
     fst (getAuthState now1 now2 ls)
     = {| stored_user := JNull; stored_userProfile := JNull; stored_lastSync := Some ts |} /\
     getItem USER_PROFILE (snd (getAuthState now1 now2 ls)) = None /\
     getItem LAST_SYNC (snd (getAuthState now1 now2 ls)) = Some lastSync).
Proof.
  intros now1 now2 ts ls lastSync Hl Hp Hold1 Hold2.
  destruct keys_distinct as (Hup & _ & Hul & _ & Hpl & _).
  split.
  - intros Hu. unfold getAuthState.
    rewrite getUser_read, (read_entry_expired _ _ _ _ _ _ Hl Hp Hold1), Hu.
    cbv iota beta.
    assert (Hgone : getItem LAST_SYNC (clearUser ls) = None)
      by (unfold clearUser; now store_lookup).
    rewrite getUserProfile_read.
    rewrite (read_entry_no_sync USER_PROFILE clearUserProfile now2 (clearUser ls));
      [| rewrite Hgone; reflexivity].
    rewrite Hgone. cbn [falsy_string fst snd].
    split; [reflexivity |]. split; [| split]; unfold clearUser; now store_lookup.
  - intros Hu Hprofile. unfold getAuthState.
    rewrite getUser_read, (read_entry_expired _ _ _ _ _ _ Hl Hp Hold1), Hu.
    cbv iota beta.
    rewrite getUserProfile_read, (read_entry_expired _ _ _ _ _ _ Hl Hp Hold2), Hprofile.
    cbv iota beta.
    assert (Hkept : getItem LAST_SYNC (clearUserProfile ls) = Some lastSync)
      by (unfold clearUserProfile; now store_lookup).
    rewrite Hkept. cbn [default from_option id fst snd].
    rewrite (parseInt10_nonempty _ _ Hp), Hp.
    split; [reflexivity |]. split; [| exact Hkept].
    unfold clearUserProfile. now store_lookup.
Qed.

Lemma getAuthState_expired_witness :
  let user := JObject [(lit "id", JString (lit "u1"))] in
  let ls := saveUserProfile user (saveUser 1000 user ∅) in
  fst (getAuthState 86401001 86401002 ls)
  = {| stored_user := JNull; stored_userProfile := JNull; stored_lastSync := Some 0%Z |} /\
  getItem USER_PROFILE (snd (getAuthState 86401001 86401002 ls)) = getItem USER_PROFILE ls.
Proof.
  intros user ls.
  assert (Hl : getItem LAST_SYNC ls = Some (lit "1000")) by (vm_compute; reflexivity).
  assert (Hp : parseInt10 (lit "1000") = Some 1000%Z) by reflexivity.
  destruct (getAuthState_expired 86401001 86401002 1000 ls (lit "1000") Hl Hp
              ltac:(lia) ltac:(lia)) as (Huser & _).
  destruct (Huser ltac:(vm_compute; reflexivity)) as (Hstate & _ & _ & Hkept).
  split; [exact Hstate | exact Hkept].
Defined.

Lemma clearAll_removed ls k :
  getItem k (clearAll ls)
  = if bool_decide (In k [USER; USER_PROFILE; SESSION; LAST_SYNC]) then None
    else getItem k ls.
Proof.
  unfold clearAll. cbn [fold_left]. unfold getItem, removeItem.
  destruct (bool_decide_reflect (In k [USER; USER_PROFILE; SESSION; LAST_SYNC])) as [H | H].
  - cbn [In] in H. destruct H as [<- | [<- | [<- | [<- | []]]]];
      repeat first [apply lookup_delete_eq | rewrite lookup_delete_ne
                                               by (intros E; vm_compute in E; discriminate E)].
  - rewrite !lookup_delete_ne; [reflexivity | | | |];
      intros <-; apply H; cbn [In]; tauto.
Qed.



(** X6.  A stored time of the last synchronisation in which [parseInt] finds
    no number never expires: the comparison with NaN fails, so at every
    reading of the clock the readers return what is stored and leave the store
    as it is, and [hasValidStoredAuth] tells whether a user is stored. *)
Theorem unreadable_last_sync_never_expires :
  forall (ls : localStorage) (lastSync : jsstring),
    getItem LAST_SYNC ls = Some lastSync -> lastSync <> [] ->
    parseInt10 lastSync = None ->
    forall now : Z,
      getUser now ls = (safeJsonParse (getItem USER ls) JNull, ls) /\
      getUserProfile now ls = (safeJsonParse (getItem USER_PROFILE ls) JNull, ls) /\
      getSession now ls = (safeJsonParse (getItem SESSION ls) JNull, ls) /\
      forall now', hasValidStoredAuth now now' ls
                   = (truthy (safeJsonParse (getItem USER ls) JNull), ls).
Proof.
  intros ls lastSync Hl Hne Hp now.
  pose proof (read_entry_unreadable USER clearUser now _ _ Hl Hne Hp) as Hu.
  rewrite getUser_read, getUserProfile_read, getSession_read.
  split; [exact Hu |].
  split; [now apply (read_entry_unreadable _ _ _ _ lastSync) |].
  split; [now apply (read_entry_unreadable _ _ _ _ lastSync) |].
  intros now'. unfold hasValidStoredAuth. rewrite getUser_read, Hu, Hl.
  cbn [default from_option id]. rewrite Hp.
  destruct lastSync as [|c r]; [congruence |]. cbn [falsy_string isExpired negb].
  rewrite orb_false_r. now destruct (truthy _).
Qed.

Lemma unreadable_last_sync_never_expires_witness :
  let user := JObject [(lit "id", JString (lit "u1"))] in
  let ls := setItem LAST_SYNC (lit "NaN") (saveUser 1000 user ∅) in
  fst (getUser 99999999999999 ls) = user.
Proof.
  intros user ls.
  destruct (unreadable_last_sync_never_expires ls (lit "NaN"))
    with (now := 99999999999999%Z) as (H & _);
    [vm_compute; reflexivity | discriminate | reflexivity |].
  rewrite H. vm_compute. reflexivity.
Defined.

(** X7.  [refreshStoredData] makes every stored entry readable for the next 24
    hours, whatever time of the last synchronisation was stored before, and
    changes nothing else in the store. *)
Theorem refreshStoredData_restarts_the_window :
  forall (now now' : Z) (ls : localStorage),
    (now' - now <= 24 * 60 * 60 * 1000)%Z ->
    let ls' := refreshStoredData now ls in
    (forall k, k <> LAST_SYNC -> getItem k ls' = getItem k ls) /\
    getUser now' ls' = (safeJsonParse (getItem USER ls) JNull, ls') /\
    getUserProfile now' ls' = (safeJsonParse (getItem USER_PROFILE ls) JNull, ls') /\
    getSession now' ls' = (safeJsonParse (getItem SESSION ls) JNull, ls') /\
    hasValidStoredAuth now' now' ls'
    = (truthy (safeJsonParse (getItem USER ls) JNull), ls').
Proof.
  intros now now' ls Hwindow ls'.
  destruct keys_distinct as (Hup & Hus & Hul & Hps & Hpl & Hsl).
  assert (Hl : getItem LAST_SYNC ls' = Some (Z_toString now))
    by (unfold ls', refreshStoredData; now store_lookup).
  assert (Hframe : forall k, k <> LAST_SYNC -> getItem k ls' = getItem k ls)
    by (intros k Hk; unfold ls', refreshStoredData; now store_lookup).
  pose proof (parseInt10_toString now) as Hp.
  split; [exact Hframe |].
  rewrite getUser_read, getUserProfile_read, getSession_read.
  rewrite !(read_entry_fresh _ _ _ _ _ _ Hl Hp Hwindow).
  rewrite !Hframe by congruence.
  repeat split.
  rewrite (hasValidStoredAuth_fresh _ _ _ _ _ Hl Hp Hwindow).
  rewrite (isExpired_fresh _ _ Hwindow), Hframe by congruence.
  now rewrite andb_true_r.
Qed.

Lemma refreshStoredData_restarts_the_window_witness :
  let user := JObject [(lit "id", JString (lit "u1"))] in
  let ls := saveUser 1000 user ∅ in
  fst (getUser 500000000 ls) = JNull /\
  fst (getUser 500000000 (refreshStoredData 499999000 ls)) = user.
Proof.
  intros user ls. split; [vm_compute; reflexivity |].
  destruct (refreshStoredData_restarts_the_window 499999000 500000000 ls ltac:(lia))
    as (_ & H & _).
  rewrite H. vm_compute. reflexivity.
Defined.

(** X8.  Signing out leaves nothing to read. [clearAll] removes the four keys
    of the cache and nothing else; saving a null user removes the user and the
    time of the last synchronisation and nothing else, so the profile and the
    session stay in the store. After either of them every reader returns null,
    [hasValidStoredAuth] is false and the auth state is empty, whatever the
    clock says, and none of these reads changes the store. [signOut] clears
    the cache once the remote sign-out has returned, and not at all when it
    throws. *)
Theorem signing_out_leaves_nothing_to_read :
  forall (now : Z) (ls : localStorage),
    ((forall k, In k [USER; USER_PROFILE; SESSION; LAST_SYNC] ->
                getItem k (clearAll ls) = None) /\
     (forall k, ~ In k [USER; USER_PROFILE; SESSION; LAST_SYNC] ->
                getItem k (clearAll ls) = getItem k ls)) /\
    ((forall k, In k [USER; LAST_SYNC] -> getItem k (saveUser now JNull ls) = None) /\
     (forall k, ~ In k [USER; LAST_SYNC] ->
                getItem k (saveUser now JNull ls) = getItem k ls)) /\
    (forall ls', ls' = clearAll ls \/ ls' = saveUser now JNull ls ->
       forall now1 now2,
         getUser now1 ls' = (JNull, ls') /\
         getUserProfile now1 ls' = (JNull, ls') /\
         getSession now1 ls' = (JNull, ls') /\
         hasValidStoredAuth now1 now2 ls' = (false, ls') /\
         getAuthState now1 now2 ls'
         = ({| stored_user := JNull; stored_userProfile := JNull;
               stored_lastSync := Some 0%Z |}, ls')) /\
    (forall remote,
        AuthContext.signOut remote ls
        = match remote with
          | Returns _ => Returns (clearAll ls)
          | Throws e => Throws e
          end).
Proof.
  intros now ls.
  destruct keys_distinct as (Hup & Hus & Hul & Hps & Hpl & Hsl).
  assert (Hall : forall k, In k [USER; USER_PROFILE; SESSION; LAST_SYNC] ->
                           getItem k (clearAll ls) = None).
  { intros k Hk. rewrite clearAll_removed. now rewrite bool_decide_eq_true_2. }
  destruct (saveUser_removed now JNull ls eq_refl) as (Hu & Hl).
  split; [split; [exact Hall |] |].
  { intros k Hk. rewrite clearAll_removed. now rewrite bool_decide_eq_false_2. }
  split; [split |].
  { intros k [<- | [<- | []]]; assumption. }
  { intros k Hk. apply saveUser_frame; intros ->; apply Hk; cbn [In]; tauto. }
  split; [| intros [[]|e]; reflexivity].
  intros ls' Hls' now1 now2.
  assert (Hgone : getItem USER ls' = None /\ getItem LAST_SYNC ls' = None).
  { destruct Hls' as [-> | ->]; [| now split].
    split; apply Hall; cbn [In]; tauto. }
  destruct Hgone as (Hgu & Hgl).
  assert (Hread : forall now', getUser now' ls' = (JNull, ls')).
  { intros now'. rewrite getUser_read. apply read_entry_no_data. now rewrite Hgu. }
  assert (Hprofile : forall now', getUserProfile now' ls' = (JNull, ls')).
  { intros now'. rewrite getUserProfile_read. apply read_entry_no_sync. now rewrite Hgl. }
  split; [apply Hread |]. split; [apply Hprofile |].
  split; [rewrite getSession_read; apply read_entry_no_sync; now rewrite Hgl |].
  split; [now apply hasValidStoredAuth_null |].
  unfold getAuthState. now rewrite Hread, Hprofile, Hgl.
Qed.


Lemma read_entry_cases key clear now ls :
  read_entry key clear now ls = (safeJsonParse (getItem key ls) JNull, ls) \/
  read_entry key clear now ls = (JNull, ls) \/
  (read_entry key clear now ls = (JNull, clear ls) /\
   falsy_string (getItem key ls) = false /\
   exists lastSync ts, getItem LAST_SYNC ls = Some lastSync /\
                       parseInt10 lastSync = Some ts /\
                       (now - ts > 24 * 60 * 60 * 1000)%Z).
Proof.
  unfold read_entry. cbv zeta.
  destruct (falsy_string (getItem key ls)) eqn:Ek; [right; left; reflexivity |].
  destruct (getItem LAST_SYNC ls) as [[|c r]|] eqn:El;
    cbn [falsy_string orb default from_option id]; try (right; left; reflexivity).
  destruct (parseInt10 (c :: r)) as [ts|] eqn:Ep; [| left; reflexivity].
  destruct (isExpired now (Some ts)) eqn:Ee; [| left; reflexivity].
  right. right. split; [reflexivity |]. split; [reflexivity |].
  exists (c :: r), ts. repeat split; try assumption. now apply isExpired_spec.
Qed.

(** X9.  The readers never write: each leaves every key of the store as it is,
    except that [getUser] may remove the user and the time of the last
    synchronisation, [getUserProfile] the profile and [getSession] the
    session; and a reader that returns something other than null has left the
    whole store as it was. *)
Theorem readers_only_remove_their_own_keys :
  forall (now : Z) (ls : localStorage),
    (forall k, getItem k (snd (getUser now ls)) = getItem k ls \/
               (getItem k (snd (getUser now ls)) = None /\ (k = USER \/ k = LAST_SYNC))) /\
    (forall k, getItem k (snd (getUserProfile now ls)) = getItem k ls \/
               (getItem k (snd (getUserProfile now ls)) = None /\ k = USER_PROFILE)) /\
    (forall k, getItem k (snd (getSession now ls)) = getItem k ls \/
               (getItem k (snd (getSession now ls)) = None /\ k = SESSION)) /\
    (fst (getUser now ls) <> JNull -> snd (getUser now ls) = ls) /\
    (fst (getUserProfile now ls) <> JNull -> snd (getUserProfile now ls) = ls) /\
    (fst (getSession now ls) <> JNull -> snd (getSession now ls) = ls).
Proof.
  intros now ls.
  rewrite getUser_read, getUserProfile_read, getSession_read.
  assert (Hdata : forall key clear,
             fst (read_entry key clear now ls) <> JNull ->
             snd (read_entry key clear now ls) = ls).
  { intros key clear.
    destruct (read_entry_cases key clear now ls) as [-> | [-> | (-> & _)]];
      cbn [fst snd]; congruence. }
  split; [| split; [| split; [| repeat split; apply Hdata]]]; intros k.
  - destruct (read_entry_cases USER clearUser now ls) as [-> | [-> | (-> & _)]];
      cbn [snd]; try (left; reflexivity).
    unfold clearUser.
    destruct (decide (k = LAST_SYNC)) as [-> | Hl];
      [right; split; [now store_lookup | tauto] |].
    destruct (decide (k = USER)) as [-> | Hu];
      [right; split; [now store_lookup | tauto] |].
    left. now store_lookup.
  - destruct (read_entry_cases USER_PROFILE clearUserProfile now ls)
      as [-> | [-> | (-> & _)]]; cbn [snd]; try (left; reflexivity).
    unfold clearUserProfile.
    destruct (decide (k = USER_PROFILE)) as [-> | Hp];
      [right; split; [now store_lookup | reflexivity] |].
    left. now store_lookup.
  - destruct (read_entry_cases SESSION clearSession now ls)
      as [-> | [-> | (-> & _)]]; cbn [snd]; try (left; reflexivity).
    unfold clearSession.
    destruct (decide (k = SESSION)) as [-> | Hs];
      [right; split; [now store_lookup | reflexivity] |].
    left. now store_lookup.
Qed.

(** X10.  [hasValidStoredAuth] changes the store as [getUser] does. When it
    returns true, the store is as it was and [getUser] returns a user at the
    first reading of the clock and at every reading that is not later than the
    second; at one and the same reading of the clock it returns true exactly
    when [getUser] returns a user. *)
Theorem hasValidStoredAuth_agrees_with_getUser :
  forall (now1 now2 : Z) (ls : localStorage),
    snd (hasValidStoredAuth now1 now2 ls) = snd (getUser now1 ls) /\
    (fst (hasValidStoredAuth now1 now2 ls) = true ->
     truthy (fst (getUser now1 ls)) = true /\
     forall now, (now <= now2)%Z -> getUser now ls = (fst (getUser now1 ls), ls)) /\
    fst (hasValidStoredAuth now1 now1 ls) = truthy (fst (getUser now1 ls)).
Proof.
  intros now1 now2 ls.
  assert (Hsnd : forall now', snd (hasValidStoredAuth now1 now' ls) = snd (getUser now1 ls)).
  { intros now'. unfold hasValidStoredAuth. destruct (getUser now1 ls) as [user ls1].
    now destruct (negb (truthy user) || _). }
  split; [apply Hsnd |].
  unfold hasValidStoredAuth. rewrite !getUser_read.
  destruct (read_entry_cases USER clearUser now1 ls) as [E | [E | (E & _)]];
    rewrite E; cbn [fst snd truthy negb orb]; try (split; [discriminate | reflexivity]).
  destruct (truthy (safeJsonParse (getItem USER ls) JNull)) eqn:Et;
    cbn [negb orb]; [| split; [discriminate | reflexivity]].
  assert (Hdata : falsy_string (getItem USER ls) = false).
  { destruct (falsy_string (getItem USER ls)) eqn:Ef; [| reflexivity].
    rewrite (safeJsonParse_falsy _ _ Ef) in Et. discriminate Et. }
  unfold read_entry in E. cbv zeta in E. rewrite Hdata in E. cbn [orb] in E.
  destruct (getItem LAST_SYNC ls) as [[|c r]|] eqn:El;
    cbn [falsy_string default from_option id] in E |- *;
    try (rewrite (safeJsonParse_falsy (Some []) JNull eq_refl) in Et; discriminate Et);
    try (injection E as E; rewrite <- E in Et; discriminate Et).
  destruct (parseInt10 (c :: r)) as [ts|] eqn:Ep.
  - destruct (isExpired now1 (Some ts)) eqn:Ee1;
      [injection E as E; rewrite <- E in Et; discriminate Et |].
    split.
    + intros Hvalid. apply negb_true_iff in Hvalid. split; [reflexivity |].
      intros now Hnow.
      apply (read_entry_fresh _ _ _ ts _ (c :: r)); try assumption.
      assert (Hle : ~ (now2 - ts > 24 * 60 * 60 * 1000)%Z)
        by (intros Hgt; apply isExpired_spec in Hgt; congruence).
      lia.
    + reflexivity.
  - split; [| reflexivity]. intros _. split; [reflexivity |].
    intros now _. now apply (read_entry_unreadable _ _ _ _ (c :: r)).
Qed.


(** The last save wins: saving a user, a profile or a session over an
    earlier save gives the store that the later save alone gives, whether
    the values are null or not. *)
Lemma later_save_replaces_earlier_save :
  forall (now1 now2 : Z) (v1 v2 : json) (ls : localStorage),
    saveUser now2 v2 (saveUser now1 v1 ls) = saveUser now2 v2 ls /\
    saveUserProfile v2 (saveUserProfile v1 ls) = saveUserProfile v2 ls /\
    saveSession now2 v2 (saveSession now1 v1 ls) = saveSession now2 v2 ls.
Proof.
  intros now1 now2 v1 v2 ls.
  destruct keys_distinct as (Hup & Hus & Hul & Hps & Hpl & Hsl).
  unfold saveUser, saveUserProfile, saveSession, safeJsonStringify, JSON_stringify.
  destruct (print_value_nonempty v1) as (c1 & d1 & ->).
  destruct (print_value_nonempty v2) as (c2 & d2 & ->).
  split; [| split].
  - destruct (truthy v1), (truthy v2); apply map_eq; intros k;
      destruct (decide (k = LAST_SYNC)) as [-> | Hl]; try (now store_lookup);
      destruct (decide (k = USER)) as [-> | Hu]; now store_lookup.
  - destruct (truthy v1), (truthy v2); apply map_eq; intros k;
      destruct (decide (k = USER_PROFILE)) as [-> | Hp]; now store_lookup.
  - apply map_eq; intros k;
      destruct (decide (k = LAST_SYNC)) as [-> | Hl]; try (now store_lookup);
      destruct (decide (k = SESSION)) as [-> | Hs]; now store_lookup.
Qed.

End AuthStateCache.

(** ** Splitting a text *)

Section Splitting.

Lemma split_nonempty c s : split c s <> [].
Proof.
  destruct s as [|x r]; cbn [split]; [discriminate |].
  destruct (x =? c); [discriminate |]. destruct (split c r); discriminate.
Qed.

Lemma split_no_separator c s : ~ In c s -> split c s = [s].
Proof.
  induction s as [|x r IH]; intros H; cbn [split]; [reflexivity |].
  destruct (N.eqb_spec x c) as [-> | _].
  - exfalso. apply H. now left.
  - rewrite IH; [reflexivity |]. intros Hin. apply H. now right.
Qed.

Lemma split_at_separator c a b :
  ~ In c a -> split c (a ++ c :: b) = a :: split c b.
Proof.
  induction a as [|x r IH]; intros H; cbn [split app].
  - now rewrite N.eqb_refl.
  - destruct (N.eqb_spec x c) as [-> | _].
    + exfalso. apply H. now left.
    + rewrite IH; [reflexivity |]. intros Hin. apply H. now right.
Qed.

(** [s.split(c)[0]] *)
Lemma split_head c s : head (split c s) = Some (before_first c s).
Proof.
  induction s as [|x r IH]; cbn [split before_first]; [reflexivity |].
  destruct (x =? c); [reflexivity |].
  destruct (split c r) as [|p ps]; [discriminate IH |].
  cbn [head] in IH |- *. injection IH as ->. reflexivity.
Qed.

Lemma split_pieces c s p : In p (split c s) -> ~ In c p.
Proof.
  revert p. induction s as [|x r IH]; intros p; cbn [split].
  - intros [<- | []]. intros [].
  - destruct (N.eqb_spec x c) as [-> | Hx].
    + intros [<- | Hp]; [intros [] | now apply IH].
    + destruct (split c r) as [|q qs] eqn:E.
      * intros [<- | []]. intros [Hc | []]. congruence.
      * intros [<- | Hp].
        -- intros [Hc | Hc]; [congruence |]. apply (IH q); [now left | assumption].
        -- apply IH. now right.
Qed.

Lemma split_separator_count c s :
  List.length (split c s) = S (List.length (List.filter (N.eqb c) s)).
Proof.
  induction s as [|x r IH]; cbn [split List.filter]; [reflexivity |].
  rewrite (N.eqb_sym c x).
  destruct (x =? c); cbn [List.length]; [now rewrite IH |].
  destruct (split c r) as [|p ps]; cbn [List.length] in *; [discriminate IH | exact IH].
Qed.

(** [s.split(c).pop()] *)
Lemma split_last c s : last (split c s) = Some (after_last c s).
Proof.
  induction s as [|x r IH]; cbn [split after_last]; [reflexivity |].
  destruct (existsb (N.eqb c) r) eqn:Ex.
  - assert (Hlen : (2 <= List.length (split c r))%nat).
    { rewrite split_separator_count.
      apply existsb_exists in Ex as (y & Hy & E). apply N.eqb_eq in E. subst y.
      assert (Hf : In c (List.filter (N.eqb c) r))
        by (apply List.filter_In; split; [assumption | apply N.eqb_refl]).
      destruct (List.filter (N.eqb c) r); [contradiction | cbn [List.length]; lia]. }
    destruct (split c r) as [|p [|q qs]] eqn:E; cbn [List.length] in Hlen; try lia.
    destruct (x =? c); exact IH.
  - assert (Hno : ~ In c r).
    { intros Hin. apply not_true_iff_false in Ex. apply Ex.
      apply existsb_exists. exists c. split; [assumption | apply N.eqb_refl]. }
    rewrite (split_no_separator c r Hno) in *.
    destruct (x =? c); reflexivity.
Qed.

End Splitting.

(** ** Files, paths and URLs of supabaseStorage.ts *)

Section StorageObjects.

Import SupabaseStorage.

Lemma after_last_suffix c stem ext :
  ~ In c ext -> after_last c (stem ++ c :: ext) = ext.
Proof.
  intros Hext.
  assert (Hnone : existsb (N.eqb c) ext = false).
  { apply not_true_iff_false. intros H. apply existsb_exists in H as (y & Hy & E).
    apply N.eqb_eq in E. now subst y. }
  induction stem as [|x r IH]; cbn [app after_last].
  - now rewrite Hnone, N.eqb_refl.
  - assert (Hsome : existsb (N.eqb c) (r ++ c :: ext) = true).
    { apply existsb_exists. exists c. split; [| apply N.eqb_refl].
      apply in_or_app. right. now left. }
    now rewrite Hsome.
Qed.

Lemma after_last_whole c s : ~ In c s -> after_last c s = s.
Proof.
  intros H. pose proof (split_last c s) as Hl.
  rewrite (split_no_separator c s H) in Hl. cbn [last] in Hl. congruence.
Qed.

Lemma after_last_clean c s : ~ In c (after_last c s).
Proof.
  apply (split_pieces c s). pose proof (split_last c s) as H.
  apply last_Some in H as (l' & ->). apply in_or_app. right. now left.
Qed.

(** X11.  The extension given to an uploaded file is what follows the last dot
    of its name, and the default when nothing follows it (the name is empty or
    ends with a dot); a name without a dot is taken whole as its own
    extension. The extension holds no dot unless the default does. *)
Theorem extension_follows_the_last_dot :
  forall (file : File) (dflt : jsstring),
    extension file dflt
    = match last (split (ch ".") (file_name file)) with
      | Some (c :: r) => c :: r
      | _ => dflt
      end /\
    (forall stem ext, file_name file = stem ++ ch "." :: ext -> ~ In (ch ".") ext ->
                      extension file dflt = if bool_decide (ext = []) then dflt else ext) /\
    (~ In (ch ".") (file_name file) ->
     extension file dflt = if bool_decide (file_name file = []) then dflt
                           else file_name file) /\
    (~ In (ch ".") dflt -> ~ In (ch ".") (extension file dflt)).
Proof.
  intros file dflt. unfold extension. split; [| split; [| split]].
  - rewrite split_last. now destruct (after_last (ch ".") (file_name file)).
  - intros stem ext -> Hext. rewrite after_last_suffix by assumption.
    now destruct ext.
  - intros Hno. rewrite after_last_whole by assumption.
    now destruct (file_name file).
  - intros Hd. pose proof (after_last_clean (ch ".") (file_name file)) as Hc.
    now destruct (after_last (ch ".") (file_name file)).
Qed.



(** X12.  Deletions. A deletion issues one removal request, for the given path
    alone in the given bucket, and never throws: it reports success exactly
    when the store answers without an error, and otherwise carries the message
    of the store, or of what was thrown. The file that [deleteProfilePicture]
    and [deleteUserVideo] remove, when they are given the user id and the name
    under which the upload stored the file, is the one that the upload wrote:
    same bucket, same path. *)
Theorem deleteFile_addresses_what_upload_wrote :
  forall (remove : RemoveCall -> outcome RemoveAnswer),
    (forall bucket path,
        let call := {| remove_bucket := bucket; remove_paths := [path] |} in
        let result := snd (deleteFile remove bucket path) in
        fst (deleteFile remove bucket path) = [call] /\
        (deleted result = true <-> remove call = Returns Removed) /\
        (deleted result = true -> delete_error result = None) /\
        (forall message, remove call = Returns (NotRemoved message) ->
                         result = {| deleted := false; delete_error := Some message |}) /\
        (forall e, remove call = Throws e ->
                   result = {| deleted := false;
                               delete_error := Some (message_or e (lit "Unknown error")) |})) /\
    (forall (supabase : StorageClient) (now : Z) (file : File) (userId : jsstring)
            (customName : option jsstring),
        let written := fun c => {| remove_bucket := call_bucket c;
                                   remove_paths := [call_path c] |} in
        fst (deleteProfilePicture remove userId (profile_filename now file))
        = map written (fst (uploadProfilePicture supabase now file userId)) /\
        fst (deleteUserVideo remove userId (video_filename now file customName))
        = map written (fst (uploadUserVideo supabase now file userId customName)) /\
        (success (snd (uploadProfilePicture supabase now file userId)) = true ->
         path (snd (uploadProfilePicture supabase now file userId))
         = Some (userId ++ ch "/" :: profile_filename now file)) /\
        (success (snd (uploadUserVideo supabase now file userId customName)) = true ->
         path (snd (uploadUserVideo supabase now file userId customName))
         = Some (userId ++ ch "/" :: video_filename now file customName))).
Proof.
  intros remove. split.
  - intros bucket path call result. subst result. unfold deleteFile. fold call.
    cbn [fst snd]. split; [reflexivity |].
    destruct (remove call) as [[|m]|e]; cbn [deleted delete_error];
      repeat split; intros; try discriminate; try congruence.
  - intros supabase now file userId customName written.
    split; [reflexivity |]. split; [reflexivity |].
    unfold uploadProfilePicture, uploadUserVideo, uploadFile.
    cbn [snd opt_bucket opt_path opt_file opt_userId].
    split;
      match goal with
      | |- context [upload supabase ?c] => destruct (upload supabase c) as [[|m]|e]
      end; cbn [success path]; congruence.
Qed.


Lemma at_index_last {A} (l : list A) :
  at_index l (Z.of_nat (List.length l) - 1) = last l.
Proof.
  unfold at_index. destruct l as [|x r]; [reflexivity |].
  cbn [List.length].
  destruct (Z.ltb_spec (Z.of_nat (S (List.length r)) - 1) 0) as [H | _]; [lia |].
  replace (Z.to_nat (Z.of_nat (S (List.length r)) - 1)) with (List.length r) by lia.
  rewrite last_lookup. cbn [List.length Nat.pred]. reflexivity.
Qed.

Lemma findIndex_none {A} (test : A -> bool) l :
  (forall x, In x l -> test x = false) -> findIndex test l = (-1)%Z.
Proof.
  induction l as [|x r IH]; intros H; cbn [findIndex]; [reflexivity |].
  rewrite (H x) by now left. rewrite IH by (intros y Hy; apply H; now right).
  reflexivity.
Qed.

Lemma findIndex_first {A} (test : A -> bool) before x after :
  (forall y, In y before -> test y = false) -> test x = true ->
  findIndex test (before ++ x :: after) = Z.of_nat (List.length before).
Proof.
  intros Hb Hx. induction before as [|y r IH]; cbn [findIndex app List.length].
  - now rewrite Hx.
  - rewrite (Hb y) by now left. rewrite IH by (intros z Hz; apply Hb; now right).
    destruct (Z.ltb_spec (Z.of_nat (List.length r)) 0); lia.
Qed.

(** The pieces of the path of a public storage URL. *)
Lemma split_public_path bucket userId filename :
  ~ In (ch "/") bucket -> ~ In (ch "/") userId -> ~ In (ch "/") filename ->
  split (ch "/") (lit "/storage/v1/object/public/" ++ bucket ++ ch "/" :: userId
                  ++ ch "/" :: filename)
  = [[]; lit "storage"; lit "v1"; lit "object"; lit "public"; bucket; userId; filename].
Proof.
  intros Hb Hu Hf.
  change (lit "/storage/v1/object/public/" ++ bucket ++ ch "/" :: userId
          ++ ch "/" :: filename)
    with ([] ++ ch "/" :: lit "storage" ++ ch "/" :: lit "v1" ++ ch "/" :: lit "object"
          ++ ch "/" :: lit "public" ++ ch "/" :: bucket ++ ch "/" :: userId
          ++ ch "/" :: filename).
  rewrite !split_at_separator; try assumption; try absent; try (intros []).
  now rewrite split_no_separator.
Qed.

(** X13.  Reading a public storage URL. When the path of the URL is
    /storage/v1/object/public/<bucket>/<user id>/<file name>, with no slash in
    the three names, [extractFilenameFromUrl] returns the file name and
    [extractUserIdFromUrl] the user id, or null when the id is empty. Both
    return null for a text that is not a URL, and for a URL
    [extractFilenameFromUrl] always returns a text: what follows the last
    slash of the path. When no segment of the path is "public", the index is
    -1 + 2, and [extractUserIdFromUrl] returns the segment that follows the
    first slash, whatever it is. *)
Theorem storage_url_is_read_back :
  forall (URL_pathname : UrlParser) (url : jsstring),
    (forall bucket userId filename,
        URL_pathname url
        = Returns (lit "/storage/v1/object/public/" ++ bucket ++ ch "/" :: userId
                   ++ ch "/" :: filename) ->
        ~ In (ch "/") bucket -> ~ In (ch "/") userId -> ~ In (ch "/") filename ->
        extractFilenameFromUrl URL_pathname url = Some filename /\
        extractUserIdFromUrl URL_pathname url
        = if bool_decide (userId = []) then None else Some userId) /\
    (forall e, URL_pathname url = Throws e ->
               extractFilenameFromUrl URL_pathname url = None /\
               extractUserIdFromUrl URL_pathname url = None) /\
    (forall pathname, URL_pathname url = Returns pathname ->
                      extractFilenameFromUrl URL_pathname url
                      = Some (after_last (ch "/") pathname)) /\
    (forall first rest,
        URL_pathname url = Returns (ch "/" :: first ++ rest) ->
        ~ In (ch "/") first -> first <> [] -> (rest = [] \/ exists r, rest = ch "/" :: r) ->
        ~ In (lit "public") (split (ch "/") (ch "/" :: first ++ rest)) ->
        extractUserIdFromUrl URL_pathname url = Some first).
Proof.
  intros URL_pathname url. split; [| split; [| split]].
  - intros bucket userId filename Hurl Hb Hu Hf.
    unfold extractFilenameFromUrl, extractUserIdFromUrl. rewrite Hurl. cbv zeta.
    rewrite split_public_path by assumption. split; [reflexivity |].
    rewrite (findIndex_first _ [[]; lit "storage"; lit "v1"; lit "object"]
               (lit "public") [bucket; userId; filename]).
    + cbn. destruct userId; reflexivity.
    + intros y Hy. cbn [In] in Hy.
      repeat (destruct Hy as [<- | Hy]; [reflexivity |]). contradiction.
    + reflexivity.
  - intros e Hurl. unfold extractFilenameFromUrl, extractUserIdFromUrl.
    now rewrite Hurl.
  - intros pathname Hurl. unfold extractFilenameFromUrl. rewrite Hurl. cbv zeta.
    rewrite at_index_last. apply split_last.
  - intros first rest Hurl Hfirst Hne Hrest Hpublic.
    unfold extractUserIdFromUrl. rewrite Hurl. cbv zeta.
    rewrite findIndex_none.
    + assert (Hsplit : exists more, split (ch "/") (ch "/" :: first ++ rest)
                                    = [] :: first :: more).
      { change (ch "/" :: first ++ rest) with ([] ++ ch "/" :: first ++ rest).
        rewrite split_at_separator by (intros []).
        destruct Hrest as [-> | (r & ->)].
        - rewrite app_nil_r, split_no_separator by assumption. now exists [].
        - rewrite split_at_separator by assumption. eauto. }
      destruct Hsplit as (more & ->). cbn. now destruct first.
    + intros x Hx. apply bool_decide_eq_false_2. intros ->. contradiction.
Qed.

Lemma storage_url_is_read_back_witness :
  let url := lit "https://abc.supabase.co/storage/v1/object/public/profile_pictures/u1/profile_17.png" in
  let URL_pathname : UrlParser := fun u =>
    if bool_decide (u = url)
    then Returns (lit "/storage/v1/object/public/profile_pictures/u1/profile_17.png")
    else Throws (ErrorObject (lit "Invalid URL")) in
  extractFilenameFromUrl URL_pathname url = Some (lit "profile_17.png") /\
  extractUserIdFromUrl URL_pathname url = Some (lit "u1").
Proof.
  intros url URL_pathname.
  destruct (storage_url_is_read_back URL_pathname url) as (H & _).
  apply (H (lit "profile_pictures") (lit "u1") (lit "profile_17.png"));
    [reflexivity | absent | absent | absent].
Defined.


Lemma validateFile_valid file allowedTypes maxSizeInBytes :
  valid (validateFile file allowedTypes maxSizeInBytes) = true <->
  In (file_type file) allowedTypes /\ (file_size file <= maxSizeInBytes)%Z.
Proof.
  unfold validateFile.
  destruct (includes_type allowedTypes (file_type file)) eqn:Et; cbn [negb].
  - apply includes_type_In in Et.
    destruct (Z.gtb_spec (file_size file) maxSizeInBytes); cbn [valid]; split;
      try discriminate; try tauto; try (intros; split; [assumption | lia]); lia.
  - cbn [valid]. split; [discriminate |]. intros [H _].
    apply includes_type_In in H. congruence.
Qed.

(** X14.  The messages of a refused file. A type outside the list is reported
    first, with the list joined by commas, whatever the size. A file of an
    allowed type that is too large is told the limit in MB: the limit divided
    by 1024 * 1024 and rounded to the nearest integer, halves upwards; this is
    stated for a limit that a number holds exactly (below 2^53 in absolute
    value), whose quotient is written with all its digits. For profile
    pictures and for videos these are fixed texts. *)
Theorem validateFile_messages :
  forall (file : File),
    (forall allowedTypes maxSizeInBytes,
        (~ In (file_type file) allowedTypes ->
         verror (validateFile file allowedTypes maxSizeInBytes)
         = Some (lit "File type not allowed. Allowed types: "
                 ++ join (lit ", ") allowedTypes)) /\
        (In (file_type file) allowedTypes -> (file_size file > maxSizeInBytes)%Z ->
         (Z.abs maxSizeInBytes < 2 ^ 53)%Z ->
         exists maxSizeMB,
           verror (validateFile file allowedTypes maxSizeInBytes)
           = Some (lit "File too large. Maximum size: " ++ Z_toString maxSizeMB ++ lit "MB") /\
           ((2 * maxSizeMB - 1) * (1024 * 1024) <= 2 * maxSizeInBytes
            < (2 * maxSizeMB + 1) * (1024 * 1024))%Z)) /\
    (~ In (file_type file) profile_picture_types ->
     verror (validateProfilePicture file)
     = Some (lit "File type not allowed. Allowed types: image/jpeg, image/png, image/gif, image/webp")) /\
    (In (file_type file) profile_picture_types -> (file_size file > 5 * 1024 * 1024)%Z ->
     verror (validateProfilePicture file) = Some (lit "File too large. Maximum size: 5MB")) /\
    (~ In (file_type file) user_video_types ->
     verror (validateUserVideo file)
     = Some (lit "File type not allowed. Allowed types: video/mp4, video/webm, video/quicktime, video/x-msvideo")) /\
    (In (file_type file) user_video_types -> (file_size file > 50 * 1024 * 1024)%Z ->
     verror (validateUserVideo file) = Some (lit "File too large. Maximum size: 50MB")).
Proof.
  intros file.
  assert (Htype : forall allowedTypes maxSizeInBytes,
             ~ In (file_type file) allowedTypes ->
             verror (validateFile file allowedTypes maxSizeInBytes)
             = Some (lit "File type not allowed. Allowed types: "
                     ++ join (lit ", ") allowedTypes)).
  { intros allowedTypes maxSizeInBytes Hn. unfold validateFile.
    destruct (includes_type allowedTypes (file_type file)) eqn:Et; [| reflexivity].
    apply includes_type_In in Et. contradiction. }
  assert (Hsize : forall allowedTypes maxSizeInBytes,
             In (file_type file) allowedTypes -> (file_size file > maxSizeInBytes)%Z ->
             verror (validateFile file allowedTypes maxSizeInBytes)
             = Some (lit "File too large. Maximum size: "
                     ++ Z_toString (round_div maxSizeInBytes (1024 * 1024)) ++ lit "MB")).
  { intros allowedTypes maxSizeInBytes Hin Hgt. unfold validateFile.
    apply includes_type_In in Hin. rewrite Hin. cbn [negb].
    destruct (Z.gtb_spec (file_size file) maxSizeInBytes); [reflexivity | lia]. }
  split; [| split; [| split; [| split]]].
  - intros allowedTypes maxSizeInBytes. split; [apply Htype |].
    intros Hin Hgt _. exists (round_div maxSizeInBytes (1024 * 1024)).
    split; [now apply Hsize |]. unfold round_div.
    pose proof (Z.div_mod (2 * maxSizeInBytes + 1024 * 1024) (2 * (1024 * 1024))
                  ltac:(lia)) as Hd.
    pose proof (Z.mod_pos_bound (2 * maxSizeInBytes + 1024 * 1024) (2 * (1024 * 1024))
                  ltac:(lia)) as Hm.
    lia.
  - intros Hn. unfold validateProfilePicture. cbv zeta. now rewrite Htype.
  - intros Hin Hgt. unfold validateProfilePicture. cbv zeta. now rewrite Hsize.
  - intros Hn. unfold validateUserVideo. cbv zeta. now rewrite Htype.
  - intros Hin Hgt. unfold validateUserVideo. cbv zeta. now rewrite Hsize.
Qed.

End StorageObjects.

(** ** The storage buckets and their policies *)

Section Buckets.

Import SupabaseStorage Rls.

(** X15.  The checks of the browser and the limits of the buckets agree: a
    profile picture, and a video, passes the validation of the client exactly
    when its type is in the list of the bucket of the set-up script and its
    size is within the limit of that bucket; and each upload addresses the
    bucket whose limits its validation applies. *)
Theorem validators_agree_with_the_buckets :
  forall (file : File),
    (valid (validateProfilePicture file) = true <->
     In (file_type file) (allowed_mime_types profile_pictures_bucket) /\
     (file_size file <= file_size_limit profile_pictures_bucket)%Z) /\
    (valid (validateUserVideo file) = true <->
     In (file_type file) (allowed_mime_types user_videos_bucket) /\
     (file_size file <= file_size_limit user_videos_bucket)%Z) /\
    (forall supabase now userId c,
        In c (fst (uploadProfilePicture supabase now file userId)) ->
        call_bucket c = bucket_name profile_pictures_bucket) /\
    (forall supabase now userId customName c,
        In c (fst (uploadUserVideo supabase now file userId customName)) ->
        call_bucket c = bucket_name user_videos_bucket).
Proof.
  intros file. split; [| split; [| split]].
  - unfold validateProfilePicture. cbv zeta. apply validateFile_valid.
  - unfold validateUserVideo. cbv zeta. apply validateFile_valid.
  - intros supabase now userId c [<- | []]. reflexivity.
  - intros supabase now userId customName c [<- | []]. reflexivity.
Qed.

Lemma before_first_prefix c s :
  In c s -> exists rest, s = before_first c s ++ c :: rest /\ ~ In c (before_first c s).
Proof.
  induction s as [|x r IH]; intros H; [contradiction |]. cbn [before_first].
  destruct (N.eqb_spec x c) as [-> | Hx].
  - exists r. split; [reflexivity | intros []].
  - destruct H as [H | H]; [congruence |].
    destruct (IH H) as (rest & E & Hn). exists rest. split.
    + cbn [app]. now rewrite <- E.
    + intros [Hc | Hc]; [congruence | contradiction].
Qed.

(** The first folder of a path is what precedes its first slash; a path
    without a slash has no folder. *)
Lemma foldername_first name :
  match foldername name with
  | folder :: _ => In (ch "/") name /\ folder = before_first (ch "/") name
  | [] => ~ In (ch "/") name
  end.
Proof.
  unfold foldername.
  destruct (in_dec N.eq_dec (ch "/") name) as [Hin | Hno].
  - destruct (before_first_prefix _ _ Hin) as (rest & E & Hn).
    remember (before_first (ch "/") name) as folder eqn:Ef.
    rewrite E. rewrite split_at_separator by assumption.
    pose proof (split_nonempty (ch "/") rest) as Hne.
    destruct (split (ch "/") rest) as [|p ps]; [congruence |].
    cbn [removelast]. split; [rewrite <- E; assumption | reflexivity].
  - now rewrite split_no_separator.
Qed.

Lemma in_own_folder_spec bucket uid r :
  in_own_folder bucket uid r = true <->
  bucket_id r = bucket /\
  exists caller rest, uid = Some caller /\ ~ In (ch "/") caller /\
                      object_name r = caller ++ ch "/" :: rest.
Proof.
  unfold in_own_folder. rewrite andb_true_iff, bool_decide_eq_true.
  pose proof (foldername_first (object_name r)) as Hf.
  split.
  - intros [Hb Hu]. split; [assumption |].
    destruct (foldername (object_name r)) as [|folder more]; [discriminate |].
    destruct Hf as [Hin ->]. destruct uid as [caller|]; [| discriminate].
    apply bool_decide_eq_true in Hu. subst caller.
    destruct (before_first_prefix _ _ Hin) as (rest & E & Hn). eauto.
  - intros [Hb (caller & rest & -> & Hn & E)]. split; [assumption |].
    rewrite E in Hf |- *. unfold foldername in *.
    rewrite split_at_separator in * by assumption.
    pose proof (split_nonempty (ch "/") rest) as Hne.
    destruct (split (ch "/") rest) as [|p ps]; [congruence |].
    cbn [removelast]. now apply bool_decide_eq_true.
Qed.

(** X16.  The policies of [storage.objects]. A caller may insert, update or
    delete an object exactly when the object is in one of the two buckets and
    its path starts with the caller's own id followed by a slash; a caller who
    is not signed in may do none of these. Every caller may read the objects
    of the two buckets, and nothing else. *)
Theorem storage_policies_keep_users_in_their_folder :
  forall (uid : option jsstring) (r : ObjectRow),
    let in_buckets := fun x : ObjectRow =>
      bucket_id x = lit "profile_pictures" \/ bucket_id x = lit "user_videos" in
    let own := fun x : ObjectRow =>
      in_buckets x /\
      exists caller rest, uid = Some caller /\ ~ In (ch "/") caller /\
                          object_name x = caller ++ ch "/" :: rest in
    (can_insert storage_objects_policies uid r = true <-> own r) /\
    (can_delete storage_objects_policies uid r = true <-> own r) /\
    (forall new, can_update storage_objects_policies uid r new = true <-> own r /\ own new) /\
    (can_select storage_objects_policies uid r = true <-> in_buckets r).
Proof.
  intros uid r in_buckets own.
  assert (Hown : forall x,
             in_own_folder (lit "profile_pictures") uid x
             || (in_own_folder (lit "user_videos") uid x || false) = true <-> own x).
  { intros x. rewrite orb_false_r, orb_true_iff, !in_own_folder_spec.
    unfold own, in_buckets. tauto. }
  split; [| split; [| split]].
  - apply Hown.
  - apply Hown.
  - intros new. unfold can_update. rewrite andb_true_iff.
    rewrite <- (Hown r), <- (Hown new). reflexivity.
  - unfold can_select, passes_using. cbn -[lit].
    rewrite orb_false_r, orb_true_iff, !bool_decide_eq_true. reflexivity.
Qed.


(** X17.  Uploads meet the policies. The object that [uploadProfilePicture] or
    [uploadUserVideo] writes for a user id without a slash may be inserted,
    and replaced, by the caller whose id is that user id and by no other
    caller, signed in or not; everybody may read it. *)
Theorem uploads_pass_the_policies_for_their_owner_only :
  forall (supabase : StorageClient) (now : Z) (file : File) (userId : jsstring)
         (customName : option jsstring),
    ~ In (ch "/") userId ->
    forall c,
      In c (fst (uploadProfilePicture supabase now file userId)) \/
      In c (fst (uploadUserVideo supabase now file userId customName)) ->
      let r := {| bucket_id := call_bucket c; object_name := call_path c |} in
      (forall caller,
          (can_insert storage_objects_policies (Some caller) r = true <-> caller = userId) /\
          (can_update storage_objects_policies (Some caller) r r = true <-> caller = userId)) /\
      can_insert storage_objects_policies None r = false /\
      can_update storage_objects_policies None r r = false /\
      (forall uid, can_select storage_objects_policies uid r = true).
Proof.
  intros supabase now file userId customName Hslash c Hc r.
  assert (Hr : exists bucket filename,
             (bucket = lit "profile_pictures" \/ bucket = lit "user_videos") /\
             r = {| bucket_id := bucket; object_name := userId ++ ch "/" :: filename |}).
  { destruct Hc as [[<- | []] | [<- | []]]; eexists _, _; (split; [| reflexivity]); tauto. }
  destruct Hr as (bucket & filename & Hbucket & ->).
  assert (Hown : forall uid,
             in_own_folder (lit "profile_pictures") uid
               {| bucket_id := bucket; object_name := userId ++ ch "/" :: filename |}
             || (in_own_folder (lit "user_videos") uid
                   {| bucket_id := bucket; object_name := userId ++ ch "/" :: filename |}
                 || false) = true <-> uid = Some userId).
  { intros uid. rewrite orb_false_r, orb_true_iff, !in_own_folder_spec.
    cbn [bucket_id object_name]. split.
    - intros [(_ & caller & rest & -> & Hn & E) | (_ & caller & rest & -> & Hn & E)];
        f_equal;
        rewrite <- (first_segment_prefix caller rest Hn), <- E;
        now apply first_segment_prefix.
    - intros ->. destruct Hbucket as [-> | ->]; [left | right];
        (split; [reflexivity | eauto]). }
  split; [| split; [| split]].
  - intros caller. unfold can_update, can_insert, passes_using, passes_check.
    cbn -[in_own_folder lit]. rewrite andb_diag.
    rewrite (Hown (Some caller)). split; split; congruence.
  - apply not_true_iff_false. intros H. apply (Hown None) in H. discriminate H.
  - apply not_true_iff_false. intros H. unfold can_update in H.
    apply andb_true_iff in H as [H _]. apply (Hown None) in H. discriminate H.
  - intros uid. unfold can_select, passes_using. cbn -[lit].
    destruct Hbucket as [-> | ->]; reflexivity.
Qed.

Lemma uploads_pass_the_policies_for_their_owner_only_witness :
  let supabase := {| upload := fun _ => Returns Stored;
                     getPublicUrl := fun bucket p => bucket ++ ch "/" :: p |} in
  let file := {| file_name := lit "me.png"; file_type := lit "image/png";
                 file_size := 1024 |} in
  let r := {| bucket_id := lit "profile_pictures";
              object_name := lit "u1/profile_17.png" |} in
  can_insert storage_objects_policies (Some (lit "u1")) r = true /\
  can_insert storage_objects_policies None r = false.
Proof.
  intros supabase file r.
  assert (Hslash : ~ In (ch "/") (lit "u1")) by absent.
  destruct (uploads_pass_the_policies_for_their_owner_only
              supabase 17 file (lit "u1") None Hslash
              {| call_bucket := lit "profile_pictures";
                 call_path := lit "u1/profile_17.png"; call_file := file |})
    as (Hcaller & Hanon & _).
  - left. left. reflexivity.
  - split; [| exact Hanon]. now apply (Hcaller (lit "u1")).
Defined.

(** X18.  The policies of the two tables admit exactly the owner. A caller may
    insert a profile row or a trick row exactly when the row carries the
    caller's own id, update a row exactly when both the row and what it
    becomes carry that id, so that a row cannot be handed to somebody else,
    and delete a trick exactly when it carries that id. Nobody, the owner
    included, may delete a profile row, and a caller who is not signed in may
    write nothing. *)
Theorem table_policies_admit_exactly_the_owner :
  forall (uid : option jsstring),
    (forall r : UserRow,
        (can_insert users_policies uid r = true <-> uid = Some (id r)) /\
        (forall new, can_update users_policies uid r new = true <->
                     uid = Some (id r) /\ uid = Some (id new)) /\
        can_delete users_policies uid r = false) /\
    (forall r : MagicTrickRow,
        (can_insert magic_tricks_policies uid r = true <-> uid = Some (user_id r)) /\
        (forall new, can_update magic_tricks_policies uid r new = true <->
                     uid = Some (user_id r) /\ uid = Some (user_id new)) /\
        (can_delete magic_tricks_policies uid r = true <-> uid = Some (user_id r))).
Proof.
  intros uid.
  assert (Huid : forall column, uid_is uid column || false = true <-> uid = Some column).
  { intros column. rewrite orb_false_r. unfold uid_is. destruct uid as [u|].
    - rewrite bool_decide_eq_true. split; congruence.
    - split; discriminate. }
  split; intros r; unfold can_insert, can_update, can_delete, passes_check, passes_using;
    cbn -[uid_is].
  - split; [apply Huid |]. split; [| reflexivity].
    intros new. rewrite andb_true_iff, !Huid. reflexivity.
  - split; [apply Huid |]. split; [| apply Huid].
    intros new. rewrite andb_true_iff, !Huid. reflexivity.
Qed.

End Buckets.

(** ** Generation and the reply parser of claude.ts *)

Section ReplyRoundTrip.

Import Claude.

(** X19.  A call succeeds exactly when a key is configured, the client is
    built, the remote call returns and its first block holds a non-empty text;
    the trick is then what the parser makes of that text and of the requested
    items. Without a key nothing of the SDK is looked at: the response does
    not depend on it. *)
Theorem generateMagicTrick_succeeds_exactly_on_a_reply :
  forall (key : option jsstring) (sdk : Anthropic) (request : TrickGenerationRequest),
    (forall response,
        generateMagicTrick key sdk request = Returns response ->
        (success response = true <->
         isClaudeConfigured key = true /\ new_client sdk = Returns tt /\
         exists content c cs,
           messages_create sdk = Returns content /\ first_text content = Some (c :: cs) /\
           response = {| success := true;
                         trick := Some (parseGeneratedTrick (c :: cs) (req_items request));
                         error := None |})) /\
    (isClaudeConfigured key = false ->
     forall sdk', generateMagicTrick key sdk' request = generateMagicTrick key sdk request).
Proof.
  intros key sdk request. unfold isClaudeConfigured, generateMagicTrick. cbv zeta.
  destruct (falsy_string key) eqn:Ek; cbn [negb].
  - split; [| reflexivity]. intros response H. injection H as <-. cbn [success].
    split; [discriminate | intros [H _]; discriminate H].
  - split; [| discriminate]. intros response.
    destruct (new_client sdk) as [[]|e0] eqn:En; cbn;
      [destruct (messages_create sdk) as [content|e1] eqn:Em; cbn;
       [destruct (first_text content) as [[|c cs]|] eqn:Ec; cbn |] |];
      intros H; injection H as <-; cbn [success]; split; try discriminate;
      try (intros (_ & Hn & content' & c' & cs' & Hm & Hc & _); congruence).
    intros _. split; [reflexivity |]. split; [reflexivity |].
    exists content, c, cs. repeat split. assumption.
Qed.

Lemma from_first_split c s t :
  from_first c s = Some t ->
  exists pre r, s = pre ++ c :: r /\ t = c :: r /\ ~ In c pre.
Proof.
  revert t. induction s as [|x s IH]; intros t H; cbn [from_first] in H; [discriminate |].
  destruct (N.eqb_spec x c) as [-> | Hx].
  - injection H as <-. exists [], s. repeat split. intros [].
  - destruct (IH _ H) as (pre & r & -> & -> & Hn). exists (x :: pre), r.
    repeat split. intros [Hc | Hc]; [congruence | contradiction].
Qed.

Lemma up_to_last_split c s p :
  up_to_last c s = Some p ->
  exists mid post, s = mid ++ c :: post /\ p = mid ++ [c] /\ ~ In c post.
Proof.
  revert p. induction s as [|x s IH]; intros p H; cbn [up_to_last] in H; [discriminate |].
  destruct (up_to_last c s) as [q|] eqn:E.
  - injection H as <-. destruct (IH _ eq_refl) as (mid & post & -> & -> & Hn).
    exists (x :: mid), post. repeat split. assumption.
  - destruct (N.eqb_spec x c) as [-> | Hx]; [| discriminate].
    injection H as <-. exists [], s. repeat split.
    intros Hin. destruct (in_split _ _ Hin) as (a & b & ->).
    clear IH Hin. revert E. induction a as [|y a IHa]; cbn [app up_to_last].
    + destruct (up_to_last c b); [discriminate |]. now rewrite N.eqb_refl.
    + destruct (up_to_last c (a ++ c :: b)); [discriminate | intros _; now apply IHa].
Qed.

(** X20.  The span that the parser takes from a reply runs from the first
    opening brace of the reply to its last closing brace, and there is one
    exactly when a closing brace follows the first opening brace. *)
Theorem match_braces_runs_from_first_open_to_last_close :
  forall (content span : jsstring),
    match_braces content = Some span <->
    exists pre mid post,
      content = pre ++ (ch "{" :: mid ++ [ch "}"]) ++ post /\
      span = ch "{" :: mid ++ [ch "}"] /\
      ~ In (ch "{") pre /\ ~ In (ch "}") post.
Proof.
  intros content span. split.
  - unfold match_braces.
    destruct (from_first (ch "{") content) as [[|b r]|] eqn:Ef; try discriminate.
    destruct (from_first_split _ _ _ Ef) as (pre & r' & -> & Hr & Hpre).
    injection Hr as -> ->.
    destruct (up_to_last (ch "}") r') as [body|] eqn:Eu; [| discriminate].
    destruct (up_to_last_split _ _ _ Eu) as (mid & post & -> & -> & Hpost).
    intros H. injection H as <-. exists pre, mid, post.
    repeat split; try assumption. cbn [app]. now rewrite <- app_assoc.
  - intros (pre & mid & post & -> & -> & Hpre & Hpost). now apply match_braces_span.
Qed.

Lemma join_elements_close texts close :
  exists mid, join_elements texts close = mid ++ [close].
Proof.
  induction texts as [|t rest IH]; cbn [join_elements]; [now exists [] |].
  destruct rest as [|t' rest']; [now exists t |].
  destruct IH as (mid & ->). exists (t ++ ch "," :: mid).
  now rewrite <- app_assoc.
Qed.

(** X21.  The reply parser reads back a printed trick. When the reply is prose
    without an opening brace, then the text that [JSON.stringify] gives for an
    object with a non-empty title and description, an array of instructions,
    one of the three difficulties and an array of items, then prose without a
    closing brace, the parser returns exactly these five fields, whatever
    other keys the object holds. *)
Theorem parseGeneratedTrick_reads_back_a_printed_object :
  forall (pre post : jsstring) (requestedItems : list jsstring)
         (o : list (jsstring * json)) (ttl desc level : jsstring) (steps its : list json),
    ~ In (ch "{") pre -> ~ In (ch "}") post ->
    wf_json (JObject o) = true ->
    lookup_prop (lit "title") o = Some (JString ttl) -> ttl <> [] ->
    lookup_prop (lit "description") o = Some (JString desc) -> desc <> [] ->
    lookup_prop (lit "instructions") o = Some (JArray steps) ->
    lookup_prop (lit "difficulty") o = Some (JString level) ->
    In level [lit "Easy"; lit "Medium"; lit "Hard"] ->
    lookup_prop (lit "items") o = Some (JArray its) ->
    parseGeneratedTrick (pre ++ print_value (JObject o) ++ post) requestedItems
    = {| title := JString ttl; description := JString desc;
         instructions := JArray steps; difficulty := JString level;
         items := JArray its |}.
Proof.
  intros pre post requestedItems o ttl desc level steps its
         Hpre Hpost Hwf Ht Httl Hd Hdesc Hs Hl Hlevel Hi.
  pose proof (JSON_parse_stringify _ Hwf) as Hparse.
  cbn [print_value] in Hparse |- *.
  destruct (join_elements_close
              (map (fun kv => quote (fst kv) ++ ch ":" :: print_value (snd kv)) o)
              (ch "}")) as (mid & Emid).
  rewrite Emid in Hparse |- *.
  unfold parseGeneratedTrick.
  rewrite (match_braces_span pre mid post Hpre Hpost), Hparse.
  unfold cleaned_trick. cbn [prop]. rewrite Ht, Hd, Hs, Hl, Hi. cbn [or_else].
  rewrite (proj2 (truthy_string ttl) Httl), (proj2 (truthy_string desc) Hdesc).
  assert (Hin : includes_string difficulties (Some (JString level)) = true)
    by (apply includes_string_In; eauto).
  now rewrite Hin.
Qed.

Lemma parseGeneratedTrick_reads_back_a_printed_object_witness :
  let o := [(lit "title", JString (lit "Coin Vanish"));
            (lit "description", JString (lit "A coin disappears."));
            (lit "instructions", JArray [JString (lit "Show the coin")]);
            (lit "difficulty", JString (lit "Hard"));
            (lit "items", JArray [JString (lit "Coins")]);
            (lit "rating", JNumber 45 (-1))] in
  parseGeneratedTrick (lit "Here it is: " ++ print_value (JObject o) ++ lit " Enjoy.") []
  = {| title := JString (lit "Coin Vanish");
       description := JString (lit "A coin disappears.");
       instructions := JArray [JString (lit "Show the coin")];
       difficulty := JString (lit "Hard");
       items := JArray [JString (lit "Coins")] |}.
Proof.
  intros o.
  apply parseGeneratedTrick_reads_back_a_printed_object;
    try absent; try reflexivity; try discriminate.
  cbn [In]. tauto.
Defined.

(** *** The prompt and the parser *)

Lemma join_without c sep parts :
  ~ In c sep -> (forall p, In p parts -> ~ In c p) -> ~ In c (join sep parts).
Proof.
  intros Hsep. induction parts as [|p rest IH]; intros Hparts; [easy |].
  destruct rest as [|q rest].
  - cbn [join]. apply Hparts. now left.
  - change (join sep (p :: q :: rest)) with (p ++ sep ++ join sep (q :: rest)).
    rewrite !in_app_iff. intros [H | [H | H]].
    + apply (Hparts p); [now left | exact H].
    + now apply Hsep.
    + apply IH; [| exact H]. intros p' Hp'. apply Hparts. now right.
Qed.

Lemma match_braces_after pre s :
  ~ In (ch "{") pre -> match_braces (pre ++ s) = match_braces s.
Proof.
  intros Hpre. unfold match_braces.
  replace (from_first (ch "{") (pre ++ s)) with (from_first (ch "{") s); [reflexivity |].
  induction pre as [|x pre IH]; [reflexivity |].
  cbn [app from_first].
  destruct (N.eqb_spec x (ch "{")) as [-> | _].
  - exfalso. apply Hpre. now left.
  - apply IH. intros H. apply Hpre. now right.
Qed.

Lemma getDifficultyDescription_no_brace difficulty :
  ~ In (ch "{") (getDifficultyDescription difficulty).
Proof.
  unfold getDifficultyDescription.
  repeat case_bool_decide; vm_compute; intuition discriminate.
Qed.

(** The structure that the prompt asks for is one that the parser reads. For
    a request with one of the three difficulties (or none: the default is
    Easy), and with no opening brace in its items and its additional context,
    the parser applied to the prompt itself finds the skeleton of the prompt,
    parses it, and returns its five placeholders, with the difficulty of the
    request: a reply that repeats the skeleton is taken for a trick. *)
Lemma the_skeleton_of_the_prompt_is_read_as_a_trick :
  forall (request : TrickGenerationRequest) (requestedItems : list jsstring),
    In (default (lit "Easy") (req_difficulty request)) difficulties ->
    (forall item, In item (req_items request) -> ~ In (ch "{") item) ->
    ~ In (ch "{") (default [] (req_additionalContext request)) ->
    parseGeneratedTrick (createTrickGenerationPrompt request) requestedItems
    = {| title := JString (lit "Trick Title");
         description := JString (lit "Brief description of what the trick does");
         instructions := strings [lit "Step 1"; lit "Step 2"; lit "Step 3"; lit "Step 4"];
         difficulty := JString (default (lit "Easy") (req_difficulty request));
         items := strings [lit "item1"; lit "item2"; lit "item3"] |}.
Proof.
  intros request requestedItems Hlevel Hitems Hcontext.
  unfold createTrickGenerationPrompt.
  set (level := default (lit "Easy") (req_difficulty request)) in *.
  set (context := default [] (req_additionalContext request)) in *.
  match goal with
  | |- parseGeneratedTrick (?a ++ ?b ++ ?c ++ ?d ++ ?e ++ ?f ++ ?g ++ ?rest) _ = _ =>
    set (pre := a ++ b ++ c ++ d ++ e ++ f ++ g);
    replace (a ++ b ++ c ++ d ++ e ++ f ++ g ++ rest) with (pre ++ rest)
      by (unfold pre; now rewrite <- !app_assoc)
  end.
  assert (Hpre : ~ In (ch "{") pre).
  { unfold pre. rewrite !in_app_iff.
    intros [H | [H | [H | [H | [H | [H | H]]]]]].
    - revert H. vm_compute. intuition discriminate.
    - revert H. apply join_without; [| exact Hitems]. vm_compute. intuition discriminate.
    - revert H. vm_compute. intuition discriminate.
    - revert H. apply getDifficultyDescription_no_brace.
    - revert H. vm_compute. intuition discriminate.
    - destruct (falsy_string (Some context)); [easy |].
      apply in_app_iff in H as [H | H]; [| now apply Hcontext].
      revert H. vm_compute. intuition discriminate.
    - revert H. vm_compute. intuition discriminate. }
  clearbody pre. unfold parseGeneratedTrick.
  cbn [In difficulties] in Hlevel.
  destruct Hlevel as [<- | [<- | [<- | []]]].
  all: rewrite (match_braces_after pre _ Hpre); vm_compute; reflexivity.
Qed.

Lemma the_skeleton_of_the_prompt_is_read_as_a_trick_example :
  let request := {| req_items := [lit "Coins"; lit "Cups"];
                    req_difficulty := Some (lit "Medium");
                    req_additionalContext := None |} in
  difficulty (parseGeneratedTrick (createTrickGenerationPrompt request) (req_items request))
  = JString (lit "Medium").
Proof.
  intros request.
  rewrite (the_skeleton_of_the_prompt_is_read_as_a_trick request (req_items request)).
  - reflexivity.
  - cbn. tauto.
  - intros item [<- | [<- | []]]; vm_compute; intuition discriminate.
  - vm_compute. tauto.
Defined.

End ReplyRoundTrip.

(** ** The provider of AuthContext.tsx *)

Section ProviderState.

Import Storage AuthContext.














Lemma install_frame profile st k :
  k <> USER_PROFILE -> getItem k (storage (install profile st)) = getItem k (storage st).
Proof. intros Hk. unfold install. cbn [storage]. now apply saveUserProfile_frame. Qed.

Lemma createUserProfile_installs env userId retryCount st :
  exists events st',
    createUserProfile env userId retryCount st = Some (events, st') /\
    (st' = st \/ exists profile, st' = install profile st).
Proof.
  unfold createUserProfile. cbn [createUserProfile_run].
  repeat match goal with
         | |- context [match auth_getUser ?a with _ => _ end] =>
           destruct (auth_getUser a) as [[| |?]|?]
         | |- context [match users_insert ?a with _ => _ end] =>
           destruct (users_insert a) as [[? ?|?]|?]
         | |- context [if ?b && ?c then _ else _] => destruct (b && c) eqn:?
         end; eauto 6.
  exfalso.
  repeat match goal with
         | H : _ && _ = true |- _ => apply andb_true_iff in H as [_ H]
         | H : (_ <? _)%nat = true |- _ => apply Nat.ltb_lt in H
         end.
  lia.
Qed.

(** X25.  Fetching and creating the profile touch the profile alone: the state
    is left as it is or one profile is installed, and every key of the browser
    storage other than that of the profile keeps its value. The fetch installs
    the row that the select returns, creates the profile when the select
    reports that there is no row (code PGRST116), and leaves the state alone
    on every other error and on an exception. *)
Theorem fetchUserProfile_touches_only_the_profile :
  forall (users_select : outcome SelectAnswer) (env : nat -> Attempt)
         (userId : jsstring) (st : State),
    exists events st',
      fetchUserProfile users_select env userId st = Some (events, st') /\
      (st' = st \/ exists profile, st' = install profile st) /\
      (forall k, k <> USER_PROFILE -> getItem k (storage st') = getItem k (storage st)) /\
      (forall data, users_select = Returns (Selected data) ->
                    events = [] /\ st' = install data st) /\
      (forall code, users_select = Returns (SelectError code) ->
                    (code = lit "PGRST116" ->
                     createUserProfile env userId 0 st = Some (events, st')) /\
                    (code <> lit "PGRST116" -> events = [] /\ st' = st)) /\
      (forall e, users_select = Throws e -> events = [] /\ st' = st).
Proof.
  intros users_select env userId st.
  assert (Hframe : forall st', (st' = st \/ exists profile, st' = install profile st) ->
                               forall k, k <> USER_PROFILE ->
                                         getItem k (storage st') = getItem k (storage st)).
  { intros st' [-> | (profile & ->)] k Hk; [reflexivity | now apply install_frame]. }
  unfold fetchUserProfile.
  destruct users_select as [[code|data]|e].
  - destruct (bool_decide_reflect (code = lit "PGRST116")) as [Hc | Hc].
    + destruct (createUserProfile_installs env userId 0 st) as (events & st' & Hrun & Hst).
      exists events, st'. split; [exact Hrun |]. split; [exact Hst |].
      split; [now apply Hframe |].
      repeat split; try discriminate; try congruence;
        intros; exfalso; congruence.
    + exists [], st. split; [reflexivity |]. split; [now left |].
      split; [reflexivity |].
      repeat split; try discriminate; intros; exfalso; congruence.
  - exists [], (install data st). split; [reflexivity |]. split; [eauto |].
    split; [intros k Hk; now apply install_frame |].
    repeat split; try discriminate; congruence.
  - exists [], st. split; [reflexivity |]. split; [now left |].
    split; [reflexivity |]. repeat split; discriminate.
Qed.


(** The row that [createUserProfile] inserts and the temporary profile it
    falls back on hold the same id, name, email, picture and bio.  The name
    is never empty: it is the name of the metadata when that is truthy,
    otherwise what precedes the first @ of the email when that is not
    empty, otherwise "User".  The email is a text, empty when the user has
    none, and the picture is the empty text. *)
Lemma new_profile_is_never_nameless :
  forall (userId : jsstring) (authUser : AuthUser) (created updated : jsstring),
    let row := new_row userId authUser in
    let temp := tempProfile userId authUser created updated in
    (forall k, In k [lit "id"; lit "name"; lit "email"; lit "profile"; lit "bio"] ->
               Claude.prop temp k = Claude.prop row k) /\
    Claude.prop temp (lit "created_at") = Some (JString created) /\
    Claude.prop temp (lit "updated_at") = Some (JString updated) /\
    Claude.prop row (lit "id") = Some (JString userId) /\
    Claude.prop row (lit "profile") = Some (JString []) /\
    Claude.prop row (lit "email") = Some (JString (default [] (email authUser))) /\
    (exists name, Claude.prop row (lit "name") = Some name /\ truthy name = true /\
       name = if truthy_opt (metadata_name authUser)
              then default JNull (metadata_name authUser)
              else match email authUser with
                   | Some e =>
                     match head (split (ch "@") e) with
                     | Some (c :: r) => JString (c :: r)
                     | _ => JString (lit "User")
                     end
                   | None => JString (lit "User")
                   end).
Proof.
  intros userId authUser created updated row temp.
  split; [| repeat split].
  - intros k Hk. cbn [In] in Hk.
    repeat (destruct Hk as [<- | Hk]; [reflexivity |]). contradiction.
  - exists (profile_name authUser). split; [reflexivity |].
    unfold profile_name, email_local_part.
    destruct (truthy_opt (metadata_name authUser)) eqn:Et.
    + split; [| reflexivity].
      destruct (metadata_name authUser); [exact Et | discriminate Et].
    + destruct (email authUser) as [e|]; [| split; reflexivity].
      rewrite split_head. cbn [head].
      destruct (before_first (ch "@") e); split; reflexivity.
Qed.

End ProviderState.

(** ** The sign-in form of AuthPage.tsx *)

Section SignInForm.

Import AuthPage.

Lemma trim_start_parts s :
  exists lead, s = lead ++ trim_start s /\
               (forall c, In c lead -> is_str_whitespace c = true) /\
               match trim_start s with
               | c :: _ => is_str_whitespace c = false
               | [] => True
               end.
Proof.
  induction s as [|x r IH]; cbn [trim_start].
  - exists []. repeat split. intros c [].
  - destruct (is_str_whitespace x) eqn:Ex.
    + destruct IH as (lead & E & Hl & Hh). exists (x :: lead).
      split; [cbn [app]; congruence |]. split; [| exact Hh].
      intros c [<- | Hc]; [assumption | now apply Hl].
    + exists []. repeat split; [intros c [] | assumption].
Qed.

(** [trim] removes white space at both ends and nothing else. *)
Lemma trim_parts s :
  exists lead trail,
    s = lead ++ trim s ++ trail /\
    (forall c, In c lead -> is_str_whitespace c = true) /\
    (forall c, In c trail -> is_str_whitespace c = true) /\
    (forall c r, trim s = c :: r -> is_str_whitespace c = false) /\
    (forall r c, trim s = r ++ [c] -> is_str_whitespace c = false).
Proof.
  unfold trim.
  destruct (trim_start_parts s) as (lead & Es & Hlead & Hfirst).
  set (t := trim_start s) in *.
  destruct (trim_start_parts (rev t)) as (back & Et & Hback & Hlast).
  set (u := trim_start (rev t)) in *.
  assert (Etu : t = rev u ++ rev back).
  { rewrite <- (rev_involutive t), Et, rev_app_distr. reflexivity. }
  exists lead, (rev back). split; [now rewrite Es, Etu |].
  split; [exact Hlead |]. split; [intros c Hc; apply Hback; now apply in_rev |].
  split.
  - intros c r Hu.
    destruct u as [|y u'] eqn:Eu; [discriminate Hu |].
    rewrite Etu, Hu in Hfirst. exact Hfirst.
  - intros r c Hu.
    assert (Eu : u = c :: rev r).
    { rewrite <- (rev_involutive u), Hu, rev_app_distr. reflexivity. }
    now rewrite Eu in Hlast.
Qed.

Lemma trim_blank s :
  (forall c, In c s -> is_str_whitespace c = true) -> trim s = [].
Proof.
  intros Hs. destruct (trim_parts s) as (lead & trail & E & _ & _ & Hfirst & _).
  destruct (trim s) as [|c r] eqn:Et; [reflexivity |].
  specialize (Hfirst c r eq_refl). rewrite (Hs c) in Hfirst; [discriminate Hfirst |].
  rewrite E. apply in_or_app. right. now left.
Qed.

(** X26.  [handleSubmit]. Whatever the services answer or throw, [loading]
    ends false and the fields of the form are as they were. At most one
    request is sent. A sign-up is sent only with a name that is not empty once
    white space is removed at both ends, and it carries the name and the bio
    without that white space; when the name is blank nothing is sent and the
    form says that the name is required. A sign-in is sent with the email and
    the password as they are, and the redirection follows exactly when it
    returns no error. *)
Theorem handleSubmit_never_signs_up_without_a_name :
  forall (signIn : jsstring -> jsstring -> outcome (option jsstring))
         (signUp : jsstring -> jsstring -> jsstring -> jsstring -> outcome (option jsstring))
         (f : Form),
    let calls := fst (handleSubmit signIn signUp f) in
    let f' := snd (handleSubmit signIn signUp f) in
    loading f' = false /\
    (isLogin f' = isLogin f /\ email f' = email f /\ password f' = password f /\
     name f' = name f /\ bio f' = bio f) /\
    (forall e p n b, In (SignUp e p n b) calls ->
       isLogin f = false /\ calls = [SignUp e p n b] /\
       e = email f /\ p = password f /\ n = trim (name f) /\ b = trim (bio f) /\
       n <> [] /\
       (forall c r, n = c :: r -> is_str_whitespace c = false) /\
       (forall r c, n = r ++ [c] -> is_str_whitespace c = false) /\
       exists lead trail, name f = lead ++ n ++ trail /\
                          (forall c, In c lead -> is_str_whitespace c = true) /\
                          (forall c, In c trail -> is_str_whitespace c = true)) /\
    (isLogin f = false -> (forall c, In c (name f) -> is_str_whitespace c = true) ->
     calls = [] /\ error f' = lit "Name is required") /\
    (isLogin f = true ->
     exists rest, calls = SignIn (email f) (password f) :: rest /\
                  (rest = [] \/ rest = [RedirectAfterLogin]) /\
                  (rest = [RedirectAfterLogin] <->
                   signIn (email f) (password f) = Returns None) /\
                  (forall message, signIn (email f) (password f) = Returns (Some message) ->
                                   error f' = message) /\
                  (signIn (email f) (password f) = Returns None -> error f' = [])).
Proof.
  intros signIn signUp f calls f'. subst calls f'. unfold handleSubmit. cbv zeta.
  destruct (isLogin f) eqn:El.
  - destruct (signIn (email f) (password f)) as [[m|]|e];
      cbn [fst snd loading isLogin email password name bio error set_loading set_error];
      (split; [reflexivity |]); (split; [repeat split; assumption |]);
      (split;
       [intros e' p' n' b' Hin; cbn [In] in Hin;
        repeat (destruct Hin as [Hin | Hin]; [discriminate Hin |]); contradiction |]);
      (split; [discriminate |]); intros _;
      eexists; (split; [reflexivity |]);
      repeat split; try tauto; try discriminate; try congruence.
  - destruct (falsy_string (Some (trim (name f)))) eqn:En.
    + cbn [fst snd loading isLogin email password name bio error set_loading set_error].
      split; [reflexivity |]. split; [repeat split; assumption |].
      split; [intros e p n b [] |]. split; [| discriminate].
      intros _ _. split; reflexivity.
    + assert (Hne : trim (name f) <> []).
      { destruct (trim (name f)); [discriminate En | discriminate]. }
      destruct (trim_parts (name f)) as (lead & trail & Ename & Hlead & Htrail & Hfirst & Hlast).
      destruct (signUp (email f) (password f) (trim (name f)) (trim (bio f))) as [[m|]|e];
        cbn [fst snd loading isLogin email password name bio error set_loading set_error];
        (split; [reflexivity |]); (split; [repeat split; assumption |]);
        (split;
         [intros e' p' n' b' [Hin | []]; injection Hin as <- <- <- <-;
          repeat split; try assumption; eauto |]);
        (split; [| discriminate]);
        intros _ Hblank; exfalso; apply Hne; now apply trim_blank.
Qed.

End SignInForm.

(** ** The initials of Header.tsx *)

Section Initials.

Import Header.

Lemma join_empty_separator parts : join [] parts = concat parts.
Proof.
  induction parts as [|p rest IH]; [reflexivity |].
  cbn [join concat]. destruct rest as [|q rest'].
  - cbn [concat]. now rewrite app_nil_r.
  - cbn [app]. now rewrite IH.
Qed.

Lemma split_join c words :
  words <> [] -> (forall w, In w words -> ~ In c w) ->
  split c (join [c] words) = words.
Proof.
  induction words as [|w rest IH]; intros Hne Hw; [congruence |].
  destruct rest as [|w' rest'].
  - cbn [join]. apply split_no_separator. apply Hw. now left.
  - change (join [c] (w :: w' :: rest')) with (w ++ c :: join [c] (w' :: rest')).
    rewrite split_at_separator by (apply Hw; now left).
    rewrite IH; [reflexivity | discriminate |].
    intros x Hx. apply Hw. now right.
Qed.

(** X27.  The initials shown for a name hold at most two code units. For a
    name made of words of ASCII characters separated by single spaces they are
    the first letters of the first two words, in upper case; a word that is
    empty, as between two spaces that follow each other, gives no letter. *)
Theorem getInitials_holds_at_most_two_letters :
  forall (toUpperCase : jsstring -> jsstring) (name : jsstring),
    (List.length (getInitials toUpperCase name) <= 2)%nat /\
    (forall words,
        (forall s, (forall c, In c s -> c < 128) -> toUpperCase s = map ascii_upper s) ->
        name = join [ch " "] words -> words <> [] ->
        (forall w, In w words -> ~ In (ch " ") w /\ forall c, In c w -> c < 128) ->
        getInitials toUpperCase name
        = take 2 (map ascii_upper (concat (map charAt0 words)))).
Proof.
  intros toUpperCase name. unfold getInitials, slice0. split.
  - rewrite length_take. lia.
  - intros words Hupper -> Hne Hwords.
    rewrite split_join; [| assumption |].
    + rewrite join_empty_separator, Hupper; [reflexivity |].
      intros c Hc. apply in_concat in Hc as (x & Hx & Hcx).
      apply in_map_iff in Hx as (w & <- & Hw).
      destruct w as [|y w']; [contradiction |]. destruct Hcx as [<- | []].
      apply (Hwords _ Hw). now left.
    + intros w Hw. now apply Hwords.
Qed.

Lemma getInitials_holds_at_most_two_letters_witness :
  getInitials (map ascii_upper) (lit "ann  lee jones") = lit "AL".
Proof.
  destruct (getInitials_holds_at_most_two_letters (map ascii_upper) (lit "ann  lee jones"))
    as (_ & H).
  rewrite (H [lit "ann"; []; lit "lee"; lit "jones"]); try reflexivity; try discriminate.
  intros w Hw. cbn [In] in Hw.
  repeat (destruct Hw as [<- | Hw];
          [split; [absent | intros c Hc; vm_compute in Hc;
                            repeat (destruct Hc as [<- | Hc]; [reflexivity |]);
                            contradiction] |]).
  contradiction.
Defined.

End Initials.

(** ** The gallery of GalleryPage.tsx *)

Section Gallery.

Import SupabaseStorage Rls GalleryPage.

(** The fields of a state that was built with the setters of the page. *)
Ltac gallery_fields :=
  cbn [mediaItems isUploading uploadStatus other_errors upload_error selectedMedia
       showUploadModal uploadType set_upload_error set_uploading
       SupabaseStorage.error SupabaseStorage.url].



(** X29.  An image that the gallery accepts is sent to the bucket of the
    videos: its type is in the list of the bucket of the profile pictures,
    whose limits it was checked against, and in no case in the list of the
    bucket that the upload addresses. *)
Theorem gallery_images_go_to_the_video_bucket :
  forall (supabase : StorageClient) (now_upload now_item : Z) (iso : jsstring)
         (f : File) (u : jsstring) (g : Gallery),
    uploadType g = Some image ->
    valid (validateProfilePicture f) = true ->
    exists call rest,
      fst (handleFileUpload supabase now_upload now_item iso (Some f) (Some u) g)
      = Uploaded call :: rest /\
      call_file call = f /\
      call_bucket call = bucket_name user_videos_bucket /\
      In (file_type f) (allowed_mime_types profile_pictures_bucket) /\
      ~ In (file_type f) (allowed_mime_types user_videos_bucket).
Proof.
  intros supabase now_upload now_item iso f u g Ht Hv.
  unfold handleFileUpload. rewrite Ht, Hv. cbn [negb].
  unfold uploadUserVideo, uploadFile. cbn [opt_bucket opt_path opt_file opt_userId].
  set (call := {| call_bucket := lit "user_videos"; call_path := _; call_file := f |}).
  assert (Htype : In (file_type f) (allowed_mime_types profile_pictures_bucket)).
  { unfold validateProfilePicture in Hv. cbv zeta in Hv.
    now apply validateFile_valid in Hv as [Hin _]. }
  assert (Hnot : ~ In (file_type f) (allowed_mime_types user_videos_bucket)).
  { intros Hin. cbn [allowed_mime_types profile_pictures_bucket user_videos_bucket In] in *.
    repeat match goal with
           | H : _ \/ _ |- _ => destruct H as [H | H]
           | H : False |- _ => destruct H
           end;
      match goal with
      | H1 : ?a = file_type f, H2 : ?b = file_type f |- _ =>
        rewrite <- H2 in H1; vm_compute in H1; discriminate H1
      end. }
  destruct (upload supabase call) as [[|m]|e];
    cbn [SupabaseStorage.success url andb];
    try destruct (negb (falsy_string (Some (getPublicUrl supabase _ _))));
    cbn [fst map app]; eexists _, _; (split; [reflexivity |]); repeat split; assumption.
Qed.

Lemma gallery_images_go_to_the_video_bucket_witness :
  let supabase := {| upload := fun _ => Returns (Refused (lit "mime type image/png is not supported"));
                     getPublicUrl := fun bucket p => bucket ++ ch "/" :: p |} in
  let f := {| file_name := lit "me.png"; file_type := lit "image/png"; file_size := 1024 |} in
  let g := {| mediaItems := []; isUploading := false; uploadStatus := idle;
              other_errors := []; upload_error := None; selectedMedia := None;
              showUploadModal := true; uploadType := Some image |} in
  exists call rest,
    fst (handleFileUpload supabase 17 18 (lit "2024-01-01T00:00:00.000Z")
           (Some f) (Some (lit "u1")) g) = Uploaded call :: rest /\
    call_bucket call = lit "user_videos".
Proof.
  intros supabase f g.
  destruct (gallery_images_go_to_the_video_bucket
              supabase 17 18 (lit "2024-01-01T00:00:00.000Z") f (lit "u1") g
              eq_refl eq_refl) as (call & rest & Hevents & _ & Hbucket & _).
  exists call, rest. split; [exact Hevents | exact Hbucket].
Defined.

(** X30.  [handleDeleteMedia]. Without a signed-in user nothing is sent.
    Otherwise one removal is sent, to the bucket of the videos, for the path
    made of the user id, a slash and the file name of the item. When the
    removal succeeds, the items that have the id of the given item leave the
    list, the others stay in their order, and the selection is dropped if it
    has that id; when it fails, the state is as before. The path that is
    removed is the path under which [uploadUserVideo] stored the file only
    when the file name of the item is the name that the upload made up. *)
Theorem handleDeleteMedia_removes_by_id :
  forall (remove : RemoveCall -> outcome RemoveAnswer) (userId : option jsstring)
         (mediaItem : MediaItem) (g : Gallery),
    let events := fst (handleDeleteMedia remove userId mediaItem g) in
    let g' := snd (handleDeleteMedia remove userId mediaItem g) in
    (userId = None -> events = [] /\ g' = g) /\
    (forall u, userId = Some u ->
       let call := {| remove_bucket := lit "user_videos";
                      remove_paths := [u ++ ch "/" :: item_filename mediaItem] |} in
       events = [RemoveSent call] /\
       (remove call <> Returns Removed -> g' = g) /\
       (remove call = Returns Removed ->
        (forall item, In item (mediaItems g') <->
                      In item (mediaItems g) /\ item_id item <> item_id mediaItem) /\
        (exists dropped, mediaItems g' = List.filter dropped (mediaItems g)) /\
        (forall selected, selectedMedia g' = Some selected <->
                          selectedMedia g = Some selected /\
                          item_id selected <> item_id mediaItem)) /\
       (forall supabase now file customName c,
           In c (fst (uploadUserVideo supabase now file u customName)) ->
           (remove_paths call = [call_path c] <->
            item_filename mediaItem = video_filename now file customName))).
Proof.
  intros remove userId mediaItem g events g'. subst events g'.
  split; [intros ->; split; reflexivity |].
  intros u -> call. subst call.
  unfold handleDeleteMedia, deleteUserVideo, deleteFile. cbv zeta.
  set (call := {| remove_bucket := lit "user_videos"; remove_paths := _ |}).
  assert (Hpaths : forall supabase now file customName c,
             In c (fst (uploadUserVideo supabase now file u customName)) ->
             (remove_paths call = [call_path c] <->
              item_filename mediaItem = video_filename now file customName)).
  { intros supabase now file customName c [<- | []]. cbn [call_path remove_paths call].
    split.
    - intros H. injection H as H. apply app_inv_head in H. now injection H.
    - now intros ->. }
  destruct (remove call) as [[|m]|e] eqn:Er; cbn [deleted fst snd map];
    (split; [reflexivity |]); (split; [congruence |]); (split; [| exact Hpaths]);
    try discriminate.
  intros _. gallery_fields. split; [| split].
  - intros item. rewrite List.filter_In. unfold same_id.
    rewrite negb_true_iff, bool_decide_eq_false. reflexivity.
  - eexists. reflexivity.
  - intros selected. destruct (selectedMedia g) as [s|]; [| split; [discriminate | tauto]].
    unfold same_id. destruct (bool_decide_reflect (item_id s = item_id mediaItem)) as [E | E].
    + split; [discriminate |]. intros [H Hne]. injection H as <-. contradiction.
    + split.
      * intros H. injection H as <-. tauto.
      * intros [H _]. exact H.
Qed.

End Gallery.
